(** * SQL lineage analyzer: a shallow embedding and its properties

    The development follows the Python modules of the package
    [lineage_analyzer]:

    - [extractor.py]      (class [SQLComponentExtractor]),
    - [metadata.py]       (class [MetadataStore]),
    - [analyzer.py]       (class [LineageAnalyzer]),
    - [utils.py]          (names and normalization),
    - [visualization.py]  (class [LineageExporter]).

    Python [str] values are lists of characters ([text]).  Characters are
    [ascii]; the character classes below are Python's on code points
    below 128, which is the alphabet of SQL keywords and of every input
    the statements below mention.

    The regular expressions of the source are kept as values of a small
    regular-expression syntax and run by a backtracking matcher that
    follows the priorities of Python's [re] (greedy and lazy repetition,
    ordered alternation, numbered groups, anchors). *)

From Stdlib Require Import String Ascii.
From Stdlib Require Import List Bool Arith ZArith Lia.
Import ListNotations.

Set Implicit Arguments.

Local Open Scope list_scope.
Local Open Scope bool_scope.

(* ================================================================== *)
(** ** Python strings *)
(* ================================================================== *)

Module Text.

Abbreviation text := (list ascii).

(** A literal of the source. *)
Definition str (s : string) : text := list_ascii_of_string s.

Definition chr_eqb (a b : ascii) : bool := Ascii.eqb a b.

Fixpoint text_eqb (a b : text) : bool :=
  match a, b with
  | [], [] => true
  | x :: a', y :: b' => chr_eqb x y && text_eqb a' b'
  | _, _ => false
  end.

Definition in_range (lo hi : nat) (c : ascii) : bool :=
  let n := nat_of_ascii c in (lo <=? n) && (n <=? hi).

(** [str.isspace()] and the class [\s] of [re] on [str] patterns:
    tab, line feed, vertical tab, form feed, carriage return, the four
    separators 28..31 and the space. *)
Definition is_space (c : ascii) : bool :=
  in_range 9 13 c || in_range 28 31 c || in_range 32 32 c.

Definition is_lower (c : ascii) : bool := in_range 97 122 c.
Definition is_upper (c : ascii) : bool := in_range 65 90 c.
Definition is_digit (c : ascii) : bool := in_range 48 57 c.

(** The class [[a-zA-Z0-9_]]; on this alphabet also [\w]. *)
Definition is_ident (c : ascii) : bool :=
  is_lower c || is_upper c || is_digit c || in_range 95 95 c.

Definition upper_chr (c : ascii) : ascii :=
  if is_lower c then ascii_of_nat (nat_of_ascii c - 32) else c.

(** [s.upper()] *)
Definition upper (s : text) : text := map upper_chr s.

Fixpoint lstrip (s : text) : text :=
  match s with
  | c :: s' => if is_space c then lstrip s' else s
  | [] => []
  end.

Definition rstrip (s : text) : text := rev (lstrip (rev s)).

(** [s.strip()] *)
Definition strip (s : text) : text := rstrip (lstrip s).

(** [s.startswith(p)] *)
Fixpoint startswith (p s : text) : bool :=
  match p, s with
  | [], _ => true
  | x :: p', y :: s' => chr_eqb x y && startswith p' s'
  | _ :: _, [] => false
  end.

(** [p in s] *)
Fixpoint contains (p s : text) : bool :=
  startswith p s ||
  match s with
  | [] => false
  | _ :: s' => contains p s'
  end.

(** [s.split(sep)] for a one-character separator: always at least one
    piece, empty pieces kept. *)
Fixpoint split_chr (sep : ascii) (s : text) : list text :=
  match s with
  | [] => [[]]
  | c :: s' =>
      if chr_eqb c sep then [] :: split_chr sep s'
      else match split_chr sep s' with
           | p :: ps => (c :: p) :: ps
           | [] => [[c]]
           end
  end.

(** Python truthiness of a string. *)
Definition nonempty (s : text) : bool :=
  match s with [] => false | _ :: _ => true end.

End Text.
Import Text.

(* ================================================================== *)
(** ** Regular expressions, as the module [re] runs them *)
(* ================================================================== *)

Module Regex.

Inductive regex : Type :=
| Eps
| Chr (p : ascii -> bool)          (* a literal, a class or [.] *)
| Seq (a b : regex)
| Alt (a b : regex)                (* [a|b], left first *)
| Star (greedy : bool) (a : regex) (* [a*] and [a*?] *)
| Group (i : nat) (a : regex)      (* the i-th capturing group *)
| Bol                              (* [^] *)
| Eol (multiline : bool)           (* [$] *)
| WordB.                           (* [\b] *)

(** A position in the subject: the character before it (none at the
    start), the text from it on, and the groups captured so far. *)
Record mstate : Type := MState {
  prev : option ascii;
  rest : text;
  caps : list (nat * text)
}.

Definition newline : ascii := ascii_of_nat 10.

Definition word_at (o : option ascii) : bool :=
  match o with Some c => is_ident c | None => false end.

Definition at_eol (multiline : bool) (s : text) : bool :=
  match s with
  | [] => true
  | c :: s' =>
      chr_eqb c newline &&
      (multiline || match s' with [] => true | _ :: _ => false end)
  end.

(** The loop of a repetition: [body] matches the repeated pattern once.
    A greedy repetition tries one more turn before the continuation, a
    lazy one the continuation first; a turn has to consume something, so
    [n], the length of the text left on entry, bounds the turns. *)
Fixpoint star_loop (body : (mstate -> option mstate) -> mstate -> option mstate)
  (greedy : bool) (k : mstate -> option mstate) (n : nat) (st : mstate)
  : option mstate :=
  match n with
  | 0 => k st
  | S n' =>
      let again st' :=
        if length (rest st') <? length (rest st)
        then star_loop body greedy k n' st' else None in
      if greedy then
        match body again st with
        | Some m => Some m
        | None => k st
        end
      else
        match k st with
        | Some m => Some m
        | None => body again st
        end
  end.

(** [run r k st]: match [r] at [st], then continue with [k]; the first
    success in Python's order of preference is returned. *)
Fixpoint run (r : regex) (k : mstate -> option mstate) (st : mstate)
  : option mstate :=
  match r with
  | Eps => k st
  | Chr p =>
      match rest st with
      | c :: s' => if p c then k (MState (Some c) s' (caps st)) else None
      | [] => None
      end
  | Seq a b => run a (run b k) st
  | Alt a b =>
      match run a k st with
      | Some m => Some m
      | None => run b k st
      end
  | Star greedy a => star_loop (run a) greedy k (length (rest st)) st
  | Group i a =>
      run a (fun st' =>
               let taken := firstn (length (rest st) - length (rest st'))
                                   (rest st) in
               k (MState (prev st') (rest st') ((i, taken) :: caps st')))
          st
  | Bol => match prev st with None => k st | Some _ => None end
  | Eol multiline => if at_eol multiline (rest st) then k st else None
  | WordB =>
      if xorb (word_at (prev st)) (word_at (hd_error (rest st)))
      then k st else None
  end.

(** A match object: where the match ends and what its groups hold. *)
Definition match_at (r : regex) (p : option ascii) (s : text)
  : option mstate :=
  run r (fun st => Some st) (MState p s []).

(** [m.group(i)] *)
Fixpoint lookup_group (i : nat) (l : list (nat * text)) : text :=
  match l with
  | [] => []
  | (j, t) :: l' => if Nat.eqb i j then t else lookup_group i l'
  end.

Definition group (i : nat) (m : mstate) : text := lookup_group i (caps m).

(** [re.match(r, s)] *)
Definition re_match (r : regex) (s : text) : option mstate :=
  match_at r None s.

Fixpoint search_from (r : regex) (p : option ascii) (s : text)
  : option mstate :=
  match match_at r p s with
  | Some m => Some m
  | None =>
      match s with
      | [] => None
      | c :: s' => search_from r (Some c) s'
      end
  end.

(** [re.search(r, s)]: the leftmost position with a match. *)
Definition re_search (r : regex) (s : text) : option mstate :=
  search_from r None s.

(** Scanning for successive matches; [skip] counts the characters of
    the match in progress still to be passed over.  The patterns used
    with [sub] and [finditer] in this package never match the empty
    string, so an empty match is treated as no match. *)
Fixpoint sub_from (r : regex) (repl : text) (skip : nat)
         (p : option ascii) (s : text) : text :=
  match s with
  | [] => []
  | c :: s' =>
      match skip with
      | S n => sub_from r repl n (Some c) s'
      | 0 =>
          match match_at r p s with
          | Some m =>
              match length s - length (rest m) with
              | S n => repl ++ sub_from r repl n (Some c) s'
              | 0 => c :: sub_from r repl 0 (Some c) s'
              end
          | None => c :: sub_from r repl 0 (Some c) s'
          end
      end
  end.

(** [re.sub(r, repl, s)] *)
Definition re_sub (r : regex) (repl : text) (s : text) : text :=
  sub_from r repl 0 None s.

Fixpoint finditer_from (r : regex) (skip : nat)
         (p : option ascii) (s : text) : list mstate :=
  match s with
  | [] => []
  | c :: s' =>
      match skip with
      | S n => finditer_from r n (Some c) s'
      | 0 =>
          match match_at r p s with
          | Some m =>
              match length s - length (rest m) with
              | S n => m :: finditer_from r n (Some c) s'
              | 0 => finditer_from r 0 (Some c) s'
              end
          | None => finditer_from r 0 (Some c) s'
          end
      end
  end.

(** [re.finditer(r, s)] *)
Definition re_finditer (r : regex) (s : text) : list mstate :=
  finditer_from r 0 None s.

(** *** Pattern syntax *)

Definition one (c : string) : regex :=
  match str c with
  | x :: _ => Chr (chr_eqb x)
  | [] => Eps
  end.

(** A literal, case-sensitive. *)
Definition lit (s : string) : regex :=
  fold_right (fun c r => Seq (Chr (chr_eqb c)) r) Eps (str s).

(** A literal under [re.IGNORECASE]. *)
Definition lit_i (s : string) : regex :=
  fold_right
    (fun c r => Seq (Chr (fun x => chr_eqb (upper_chr x) (upper_chr c))) r)
    Eps (str s).

Definition plus (a : regex) : regex := Seq a (Star true a).
Definition plus_lazy (a : regex) : regex := Seq a (Star false a).
Definition opt (a : regex) : regex := Alt a Eps.

(** [\s+] and [\s*] *)
Definition ws1 : regex := plus (Chr is_space).
Definition ws0 : regex := Star true (Chr is_space).

(** [.] without and with [re.DOTALL] *)
Definition dot : regex := Chr (fun c => negb (chr_eqb c newline)).
Definition dot_all : regex := Chr (fun _ => true).

(** [[^...]]: any character outside a listed set or class. *)
Definition none_of (cls : ascii -> bool) (s : string) : regex :=
  Chr (fun c => negb (cls c || existsb (chr_eqb c) (str s))).

Definition no_class (_ : ascii) : bool := false.

Fixpoint seq (l : list regex) : regex :=
  match l with
  | [] => Eps
  | [a] => a
  | a :: l' => Seq a (seq l')
  end.

End Regex.
Import Regex.

(* ================================================================== *)
(** ** Python dictionaries *)
(* ================================================================== *)

(** A [dict] with [str] keys: the entries in insertion order, each key
    once.  Assigning to a key that is present replaces its value in place;
    a new key goes to the end. *)
Module Dict.

Abbreviation dict V := (list (text * V)%type).

Section Ops.
Variable V : Type.

(** [d[k]]; [None] where Python raises [KeyError]. *)
Fixpoint getitem (k : text) (d : dict V) : option V :=
  match d with
  | [] => None
  | (k', v) :: d' => if text_eqb k k' then Some v else getitem k d'
  end.

(** [k in d] *)
Definition mem (k : text) (d : dict V) : bool :=
  match getitem k d with Some _ => true | None => false end.

(** [d[k] = v] *)
Fixpoint setitem (k : text) (v : V) (d : dict V) : dict V :=
  match d with
  | [] => [(k, v)]
  | (k', v') :: d' =>
      if text_eqb k k' then (k', v) :: d' else (k', v') :: setitem k v d'
  end.

(** [d.keys()], [d.items()] *)
Definition keys (d : dict V) : list text := map fst d.
Definition items (d : dict V) : list (text * V) := d.

(** [d.get(k, default)] *)
Definition get_or (k : text) (default : V) (d : dict V) : V :=
  match getitem k d with Some v => v | None => default end.
End Ops.

End Dict.
Import Dict.

(* ================================================================== *)
(** ** The patterns and the projection splitter the modules share *)
(* ================================================================== *)

Module Patterns.

(** [[a-zA-Z0-9_]+] *)
Definition ident1 : regex := plus (Chr is_ident).

(** [([a-zA-Z0-9_]+)\.([a-zA-Z0-9_]+)] *)
Definition qualified_column : regex :=
  seq [Group 1 ident1; one "."; Group 2 ident1].

(** [([a-zA-Z0-9_]+)\(([^)]+)\)] *)
Definition function_call : regex :=
  seq [Group 1 ident1; one "(";
       Group 2 (plus (none_of no_class ")")); one ")"].

(** [([a-zA-Z0-9_]+)\(] *)
Definition function_open : regex := seq [Group 1 ident1; one "("].

(** [^[a-zA-Z0-9_]+$] *)
Definition bare_identifier : regex := seq [Bol; ident1; Eol false].

(** [[^a-zA-Z0-9_]] *)
Definition non_identifier : regex := Chr (fun c => negb (is_ident c)).

(** [(.*?)\s+AS\s+([^\s,]+)$], IGNORECASE *)
Definition alias : regex :=
  seq [Group 1 (Star false dot); ws1; lit_i "AS"; ws1;
       Group 2 (plus (none_of is_space ",")); Eol false].

(** [SELECT\s+(.+?)\s+FROM], IGNORECASE; [any] is [dot] or, under
    DOTALL, [dot_all]. *)
Definition select_list (any : regex) : regex :=
  seq [lit_i "SELECT"; ws1; Group 1 (plus_lazy any); ws1; lit_i "FROM"].

(** [[^\s(]+] *)
Definition name1 : regex := plus (none_of is_space "(").

(** [[^\s,;()]+] *)
Definition table1 : regex := plus (none_of is_space ",;()").

(** [INSERT\s+INTO\s+([^\s(]+)], IGNORECASE *)
Definition insert_into : regex :=
  seq [lit_i "INSERT"; ws1; lit_i "INTO"; ws1; Group 1 name1].

(** [INSERT\s+INTO\s+[^\s(]+\s*\(([^)]+)\)], IGNORECASE *)
Definition insert_columns : regex :=
  seq [lit_i "INSERT"; ws1; lit_i "INTO"; ws1; name1; ws0; one "(";
       Group 1 (plus (none_of no_class ")")); one ")"].

(** [(?:OR\s+REPLACE\s+)?] *)
Definition or_replace : regex :=
  opt (seq [lit_i "OR"; ws1; lit_i "REPLACE"; ws1]).

(** [(?:TEMP|TEMPORARY\s+)?] *)
Definition temp : regex :=
  opt (Alt (lit_i "TEMP") (seq [lit_i "TEMPORARY"; ws1])).

(** [CREATE\s+(?:OR\s+REPLACE\s+)?(?:TEMP|TEMPORARY\s+)?TABLE\s+([^\s(]+)],
    IGNORECASE *)
Definition create_table : regex :=
  seq [lit_i "CREATE"; ws1; or_replace; temp; lit_i "TABLE"; ws1;
       Group 1 name1].

(** [CREATE\s+(?:OR\s+REPLACE\s+)?VIEW\s+([^\s(]+)], IGNORECASE *)
Definition create_view : regex :=
  seq [lit_i "CREATE"; ws1; or_replace; lit_i "VIEW"; ws1; Group 1 name1].

(** [FROM\s+([^\s,;()]+)] and [JOIN\s+([^\s,;()]+)], IGNORECASE *)
Definition from_table : regex := seq [lit_i "FROM"; ws1; Group 1 table1].
Definition join_table : regex := seq [lit_i "JOIN"; ws1; Group 1 table1].

(** [--.*?$], MULTILINE *)
Definition line_comment : regex := seq [lit "--"; Star false dot; Eol true].

(** [/\*.*?\*/], DOTALL *)
Definition block_comment : regex :=
  seq [lit "/*"; Star false dot_all; lit "*/"].

(** The loop that splits a projection list on the commas outside
    parentheses; the same statements stand in [_extract_column_mappings]
    (both branches), [extract_column_references] and
    [load_metadata_from_sql]:
<<
    for char in text:
        if char == '(':   parenthesis_level += 1; current += char
        elif char == ')': parenthesis_level -= 1; current += char
        elif char == ',' and parenthesis_level == 0:
            columns.append(current.strip()); current = ""
        else: current += char
    if current: columns.append(current.strip())
>>
    The level is a Python [int]; an unmatched [)] takes it below
    zero. *)
Record split_state : Type := SplitState {
  columns_done : list text;
  current_column : text;
  parenthesis_level : Z
}.

Definition split_step (st : split_state) (char : ascii) : split_state :=
  if chr_eqb char "("%char then
    SplitState (columns_done st) (current_column st ++ [char])
               (parenthesis_level st + 1)
  else if chr_eqb char ")"%char then
    SplitState (columns_done st) (current_column st ++ [char])
               (parenthesis_level st - 1)
  else if chr_eqb char ","%char && (parenthesis_level st =? 0)%Z then
    SplitState (columns_done st ++ [strip (current_column st)]) []
               (parenthesis_level st)
  else
    SplitState (columns_done st) (current_column st ++ [char])
               (parenthesis_level st).

Definition split_columns (columns_text : text) : list text :=
  let st := fold_left split_step columns_text (SplitState [] [] 0%Z) in
  if nonempty (current_column st)
  then columns_done st ++ [strip (current_column st)]
  else columns_done st.

End Patterns.
Import Patterns.

(* ================================================================== *)
(** ** metadata.py: class MetadataStore *)
(* ================================================================== *)

Module Metadata.

(** [self.metadata]: [{db: {table: {column: properties}}}].  A property
    bag maps [str] to [str]. *)
Abbreviation props := (dict text).
Abbreviation columns := (dict props).
Abbreviation tables := (dict columns).
Abbreviation store := (dict tables).

(** [__init__] *)
Definition empty : store := [].

(** The key of the per-table properties slot. *)
Definition table_properties : text := str "_table_properties".
Definition default_db : text := str "default".
Definition description_key : text := str "description".

(** *** Methods that mutate [self.metadata]

    A method is a computation over the store that either returns or
    raises; the store an exception leaves behind is kept, since the
    import methods catch exceptions and go on with the store as it
    is. *)
Definition M (A : Type) : Type := store -> option A * store.

Definition ret {A} (a : A) : M A := fun st => (Some a, st).
Definition raise {A} : M A := fun st => (None, st).
Definition bind {A B} (m : M A) (f : A -> M B) : M B :=
  fun st =>
    match m st with
    | (Some a, st') => f a st'
    | (None, st') => (None, st')
    end.

Notation "x <- m ;; f" := (bind m (fun x => f))
  (at level 61, m at next level, right associativity).
Notation "m ;;; f" := (bind m (fun _ => f))
  (at level 61, right associativity).

Definition get_store : M store := fun st => (Some st, st).
Definition put_store (st : store) : M unit := fun _ => (Some tt, st).

(** The store a computation leaves, and whether it returned. *)
Definition exec {A} (m : M A) (st : store) : store := snd (m st).
Definition returns {A} (m : M A) (st : store) : bool :=
  match fst (m st) with Some _ => true | None => false end.

(** [try: m  except Exception as e: print(...)] *)
Definition try_except (m : M unit) : M unit :=
  fun st => (Some tt, snd (m st)).

(** [for x in l: body(x)] *)
Fixpoint for_each {A} (l : list A) (body : A -> M unit) : M unit :=
  match l with
  | [] => ret tt
  | x :: l' => body x ;;; for_each l' body
  end.

(** [when c: m] *)
Definition when (c : bool) (m : M unit) : M unit :=
  if c then m else ret tt.

(** An indexing expression; [KeyError] when the key is missing. *)
Definition index {V} (k : text) (d : dict V) : M V :=
  match getitem k d with Some v => ret v | None => raise end.

(** [self.metadata[db]] *)
Definition the_db (db : text) : M tables :=
  st <- get_store ;; index db st.

(** [self.metadata[db][t]] *)
Definition the_table (db t : text) : M columns :=
  tbls <- the_db db ;; index t tbls.

(** [self.metadata[db] = tbls] *)
Definition assign_db (db : text) (tbls : tables) : M unit :=
  st <- get_store ;; put_store (setitem db tbls st).

(** [self.metadata[db][t] = cols] *)
Definition assign_table (db t : text) (cols : columns) : M unit :=
  tbls <- the_db db ;; assign_db db (setitem t cols tbls).

(** [self.metadata[db][t][c] = p] *)
Definition assign_column (db t c : text) (p : props) : M unit :=
  cols <- the_table db t ;; assign_table db t (setitem c p cols).

(** Python's [not x] on an [Optional[str]]. *)
Definition falsy (o : option text) : bool :=
  match o with
  | Some (_ :: _) => false
  | _ => true
  end.

(** The opening of every method that takes a table name and an optional
    database name:
<<
    if '.' in table_name and not database_name:
        parts = table_name.split('.')
        if len(parts) == 2:
            database_name, table_name = parts
>>
*)
Definition qualify (table_name : text) (database_name : option text)
  : option text * text :=
  if contains (str ".") table_name && falsy database_name then
    match split_chr "."%char table_name with
    | [d; t] => (Some d, t)
    | _ => (database_name, table_name)
    end
  else (database_name, table_name).

(** [if not database_name: database_name = 'default'] *)
Definition or_default (database_name : option text) : text :=
  match database_name with
  | Some (c :: s) => c :: s
  | _ => default_db
  end.

Definition add_database (database_name : text) : M unit :=
  st <- get_store ;;
  when (negb (mem database_name st)) (assign_db database_name []).

(** [add_table] and [set_table_description] call each other: the second
    calls the first without a description, which then does not call
    back.  [add_table_with] is the body of [add_table] with the callee
    of its last statement left open. *)
Definition add_table_with
  (set_description : text -> text -> option text -> M unit)
  (table_name : text) (database_name : option text)
  (description : option text) : M unit :=
  let '(database_name, table_name) := qualify table_name database_name in
  let database_name := or_default database_name in
  add_database database_name ;;;
  tbls <- the_db database_name ;;
  when (negb (mem table_name tbls))
    (assign_table database_name table_name [] ;;;
     assign_column database_name table_name table_properties []) ;;;
  match description with
  | Some (c :: d) => set_description table_name (c :: d) (Some database_name)
  | _ => ret tt
  end.

Definition set_table_description (table_name description : text)
  (database_name : option text) : M unit :=
  let '(database_name, table_name) := qualify table_name database_name in
  let database_name := or_default database_name in
  add_table_with (fun _ _ _ => ret tt)
                 table_name (Some database_name) None ;;;
  cols <- the_table database_name table_name ;;
  when (negb (mem table_properties cols))
    (assign_column database_name table_name table_properties []) ;;;
  cols <- the_table database_name table_name ;;
  p <- index table_properties cols ;;
  assign_column database_name table_name table_properties
                (setitem description_key description p).

Definition add_table : text -> option text -> option text -> M unit :=
  add_table_with set_table_description.

(** [add_column].  The registry is modelled by its contents: the bag
    stored is the content, after the call, of the dictionary the code
    stores.  In the code that dictionary is the object the caller
    passed as [properties] (a new one when [properties] is [None]), and
    [properties['description'] = description] writes into it; a caller
    who passes one object to two calls shares it between two columns.
    What is said below about columns other than the one added is said
    of calls that write into no dictionary of the caller. *)
Definition add_column (column_name table_name : text)
  (database_name : option text) (properties : option props)
  (description : option text) : M unit :=
  let '(database_name, table_name) := qualify table_name database_name in
  add_table table_name database_name None ;;;
  let database_name := or_default database_name in
  let properties := match properties with Some p => p | None => [] end in
  let properties :=
    match description with
    | Some (c :: d) => setitem description_key (c :: d) properties
    | _ => properties
    end in
  assign_column database_name table_name column_name properties.

(** [column_exists]: a chain of membership tests, no indexing that
    could fail. *)
Definition column_exists (table_name column_name : text)
  (database_name : option text) (st : store) : bool :=
  let '(database_name, table_name) := qualify table_name database_name in
  let database_name := or_default database_name in
  match getitem database_name st with
  | Some tbls =>
      match getitem table_name tbls with
      | Some cols => mem column_name cols
      | None => false
      end
  | None => false
  end.

Definition set_column_description (column_name table_name description : text)
  (database_name : option text) : M unit :=
  let '(database_name, table_name) := qualify table_name database_name in
  let database_name := or_default database_name in
  st <- get_store ;;
  when (negb (column_exists table_name column_name (Some database_name) st))
    (add_column column_name table_name (Some database_name) None None) ;;;
  cols <- the_table database_name table_name ;;
  p <- index column_name cols ;;
  assign_column database_name table_name column_name
                (setitem description_key description p).

Definition get_table_description (table_name : text)
  (database_name : option text) (st : store) : text :=
  let '(database_name, table_name) := qualify table_name database_name in
  let database_name := or_default database_name in
  match getitem database_name st with
  | Some tbls =>
      match getitem table_name tbls with
      | Some cols =>
          match getitem table_properties cols with
          | Some p => get_or description_key [] p
          | None => []
          end
      | None => []
      end
  | None => []
  end.

(** [get_column_description]: the column's [description], or [''] when
    the column or the key is missing. *)
Definition get_column_description (column_name table_name : text)
  (database_name : option text) (st : store) : text :=
  let '(database_name, table_name) := qualify table_name database_name in
  let database_name := or_default database_name in
  if column_exists table_name column_name (Some database_name) st then
    match getitem database_name st with
    | Some tbls =>
        match getitem table_name tbls with
        | Some cols =>
            match getitem column_name cols with
            | Some p => get_or description_key [] p
            | None => []
            end
        | None => []
        end
    | None => []
    end
  else [].

(** [get_columns]: [list(self.metadata[db][t].keys())], or [[]]. *)
Definition get_columns (table_name : text) (database_name : option text)
  (st : store) : list text :=
  let '(database_name, table_name) := qualify table_name database_name in
  let database_name := or_default database_name in
  match getitem database_name st with
  | Some tbls =>
      match getitem table_name tbls with
      | Some cols => keys cols
      | None => []
      end
  | None => []
  end.

(** *** Import and export

    Reading a file, [json.load], [csv.DictReader] and [csv.reader] are
    library code: an import method is given what they deliver, [None]
    when they raise.  A JSON document of the shape the store writes is
    represented by the nested dictionary it denotes, which is what
    [json.dump] takes and [json.load] gives back. *)
Abbreviation json_doc := (dict (dict (dict props))).

(** The loop of [_import_metadata_from_json_file], repeated in the
    [json] branch of [process_pasted_metadata]. *)
Definition import_json_data (data : json_doc) : M unit :=
  for_each (items data) (fun '(db_name, tables) =>
    add_database db_name ;;;
    for_each (items tables) (fun '(table_name, columns) =>
      add_table table_name (Some db_name) None ;;;
      for_each (items columns) (fun '(column_name, properties) =>
        add_column column_name table_name (Some db_name)
                   (Some properties) None))).

Definition _import_metadata_from_json_file (content : option json_doc)
  : M unit :=
  try_except
    match content with
    | Some data => import_json_data data
    | None => raise
    end.

(** [json.dump(self.metadata, f, indent=2)]: the document written. *)
Definition _export_metadata_to_json (st : store) : json_doc := st.

(** What [csv.DictReader] delivers for a file whose lines all have as
    many cells as the header: the header and one dictionary per row,
    keyed by the header's fields, every value a [str].  Lines of
    another length are the matter of the module [Ragged]. *)
Record csv_file : Type := CsvFile {
  fieldnames : list text;
  csv_rows : list (dict text)
}.

Definition required_fields : list text :=
  [str "database_name"; str "table_name"; str "column_name"].

Definition is_in (x : text) (l : list text) : bool :=
  existsb (text_eqb x) l.

(** The body of the [try] of [import_metadata_from_csv], repeated in the
    [csv] branch of [process_pasted_metadata]. *)
Definition import_csv_data (f : csv_file) : M unit :=
  let missing_fields :=
    filter (fun field => negb (is_in field (fieldnames f)))
           required_fields in
  match missing_fields with
  | _ :: _ => raise
  | [] =>
      for_each (csv_rows f) (fun row =>
        db <- index (str "database_name") row ;;
        let db_name := if nonempty db then db else default_db in
        table_name <- index (str "table_name") row ;;
        column_name <- index (str "column_name") row ;;
        let properties :=
          fold_left
            (fun (properties : props) key =>
               let value := get_or key [] row in
               if negb (is_in key required_fields) && nonempty value
               then setitem key value properties else properties)
            (keys row) [] in
        add_column column_name table_name (Some db_name)
                   (Some properties) None)
  end.

Definition import_metadata_from_csv (content : option csv_file) : M unit :=
  try_except
    match content with
    | Some f => import_csv_data f
    | None => raise
    end.

(** [_derive_column_name] of [MetadataStore]. *)
Definition _derive_column_name (expr : text) : text :=
  match re_search qualified_column expr with
  | Some simple_col_match => group 2 simple_col_match
  | None =>
      match re_search function_open expr with
      | Some func_col_match => group 1 func_col_match ++ str "_result"
      | None =>
          if (length expr <=? 30) &&
             match re_search non_identifier expr with
             | Some _ => false
             | None => true
             end
          then expr
          else str "derived_column"
      end
  end.

(** [CREATE\s+(?:OR\s+REPLACE\s+)?(?:TEMP|TEMPORARY\s+)?TABLE\s+([^\s(]+)\s*\(([^)]+)\)],
    IGNORECASE | DOTALL *)
Definition create_table_pattern : regex :=
  seq [lit_i "CREATE"; ws1; or_replace; temp; lit_i "TABLE"; ws1;
       Group 1 name1; ws0; one "(";
       Group 2 (plus (none_of no_class ")")); one ")"].

(** [([^\s,]+)\s+([^,]+?)(?:,|$)] *)
Definition column_pattern : regex :=
  seq [Group 1 (plus (none_of is_space ",")); ws1;
       Group 2 (plus_lazy (none_of no_class ","));
       Alt (one ",") (Eol false)].

(** [CREATE\s+(?:OR\s+REPLACE\s+)?VIEW\s+([^\s(]+)\s+AS\s+SELECT\s+(.+?)\s+FROM],
    IGNORECASE | DOTALL *)
Definition create_view_pattern : regex :=
  seq [lit_i "CREATE"; ws1; or_replace; lit_i "VIEW"; ws1;
       Group 1 name1; ws1; lit_i "AS"; ws1; lit_i "SELECT"; ws1;
       Group 2 (plus_lazy dot_all); ws1; lit_i "FROM"].

(** In [load_metadata_from_sql] the database name starts as [None] and
    the dotted name is split as in every method's opening, which is
    [qualify] at [None]. *)
Definition load_metadata_from_sql (sql_text : text) : M unit :=
  for_each (re_finditer create_table_pattern sql_text) (fun m =>
    let table_name := strip (group 1 m) in
    let columns_text := strip (group 2 m) in
    let '(database_name, table_name) := qualify table_name None in
    add_table table_name database_name None ;;;
    for_each (re_finditer column_pattern columns_text) (fun col_match =>
      let column_name := strip (group 1 col_match) in
      let data_type := strip (group 2 col_match) in
      add_column column_name table_name database_name
                 (Some [(str "data_type", data_type)]) None)) ;;;
  for_each (re_finditer create_view_pattern sql_text) (fun m =>
    let view_name := strip (group 1 m) in
    let columns_text := strip (group 2 m) in
    let '(database_name, view_name) := qualify view_name None in
    add_table view_name database_name None ;;;
    for_each (split_columns columns_text) (fun col_expr =>
      let column_name :=
        match re_search alias col_expr with
        | Some alias_match => strip (group 2 alias_match)
        | None => _derive_column_name col_expr
        end in
      add_column column_name view_name database_name
                 (Some [(str "derived_from", col_expr)]) None)).

(** What the user pasted, after [_detect_format] and the library parsers. *)
Inductive pasted : Type :=
| PastedJson (content : option json_doc)
| PastedCsv (content : option csv_file)
| PastedSql (sql_text : text)
| PastedOther.

Definition process_pasted_metadata (p : pasted) : M unit :=
  match p with
  | PastedJson (Some data) => import_json_data data
  | PastedJson None => ret tt
  | PastedCsv (Some f) => try_except (import_csv_data f)
  | PastedCsv None => ret tt
  | PastedSql sql_text => load_metadata_from_sql sql_text
  | PastedOther => ret tt
  end.

Fixpoint index_of (x : text) (l : list text) : option nat :=
  match l with
  | [] => None
  | y :: l' =>
      if text_eqb x y then Some 0
      else match index_of x l' with Some n => Some (S n) | None => None end
  end.

(** [header.index(name) if name in header else fallback] *)
Definition column_index (name : string) (header : list text)
  (fallback : nat) : nat :=
  match index_of (str name) header with Some i => i | None => fallback end.

(** [row[i]]; [IndexError] past the end. *)
Definition cell (i : nat) (row : list text) : M text :=
  match nth_error row i with Some v => ret v | None => raise end.

(** [import_reference_metadata_csv]; the content is what [csv.reader]
    yields, header first. *)
Definition import_reference_metadata_csv (content : option (list (list text)))
  : M unit :=
  try_except
    match content with
    | Some (header :: rows) =>
        let table_name_idx := column_index "Table Name" header 0 in
        let column_name_idx := column_index "Column Name" header 1 in
        let table_desc_idx := column_index "Table Description" header 2 in
        let column_desc_idx := column_index "Column Description" header 3 in
        for_each rows (fun row =>
          if length row <? 2 then ret tt
          else
            table_name <- cell table_name_idx row ;;
            column_name <- cell column_name_idx row ;;
            table_desc <- (if table_desc_idx <? length row
                           then cell table_desc_idx row else ret []) ;;
            column_desc <- (if column_desc_idx <? length row
                            then cell column_desc_idx row else ret []) ;;
            add_table table_name None (Some table_desc) ;;;
            add_column column_name table_name None None (Some column_desc))
    | _ => raise
    end.

(** *** The public operations and the stores they reach *)
Inductive operation : Type :=
| OpAddDatabase (database_name : text)
| OpAddTable (table_name : text) (database_name description : option text)
| OpAddColumn (column_name table_name : text) (database_name : option text)
              (properties : option props) (description : option text)
| OpSetTableDescription (table_name description : text)
                        (database_name : option text)
| OpSetColumnDescription (column_name table_name description : text)
                         (database_name : option text)
| OpImportJsonFile (content : option json_doc)
| OpImportCsv (content : option csv_file)
| OpImportReferenceCsv (content : option (list (list text)))
| OpLoadSql (sql_text : text)
| OpPasted (p : pasted).

Definition perform (o : operation) : M unit :=
  match o with
  | OpAddDatabase d => add_database d
  | OpAddTable t d desc => add_table t d desc
  | OpAddColumn c t d p desc => add_column c t d p desc
  | OpSetTableDescription t desc d => set_table_description t desc d
  | OpSetColumnDescription c t desc d => set_column_description c t desc d
  | OpImportJsonFile content => _import_metadata_from_json_file content
  | OpImportCsv content => import_metadata_from_csv content
  | OpImportReferenceCsv content => import_reference_metadata_csv content
  | OpLoadSql sql_text => load_metadata_from_sql sql_text
  | OpPasted p => process_pasted_metadata p
  end.

(** The stores reachable from a new [MetadataStore()]; an operation
    that raises still leaves its store behind. *)
Inductive reachable : store -> Prop :=
| reach_new : reachable empty
| reach_step (o : operation) (st : store) :
    reachable st -> reachable (exec (perform o) st).

End Metadata.

(* ================================================================== *)
(** ** metadata.py: a CSV file with rows of any length *)
(* ================================================================== *)

(** [Metadata.csv_file] holds the rows of a file in which every line
    has as many cells as the header: then [csv.DictReader] delivers a
    [str] for every field, and the registry holds strings only.  For a
    shorter line it delivers [None] for the missing fields, for a
    longer one the list of the extra cells under the key [None], and
    the import stores what it is given.  This module follows the same
    methods on that path, with keys that may be [None] and property
    values that may be lists. *)
Module Ragged.
Import Metadata.

(** A dictionary key: [None] or a [str]. *)
Definition key : Type := option text.

Definition key_eqb (a b : key) : bool :=
  match a, b with
  | None, None => true
  | Some x, Some y => text_eqb x y
  | _, _ => false
  end.

(** A property value: a [str] or a list of [str]. *)
Inductive value : Type :=
| VStr (s : text)
| VList (l : list text).

Section Keyed.
Variable V : Type.

(** [d[k]] and [d[k] = v] on a dictionary with such keys. *)
Fixpoint lookup (k : key) (d : list (key * V)) : option V :=
  match d with
  | [] => None
  | (k', v) :: d' => if key_eqb k k' then Some v else lookup k d'
  end.

Fixpoint assign (k : key) (v : V) (d : list (key * V)) : list (key * V) :=
  match d with
  | [] => [(k, v)]
  | (k', v') :: d' =>
      if key_eqb k k' then (k', v) :: d' else (k', v') :: assign k v d'
  end.
End Keyed.

(** [self.metadata]: databases and tables are named by strings on
    this path, columns and properties by keys. *)
Abbreviation props := (list (key * value)).
Abbreviation columns := (list (key * props)).
Abbreviation tables := (dict columns).
Abbreviation registry := (dict tables).

(** State and exceptions, as in [Metadata.M]. *)
Definition R (A : Type) : Type := registry -> option A * registry.

Definition ret {A} (a : A) : R A := fun st => (Some a, st).
Definition raise {A} : R A := fun st => (None, st).
Definition bind {A B} (m : R A) (f : A -> R B) : R B :=
  fun st =>
    match m st with
    | (Some a, st') => f a st'
    | (None, st') => (None, st')
    end.

Definition exec {A} (m : R A) (st : registry) : registry := snd (m st).

Definition try_except (m : R unit) : R unit :=
  fun st => (Some tt, snd (m st)).

Fixpoint for_each {A} (l : list A) (body : A -> R unit) : R unit :=
  match l with
  | [] => ret tt
  | x :: l' => bind (body x) (fun _ => for_each l' body)
  end.

Definition add_database (database_name : text) : R unit :=
  fun st =>
    (Some tt,
     if mem database_name st then st else setitem database_name [] st).

(** [add_table(table_name, database_name)]: the call without a
    description, whose last [if description:] is not taken.  The
    indexing [self.metadata[database_name]] follows [add_database] and
    finds its key. *)
Definition add_table (table_name : text) (database_name : option text)
  : R unit :=
  let '(database_name, table_name) := qualify table_name database_name in
  let database_name := or_default database_name in
  bind (add_database database_name) (fun _ st =>
    match getitem database_name st with
    | Some tbls =>
        if mem table_name tbls then (Some tt, st)
        else (Some tt,
              setitem database_name
                      (setitem table_name [(Some table_properties, [])] tbls)
                      st)
    | None => (None, st)
    end).

(** [add_column]; a [table_name] that is [None] makes
    ['.' in table_name] raise [TypeError]. *)
Definition add_column (column_name : key) (table_name : option text)
  (database_name : option text) (properties : option props)
  (description : option text) : R unit :=
  match table_name with
  | None => raise
  | Some table_name =>
      let '(database_name, table_name) :=
        qualify table_name database_name in
      bind (add_table table_name database_name) (fun _ st =>
        let database_name := or_default database_name in
        let properties :=
          match properties with Some p => p | None => [] end in
        let properties :=
          match description with
          | Some (c :: d) =>
              assign (Some description_key) (VStr (c :: d)) properties
          | _ => properties
          end in
        match getitem database_name st with
        | Some tbls =>
            match getitem table_name tbls with
            | Some cols =>
                (Some tt,
                 setitem database_name
                   (setitem table_name
                            (assign column_name properties cols) tbls)
                   st)
            | None => (None, st)
            end
        | None => (None, st)
        end)
  end.

(** A row of [csv.DictReader]: a value, [None] where the line was too
    short, for every field of the header, and the extra cells of a
    line that was too long, which the reader puts under the key
    [None]. *)
Record dict_row : Type := DictRow {
  fields : dict (option text);
  rest_cells : option (list text)
}.

(** How the reader makes the row of a line:
<<
    d = dict(zip(self.fieldnames, row))
    lf = len(self.fieldnames); lr = len(row)
    if lf < lr:   d[self.restkey] = row[lf:]
    elif lf > lr: for key in self.fieldnames[lr:]: d[key] = self.restval
>>
*)
Definition dict_reader_row (fieldnames cells : list text) : dict_row :=
  DictRow
    (fold_left (fun d e => setitem (fst e) (snd e) d)
               (combine fieldnames (map Some cells)
                  ++ map (fun k => (k, None))
                         (skipn (length cells) fieldnames))
               [])
    (if length fieldnames <? length cells
     then Some (skipn (length fieldnames) cells)
     else None).

(** The bag built from a row:
<<
    for key in row.keys():
        if key not in required_fields and row[key]:
            properties[key] = row[key]
>>
*)
Definition row_properties (row : dict_row) : props :=
  let properties :=
    fold_left
      (fun (properties : props) k =>
         match getitem k (fields row) with
         | Some (Some (c :: v)) =>
             if negb (is_in k required_fields)
             then assign (Some k) (VStr (c :: v)) properties
             else properties
         | _ => properties
         end)
      (keys (fields row)) [] in
  match rest_cells row with
  | Some (x :: l) => assign None (VList (x :: l)) properties
  | _ => properties
  end.

(** One turn of [for row in reader]. *)
Definition import_row (row : dict_row) : R unit :=
  match getitem (str "database_name") (fields row),
        getitem (str "table_name") (fields row),
        getitem (str "column_name") (fields row) with
  | Some db, Some table_name, Some column_name =>
      let db_name :=
        match db with Some (c :: d) => c :: d | _ => default_db end in
      add_column column_name table_name (Some db_name)
                 (Some (row_properties row)) None
  | _, _, _ => raise
  end.

(** [import_metadata_from_csv], given the header and the rows the
    reader delivers. *)
Definition import_metadata_from_csv (fieldnames : list text)
  (rows : list dict_row) : R unit :=
  try_except
    (if existsb (fun field => negb (is_in field fieldnames)) required_fields
     then raise
     else for_each rows import_row).

(** [json.dump] writes a key that is [None] as [null]. *)
Definition json_key (k : key) : text :=
  match k with
  | Some s => s
  | None => str "null"
  end.

(** A JSON object as written: its members in order. *)
Abbreviation members V := (list (text * V)%type).

(** [_export_metadata_to_json]: the document [json.dump] writes. *)
Definition _export_metadata_to_json (st : registry)
  : members (members (members (members value))) :=
  map (fun db =>
         (fst db,
          map (fun t =>
                 (fst t,
                  map (fun c =>
                         (json_key (fst c),
                          map (fun e => (json_key (fst e), snd e)) (snd c)))
                      (snd t)))
              (snd db)))
      st.

(** [json.load] makes a dictionary of every object, a repeated key
    keeping its last value. *)
Definition loaded {V} (object : members V) : dict V :=
  fold_left (fun d e => setitem (fst e) (snd e) d) object [].

Definition json_load (document : members (members (members (members value))))
  : dict (dict (dict (dict value))) :=
  loaded (map (fun db =>
    (fst db,
     loaded (map (fun t =>
       (fst t,
        loaded (map (fun c => (fst c, loaded (snd c))) (snd t))))
       (snd db))))
    document).

(** [_import_metadata_from_json_file], given what [json.load]
    returns. *)
Definition _import_metadata_from_json_file
  (data : dict (dict (dict (dict value)))) : R unit :=
  try_except
    (for_each (items data) (fun db =>
       bind (add_database (fst db)) (fun _ =>
       for_each (items (snd db)) (fun t =>
         bind (add_table (fst t) (Some (fst db))) (fun _ =>
         for_each (items (snd t)) (fun c =>
           add_column (Some (fst c)) (Some (fst t)) (Some (fst db))
                      (Some (map (fun e => (Some (fst e), snd e))
                                 (items (snd c))))
                      None)))))).

End Ragged.

(* ================================================================== *)
(** ** extractor.py: class SQLComponentExtractor *)
(* ================================================================== *)

Module Extractor.

Definition single_quote : ascii := "'"%char.
Definition double_quote : ascii := ascii_of_nat 34.
Definition semicolon : ascii := ";"%char.

(** The local variables of the loop of [extract_sql_statements]. *)
Record splitter : Type := Splitter {
  statements : list text;
  current_statement : text;
  in_quote : bool;
  quote_char : option ascii
}.

Definition same_quote (q : option ascii) (char : ascii) : bool :=
  match q with Some c => chr_eqb c char | None => false end.

Definition is_quote (char : ascii) : bool :=
  chr_eqb char single_quote || chr_eqb char double_quote.

(** [if s.strip(): l.append(s.strip())] *)
Definition append_stripped (l : list text) (s : text) : list text :=
  if nonempty (strip s) then l ++ [strip s] else l.

(** One turn of [for char in sql_content]. *)
Definition step (st : splitter) (char : ascii) : splitter :=
  if is_quote char && (negb (in_quote st) || same_quote (quote_char st) char)
  then
    let in_quote' := negb (in_quote st) in
    Splitter (statements st) (current_statement st ++ [char]) in_quote'
             (if in_quote' then Some char else None)
  else if chr_eqb char semicolon && negb (in_quote st) then
    Splitter (append_stripped (statements st) (current_statement st)) []
             (in_quote st) (quote_char st)
  else
    Splitter (statements st) (current_statement st ++ [char])
             (in_quote st) (quote_char st).

Definition start : splitter := Splitter [] [] false None.

Definition scan (st : splitter) (sql_content : text) : splitter :=
  fold_left step sql_content st.

(** The statements after the loop, the last one added if it exists. *)
Definition finish (st : splitter) : list text :=
  append_stripped (statements st) (current_statement st).

(** The two [re.sub] calls that remove comments. *)
Definition remove_comments (sql_file_content : text) : text :=
  re_sub block_comment (str " ")
         (re_sub line_comment (str " ") sql_file_content).

Definition extract_sql_statements (sql_file_content : text) : list text :=
  finish (scan start (remove_comments sql_file_content)).

(** [CREATE\s+(?:OR\s+REPLACE\s+)?PROCEDURE\s+[^\s(]+\s*\(([^)]+)\)],
    IGNORECASE *)
Definition create_proc_pattern : regex :=
  seq [lit_i "CREATE"; ws1; or_replace; lit_i "PROCEDURE"; ws1; name1;
       ws0; one "("; Group 1 (plus (none_of no_class ")")); one ")"].

(** [\bIN\b], [\bOUT\b], [\bINOUT\b], IGNORECASE *)
Definition word (w : string) : regex := seq [WordB; lit_i w; WordB].

Definition found (r : regex) (s : text) : bool :=
  match re_search r s with Some _ => true | None => false end.

(** One turn of [for param in param_list], on the pair of result
    lists. *)
Definition classify (acc : list text * list text) (param : text)
  : list text * list text :=
  let '(input_params, output_params) := acc in
  let param := strip param in
  if found (word "IN") param then (input_params ++ [param], output_params)
  else if found (word "OUT") param then
    (input_params, output_params ++ [param])
  else if found (word "INOUT") param then
    (input_params ++ [param], output_params ++ [param])
  else (input_params ++ [param], output_params).

Definition extract_stored_procedure_params (sql_text : text)
  : list text * list text :=
  fold_left
    (fun acc m =>
       let params_text := group 1 m in
       let param_list := split_chr ","%char params_text in
       fold_left classify param_list acc)
    (re_finditer create_proc_pattern sql_text) ([], []).

Definition extract_query_type (sql_text : text) : text :=
  let sql_text := upper (strip sql_text) in
  if startswith (str "SELECT") sql_text then str "SELECT"
  else if startswith (str "INSERT") sql_text then str "INSERT"
  else if startswith (str "UPDATE") sql_text then str "UPDATE"
  else if startswith (str "DELETE") sql_text then str "DELETE"
  else if startswith (str "CREATE TABLE") sql_text then str "CREATE TABLE"
  else if startswith (str "CREATE VIEW") sql_text then str "CREATE VIEW"
  else if startswith (str "CREATE PROCEDURE") sql_text
          || startswith (str "CREATE FUNCTION") sql_text
       then str "CREATE PROCEDURE"
  else if startswith (str "ALTER") sql_text then str "ALTER"
  else if startswith (str "DROP") sql_text then str "DROP"
  else str "UNKNOWN".

End Extractor.

(* ================================================================== *)
(** ** analyzer.py: class LineageAnalyzer *)
(* ================================================================== *)

Module Analyzer.
Import Metadata.

(** The result of [analyze_sql]: target column to its sources. *)
Abbreviation mapping := (dict (list text)).

(** [\s+] *)
Definition whitespace_run : regex := ws1.

Definition _normalize_sql (sql_text : text) : text :=
  let sql_text := re_sub line_comment (str " ") sql_text in
  let sql_text := re_sub block_comment (str " ") sql_text in
  let sql_text := re_sub whitespace_run (str " ") sql_text in
  strip sql_text.

Definition _extract_target_table (sql_text : text) : text :=
  match re_search insert_into sql_text with
  | Some insert_match => strip (group 1 insert_match)
  | None =>
      match re_search create_table sql_text with
      | Some create_match => strip (group 1 create_match)
      | None =>
          match re_search create_view sql_text with
          | Some view_match => strip (group 1 view_match)
          | None => str "Unknown"
          end
      end
  end.

Definition _extract_source_tables (sql_text : text) : list text :=
  map (fun m => strip (group 1 m)) (re_finditer from_table sql_text) ++
  map (fun m => strip (group 1 m)) (re_finditer join_table sql_text).

(** [self.metadata_store] is the parameter [ms]. *)
Definition _extract_column_source (ms : store) (column_expr : text)
  (source_tables : list text) : text :=
  match re_search qualified_column column_expr with
  | Some simple_col_match =>
      group 1 simple_col_match ++ str "." ++ group 2 simple_col_match
  | None =>
      match re_search function_call column_expr with
      | Some func_col_match =>
          let func_name := group 1 func_col_match in
          let func_args := group 2 func_col_match in
          match re_search qualified_column func_args with
          | Some arg_col_match =>
              group 1 arg_col_match ++ str "." ++ group 2 arg_col_match
                ++ str " (in " ++ func_name ++ str ")"
          | None =>
              str "Function: " ++ func_name ++ str "(" ++ func_args
                ++ str ")"
          end
      | None =>
          match re_match bare_identifier column_expr, source_tables with
          | Some _, _ :: _ =>
              match find (fun table => column_exists table column_expr
                                                     None ms)
                         source_tables with
              | Some table => table ++ str "." ++ column_expr
              | None => column_expr
              end
          | _, _ => column_expr
          end
      end
  end.

Definition _derive_column_name (expr : text) : text :=
  match re_search qualified_column expr with
  | Some simple_col_match => group 2 simple_col_match
  | None =>
      match re_search function_open expr with
      | Some func_col_match => group 1 func_col_match ++ str "_result"
      | None =>
          if (length expr <=? 30) &&
             match re_search non_identifier expr with
             | Some _ => false
             | None => true
             end
          then expr
          else str "derived_column"
      end
  end.

(** [f"{target_table}.{target_col}"] *)
Definition target_key (target_table target_col : text) : text :=
  target_table ++ str "." ++ target_col.

(** The positional loop of the INSERT branch:
<<
    for i, target_col in enumerate(target_columns):
        if i < len(source_columns):
            column_mappings[f"{target_table}.{target_col}"] =
                [self._extract_column_source(source_columns[i], source_tables)]
>>
*)
Fixpoint map_by_position (ms : store) (target_table : text)
  (source_tables : list text) (i : nat) (target_columns source_columns : list text)
  (column_mappings : mapping) : mapping :=
  match target_columns with
  | [] => column_mappings
  | target_col :: more =>
      map_by_position ms target_table source_tables (S i) more source_columns
        (match nth_error source_columns i with
         | Some source_col =>
             setitem (target_key target_table target_col)
                     [_extract_column_source ms source_col source_tables]
                     column_mappings
         | None => column_mappings
         end)
  end.

(** One turn of [for expr in column_expressions] of the CREATE branch. *)
Definition map_expression (ms : store) (target_table : text)
  (source_tables : list text) (column_mappings : mapping) (expr : text)
  : mapping :=
  match re_search alias expr with
  | Some alias_match =>
      let source_expr := strip (group 1 alias_match) in
      let target_col := strip (group 2 alias_match) in
      setitem (target_key target_table target_col)
              [_extract_column_source ms source_expr source_tables]
              column_mappings
  | None =>
      let col_name := _derive_column_name expr in
      setitem (target_key target_table col_name)
              [_extract_column_source ms expr source_tables]
              column_mappings
  end.

Definition _extract_column_mappings (ms : store) (sql_text target_table : text)
  (source_tables : list text) : mapping :=
  if contains (str "INSERT INTO") (upper sql_text) then
    match re_search insert_columns sql_text with
    | Some insert_cols_match =>
        let target_columns :=
          map strip (split_chr ","%char (group 1 insert_cols_match)) in
        match re_search (select_list dot) sql_text with
        | Some select_match =>
            let source_columns := split_columns (group 1 select_match) in
            map_by_position ms target_table source_tables 0
                            target_columns source_columns []
        | None => []
        end
    | None => []
    end
  else if contains (str "CREATE") (upper sql_text)
          && contains (str "SELECT") (upper sql_text) then
    match re_search (select_list dot) sql_text with
    | Some select_match =>
        let column_expressions := split_columns (group 1 select_match) in
        fold_left (map_expression ms target_table source_tables)
                  column_expressions []
    | None => []
    end
  else [].

Definition analyze_sql (ms : store) (sql_text : text) : mapping :=
  let sql_text := _normalize_sql sql_text in
  let target_table := _extract_target_table sql_text in
  let source_tables := _extract_source_tables sql_text in
  _extract_column_mappings ms sql_text target_table source_tables.

End Analyzer.

(* ================================================================== *)
(** ** utils.py *)
(* ================================================================== *)

Module Utils.

(** [normalize_sql]: statement for statement the method
    [LineageAnalyzer._normalize_sql]. *)
Definition normalize_sql (sql_text : text) : text :=
  let sql_text := re_sub line_comment (str " ") sql_text in
  let sql_text := re_sub block_comment (str " ") sql_text in
  let sql_text := re_sub ws1 (str " ") sql_text in
  strip sql_text.

Definition extract_table_name (identifier : text) : text :=
  let parts := split_chr "."%char identifier in
  match parts with
  | [p0] => p0
  | [_; p1] => p1
  | _ :: _ :: p2 :: _ => p2
  | [] => identifier
  end.

Definition extract_schema_name (identifier : text) : text :=
  let parts := split_chr "."%char identifier in
  match parts with
  | [p0; _] => p0
  | _ :: p1 :: _ :: _ => p1
  | _ => str "default"
  end.

End Utils.

(* ================================================================== *)
(** ** visualization.py: class LineageExporter *)
(* ================================================================== *)

Module Visualization.
Import Metadata Analyzer.

(** The first occurrence of [sep] cuts [s] in two. *)
Fixpoint split_first (sep s : text) : option (text * text) :=
  if startswith sep s then Some ([], skipn (length sep) s)
  else match s with
       | [] => None
       | c :: s' =>
           match split_first sep s' with
           | Some (a, b) => Some (c :: a, b)
           | None => None
           end
       end.

(** [s.split(sep, 1)] *)
Definition split1 (sep s : text) : list text :=
  match split_first sep s with
  | Some (a, b) => [a; b]
  | None => [s]
  end.

(** [a, b = l]; [None] where Python raises [ValueError]. *)
Definition unpack2 (l : list text) : option (text * text) :=
  match l with
  | [a; b] => Some (a, b)
  | _ => None
  end.

(** [s.rstrip(ch)] for one character. *)
Fixpoint lstrip_chr (ch : ascii) (s : text) : text :=
  match s with
  | c :: s' => if chr_eqb c ch then lstrip_chr ch s' else s
  | [] => []
  end.

Definition rstrip_chr (ch : ascii) (s : text) : text :=
  rev (lstrip_chr ch (rev s)).

(** The rows handed to [writer.writerow]. *)
Abbreviation row := (list text).

Definition source_target_header : row :=
  [str "Source Table"; str "Source Column";
   str "Target Table"; str "Target Column"].

(** One turn of [for source_col in source_cols] in
    [export_source_target_csv]: the rows it writes, [None] if it
    raises. *)
Definition source_rows (target_table target_column source_col : text)
  : option (list row) :=
  if negb (nonempty source_col) then Some []
  else if contains (str "Function:") source_col then
    Some [[str "Function"; source_col; target_table; target_column]]
  else if contains (str ".") source_col then
    match unpack2 (split1 (str ".") source_col) with
    | Some (source_table, source_column) =>
        if contains (str " (in ") source_column then
          match unpack2 (split1 (str " (in ") source_column) with
          | Some (source_column, func_name) =>
              let func_name := rstrip_chr ")"%char func_name in
              Some [[source_table; source_column;
                     target_table; target_column]]
          | None => None
          end
        else Some [[source_table; source_column;
                    target_table; target_column]]
    | None => None
    end
  else Some [[str "Unknown"; source_col; target_table; target_column]].

(** The target of a mapping, parsed into table and column. *)
Definition parse_target (target_col : text) : option (text * text) :=
  if contains (str ".") target_col
  then unpack2 (split1 (str ".") target_col)
  else Some (str "Unknown", target_col).

(** The rows written by a sequence of turns inside one [try]: those of
    the turns before the first that raises. *)
Fixpoint written (turns : list (option (list row))) : list row :=
  match turns with
  | [] => []
  | Some rows :: more => rows ++ written more
  | None :: _ => []
  end.

(** What the operating system answers when a directory is to be made
    and a file to be opened for writing. *)
Record file_system : Type := FileSystem {
  can_make : text -> bool;
  can_open : text -> bool
}.

(** [os.path.dirname(p)], as [posixpath] has it:
<<
    i = p.rfind('/') + 1
    head = p[:i]
    if head and head != '/' * len(head):
        head = head.rstrip('/')
    return head
>>
*)
Fixpoint from_slash (s : text) : text :=
  match s with
  | [] => []
  | c :: s' => if chr_eqb c "/"%char then s else from_slash s'
  end.

Definition dirname (p : text) : text :=
  let head := rev (from_slash (rev p)) in
  if nonempty head && negb (forallb (fun c => chr_eqb c "/"%char) head)
  then rstrip_chr "/"%char head
  else head.

(** [os.makedirs(d, exist_ok=True)]: [true] when it returns.  It raises
    on the empty path whatever the file system holds. *)
Definition makedirs (fs : file_system) (d : text) : bool :=
  nonempty d && can_make fs d.

(** The opening of both exporters, inside their [try]:
<<
    os.makedirs(os.path.dirname(output_path), exist_ok=True)
    with open(output_path, 'w', newline='') as f:
>>
    [true] when the body of the [with] is reached. *)
Definition open_for_writing (fs : file_system) (output_path : text) : bool :=
  makedirs fs (dirname output_path) && can_open fs output_path.

(** The rows the body of the [with] of [export_source_target_csv]
    writes. *)
Definition source_target_rows (column_mappings : mapping) : list row :=
  source_target_header ::
  written
    (flat_map
       (fun '(target_col, source_cols) =>
          match parse_target target_col with
          | Some (target_table, target_column) =>
              map (source_rows target_table target_column) source_cols
          | None => [None]
          end)
       (items column_mappings)).

(** [export_source_target_csv]: the rows of the file written, [None]
    when the opening raises, the error is printed and no file is
    written. *)
Definition export_source_target_csv (column_mappings : mapping)
  (output_path : text) (fs : file_system) : option (list row) :=
  if open_for_writing fs output_path
  then Some (source_target_rows column_mappings)
  else None.

Definition metadata_header : row :=
  [str "Table Name"; str "Column Name";
   str "Table Description"; str "Column Description"].

(** The rows the body of the [with] of [export_metadata_csv] writes;
    no statement of its loops can raise. *)
Definition metadata_rows (metadata_store : store) : list row :=
  metadata_header ::
  flat_map
    (fun '(db_name, tables) =>
       flat_map
         (fun '(table_name, columns) =>
            let table_desc :=
              if mem table_properties columns then
                match getitem table_properties columns with
                | Some p => get_or description_key [] p
                | None => []
                end
              else [] in
            flat_map
              (fun '(column_name, properties) =>
                 if text_eqb column_name table_properties then []
                 else [[table_name; column_name; table_desc;
                        get_or description_key [] properties]])
              (items columns))
         (items tables))
    (items metadata_store).

(** [export_metadata_csv]: the rows of the file written, [None] when
    the opening raises and no file is written. *)
Definition export_metadata_csv (metadata_store : store)
  (output_path : text) (fs : file_system) : option (list row) :=
  if open_for_writing fs output_path
  then Some (metadata_rows metadata_store)
  else None.

End Visualization.

(* ================================================================== *)
(** ** The store operations as functions on the registry *)
(* ================================================================== *)

(** What each method of [MetadataStore] does to the registry when it
    returns; the lemmas of the next part show that the methods always
    return and leave exactly these registries. *)
Module Registry.
Import Metadata.

Section Update.
Variable V : Type.

(** [d[k] = f(d[k])] for a key that is present. *)
Definition update (k : text) (f : V -> V) (d : dict V) : dict V :=
  match getitem k d with
  | Some v => setitem k (f v) d
  | None => d
  end.

Definition fresh (k : text) (d : dict V) : Prop := ~ In k (keys d).
End Update.

Definition new_table : columns := [(table_properties, [])].

Definition ensure_db (d : text) (st : store) : store :=
  if mem d st then st else setitem d [] st.

Definition ensure_table (d t : text) (st : store) : store :=
  update d (fun tbls => if mem t tbls then tbls
                        else setitem t new_table tbls)
         (ensure_db d st).

Definition put_column (d t c : text) (p : props) (st : store) : store :=
  update d (update t (setitem c p)) st.

Definition describe (desc : text) (p : props) : props :=
  setitem description_key desc p.

Definition describe_table (d t desc : text) (st : store) : store :=
  update d (update t (fun cols =>
    update table_properties (describe desc)
           (if mem table_properties cols then cols
            else setitem table_properties [] cols))) st.

Definition describe_column (d t c desc : text) (st : store) : store :=
  update d (update t (update c (describe desc))) st.

(** What [add_table] leaves. *)
Definition add_table_result (d t : text) (desc : option text) (st : store)
  : store :=
  match desc with
  | Some (c :: d') => describe_table d t (c :: d') (ensure_table d t st)
  | _ => ensure_table d t st
  end.

(** The bag [add_column] stores. *)
Definition bag (properties : option props) (description : option text)
  : props :=
  let p := match properties with Some p => p | None => [] end in
  match description with
  | Some (c :: d) => setitem description_key (c :: d) p
  | _ => p
  end.

(** The entry of a column, if the database, the table and the column
    are all present. *)
Definition column_entry (d t c : text) (st : store) : option props :=
  match getitem d st with
  | Some tbls =>
      match getitem t tbls with
      | Some cols => getitem c cols
      | None => None
      end
  | None => None
  end.

Definition table_entry (d t : text) (st : store) : option columns :=
  match getitem d st with
  | Some tbls => getitem t tbls
  | None => None
  end.

(** *** The shape of every reachable registry *)

(** A table's dictionary starts with the reserved key. *)
Definition wf_columns (cols : columns) : Prop :=
  NoDup (keys cols) /\
  exists p more, cols = (table_properties, p) :: more.

(** A database's tables; the database named by the empty string never
    gets any, since an empty name is replaced by ['default']. *)
Definition wf_tables (d : text) (tbls : tables) : Prop :=
  NoDup (keys tbls) /\
  (d = [] -> tbls = []) /\
  Forall (fun e => wf_columns (snd e)) tbls.

Definition wf (st : store) : Prop :=
  NoDup (keys st) /\ Forall (fun e => wf_tables (fst e) (snd e)) st.

(** A computation keeps [P] whether it returns or raises. *)
Definition keeps {A} (P : store -> Prop) (m : M A) : Prop :=
  forall st, P st -> P (snd (m st)).

End Registry.

Import Metadata Extractor Analyzer Registry.
Import Utils Visualization.

(* ================================================================== *)
(** ** Notions and sample values used in the statements *)
(* ================================================================== *)

(** A statement as the splitter returns it. *)
Definition trimmed (x : text) : Prop := strip x = x /\ x <> [].

(** One assignment of the positional loop of the INSERT branch. *)
Definition write (ms : store) (target_table : text)
  (source_tables : list text) (m : mapping) (e : text * text) : mapping :=
  setitem (target_key target_table (fst e))
          [_extract_column_source ms (snd e) source_tables] m.

(** [x] is a contiguous part of [s]. *)
Definition part_of (x s : text) : Prop := exists a b, s = a ++ x ++ b.

(** [st'] is a later position of the match that passed [st]: further in
    the subject, and every group captured since then is a part of the
    text that was left at [st]. *)
Definition within (st st' : mstate) : Prop :=
  (exists a, rest st = a ++ rest st') /\
  forall i x, In (i, x) (caps st') ->
              In (i, x) (caps st) \/ part_of x (rest st).

(** A greedy repetition of one character class, written by recursion on
    the subject: take characters of the class as long as they come, then
    try the continuation from the longest run back to the shortest. *)
Fixpoint greedy_class (f : ascii -> bool) (k : mstate -> option mstate)
  (p : option ascii) (s : text) (captured : list (nat * text))
  : option mstate :=
  match s with
  | c :: s' =>
      if f c then
        match greedy_class f k (Some c) s' captured with
        | Some m => Some m
        | None => k (MState p s captured)
        end
      else k (MState p s captured)
  | [] => k (MState p [] captured)
  end.

(** The text starts with [identifier.identifier]: identifier characters,
    a dot, an identifier character. *)
Definition qualified_here (s : text) : Prop :=
  exists c1 g1 c2 r,
    s = c1 :: g1 ++ "."%char :: c2 :: r /\
    is_ident c1 = true /\ forallb is_ident g1 = true /\
    is_ident c2 = true.




(** The bag [import_metadata_from_csv] builds from a row: the fields
    besides the three required ones whose value is not empty. *)
Definition row_properties (row : dict text) : props :=
  fold_left
    (fun (properties : props) key =>
       let value := get_or key [] row in
       if negb (is_in key required_fields) && nonempty value
       then setitem key value properties else properties)
    (keys row) [].

(** The character before the position reached after reading [g]. *)
Definition last_prev (p : option ascii) (g : text) : option ascii :=
  fold_left (fun _ c => Some c) g p.

(** A run of the class [f] cannot go on into [r]. *)
Definition stops (f : ascii -> bool) (r : text) : Prop :=
  match r with
  | [] => True
  | c :: _ => f c = false
  end.

(** The class [[^)]]. *)
Definition not_close (c : ascii) : bool :=
  negb (no_class c || existsb (chr_eqb c) (str ")")).

(** A non-empty text of identifier characters. *)
Definition is_identifier (s : text) : bool :=
  nonempty s && forallb is_ident s.

(** The text does not end in an identifier character. *)
Definition boundary (s : text) : Prop :=
  forall b x, s = b ++ [x] -> is_ident x = false.

(** The text starts with identifier characters followed by [d]. *)
Definition ident_then (d : ascii) (s : text) : Prop :=
  exists g r, s = g ++ d :: r /\ forallb is_ident g = true.

(** Opening parentheses of a text minus its closing ones. *)
Fixpoint net (s : text) : Z :=
  match s with
  | [] => 0%Z
  | c :: s' =>
      ((if chr_eqb c "("%char then 1
        else if chr_eqb c ")"%char then -1 else 0) + net s')%Z
  end.

(** The first piece of a split gets [cur] in front. *)
Definition prepend (cur : text) (pieces : list text) : list text :=
  match pieces with
  | [] => [cur]
  | p :: ps => (cur ++ p) :: ps
  end.

(** Every whitespace character of the text is a space, and is followed
    by a character that is not whitespace or by the end of the text. *)
Fixpoint squeezed (s : text) : bool :=
  match s with
  | [] => true
  | c :: s' =>
      (negb (is_space c)
       || (chr_eqb c " "%char
           && match s' with [] => true | d :: _ => negb (is_space d) end))
      && squeezed s'
  end.


(** The classes [[^\s,;()]] and [[^\s(]] of the table-name patterns. *)
Definition table_chr (c : ascii) : bool :=
  negb (is_space c || existsb (chr_eqb c) (str ",;()")).

Definition name_chr (c : ascii) : bool :=
  negb (is_space c || existsb (chr_eqb c) (str "(")).

(** A file system that refuses nothing. *)
Definition fs_open : file_system :=
  FileSystem (fun _ => true) (fun _ => true).

(** A store that knows the columns [x] and [y] of table [s]. *)
Definition store_s_xy : store :=
  exec (add_column (str "x") (str "s") None None None ;;;
        add_column (str "y") (str "s") None None None) empty.

(** The store after [add_column(c, t, properties={'a': '1'})]. *)
Definition store_with_a : store :=
  exec (add_column (str "c") (str "t") None
                   (Some [(str "a", str "1")]) None) empty.

(** The store after loading the DDL of a table [db.t] and a view [v]. *)
Definition store_after_ddl : store :=
  exec (perform (OpLoadSql (str
    "CREATE TABLE db.t (id INT, name TEXT); CREATE VIEW v AS SELECT a.x AS foo FROM a")))
    empty.

(* ================================================================== *)
(** * Properties *)
(* ================================================================== *)

Unset Implicit Arguments.

(** ** Text and dictionaries *)

Section TextFacts.

Lemma chr_eqb_eq (a b : ascii) : chr_eqb a b = true <-> a = b.
Proof. apply Ascii.eqb_eq. Qed.

Lemma chr_eqb_refl (a : ascii) : chr_eqb a a = true.
Proof. apply Ascii.eqb_refl. Qed.

Lemma chr_eqb_neq (a b : ascii) : chr_eqb a b = false <-> a <> b.
Proof. apply Ascii.eqb_neq. Qed.

Lemma text_eqb_eq (a b : text) : text_eqb a b = true <-> a = b.
Proof.
  revert b; induction a as [|x a IH]; intros [|y b]; simpl;
    try (split; [discriminate | discriminate]); try tauto.
  rewrite andb_true_iff, chr_eqb_eq, IH.
  split; [intros [-> ->]; reflexivity | intros H; inversion H; auto].
Qed.

Lemma text_eqb_refl (a : text) : text_eqb a a = true.
Proof. apply text_eqb_eq; reflexivity. Qed.

Lemma text_eqb_neq (a b : text) : text_eqb a b = false <-> a <> b.
Proof.
  rewrite <- text_eqb_eq. destruct (text_eqb a b); split; congruence.
Qed.

Lemma text_eqb_sym (a b : text) : text_eqb a b = text_eqb b a.
Proof.
  destruct (text_eqb a b) eqn:E.
  - apply text_eqb_eq in E; subst; symmetry; apply text_eqb_refl.
  - apply text_eqb_neq in E; symmetry; apply text_eqb_neq; congruence.
Qed.

End TextFacts.

(** ** The matcher *)

Section EngineFacts.

Lemma part_of_refl (s : text) : part_of s s.
Proof. exists [], []; rewrite app_nil_r; reflexivity. Qed.

Lemma part_of_prefix (n : nat) (s : text) : part_of (firstn n s) s.
Proof. exists [], (skipn n s); simpl; symmetry; apply firstn_skipn. Qed.

Lemma part_of_suffix (x a s : text) : part_of x s -> part_of x (a ++ s).
Proof.
  intros [u [v E]]; exists (a ++ u), v; rewrite E, <- app_assoc; reflexivity.
Qed.

Lemma part_of_trans (x y z : text) : part_of x y -> part_of y z -> part_of x z.
Proof.
  intros [a [b E1]] [u [v E2]]; exists (u ++ a), (b ++ v).
  rewrite E2, E1, <- !app_assoc; reflexivity.
Qed.

Lemma within_refl (st : mstate) : within st st.
Proof. split; [exists []; reflexivity | auto]. Qed.

Lemma within_trans (st1 st2 st3 : mstate) :
  within st1 st2 -> within st2 st3 -> within st1 st3.
Proof.
  intros [[a E1] C1] [[b E2] C2]; split.
  - exists (a ++ b); rewrite E1, E2, app_assoc; reflexivity.
  - intros i x H; destruct (C2 i x H) as [H'|H']; [auto|].
    right; rewrite E1; apply part_of_suffix, H'.
Qed.

Lemma star_loop_within
      (body : (mstate -> option mstate) -> mstate -> option mstate)
      (greedy : bool) (k : mstate -> option mstate) :
  (forall k' st m, body k' st = Some m ->
                   exists st', within st st' /\ k' st' = Some m) ->
  forall (n : nat) (st m : mstate),
    star_loop body greedy k n st = Some m ->
    exists st', within st st' /\ k st' = Some m.
Proof.
  intros B; induction n as [|n IH]; intros st m H; simpl in H.
  - exists st; split; [apply within_refl | exact H].
  - assert (Again : forall m0,
               body (fun st' =>
                       if length (rest st') <? length (rest st)
                       then star_loop body greedy k n st' else None) st
                 = Some m0 ->
               exists st', within st st' /\ k st' = Some m0).
    { intros m0 E. destruct (B _ _ _ E) as [st1 [W1 H1]].
      destruct (length (rest st1) <? length (rest st)); [|discriminate].
      destruct (IH st1 m0 H1) as [st2 [W2 H2]].
      exists st2; split; [apply (within_trans st st1 st2 W1 W2) | exact H2]. }
    destruct greedy.
    + destruct (body _ st) eqn:E in H.
      * inversion H; subst; apply Again, E.
      * exists st; split; [apply within_refl | exact H].
    + destruct (k st) eqn:E.
      * inversion H; subst; exists st; split;
          [apply within_refl | exact E].
      * apply Again, H.
Qed.

(** Whatever a pattern matches, the continuation is entered at a later
    position of the same subject, and what the groups hold was read from
    the subject. *)
Lemma run_within (r : regex) :
  forall (k : mstate -> option mstate) (st m : mstate),
    run r k st = Some m -> exists st', within st st' /\ k st' = Some m.
Proof.
  induction r as [|f|a IHa b IHb|a IHa b IHb|greedy a IHa|i a IHa| | |];
    intros k st m H; simpl in H.
  - exists st; split; [apply within_refl | exact H].
  - destruct st as [p s cs]; simpl in H.
    destruct s as [|c s']; [discriminate|].
    destruct (f c); [|discriminate].
    exists (MState (Some c) s' cs); split; [|exact H].
    split; [exists [c]; reflexivity | auto].
  - destruct (IHa _ _ _ H) as [st1 [W1 H1]].
    destruct (IHb _ _ _ H1) as [st2 [W2 H2]].
    exists st2; split; [apply (within_trans st st1 st2 W1 W2) | exact H2].
  - destruct (run a k st) eqn:E.
    + inversion H; subst; apply (IHa _ _ _ E).
    + apply (IHb _ _ _ H).
  - apply (star_loop_within (run a) greedy k IHa _ _ _ H).
  - destruct (IHa _ _ _ H) as [st1 [[[u Eu] C1] H1]].
    eexists; split; [|exact H1]. split; simpl.
    + exists u; exact Eu.
    + intros j x [Hx|Hx].
      * inversion Hx; subst; right; apply part_of_prefix.
      * apply C1, Hx.
  - destruct (prev st); [discriminate|].
    exists st; split; [apply within_refl | exact H].
  - destruct (at_eol multiline (rest st)); [|discriminate].
    exists st; split; [apply within_refl | exact H].
  - destruct (xorb _ _); [|discriminate].
    exists st; split; [apply within_refl | exact H].
Qed.

Lemma match_at_groups (r : regex) (p : option ascii) (s : text) (m : mstate) :
  match_at r p s = Some m ->
  forall i x, In (i, x) (caps m) -> part_of x s.
Proof.
  intros H i x Hx; unfold match_at in H.
  destruct (run_within r _ _ _ H) as [st' [[_ C] E]].
  inversion E; subst st'.
  destruct (C i x Hx) as [[]|P]; exact P.
Qed.

Lemma search_from_sound (r : regex) (s : text) :
  forall (p : option ascii) (m : mstate),
    search_from r p s = Some m ->
    exists s1 s2 p', s = s1 ++ s2 /\ match_at r p' s2 = Some m.
Proof.
  induction s as [|c s IH]; intros p m H; simpl in H.
  - destruct (match_at r p []) eqn:E; [|discriminate].
    inversion H; subst; exists [], [], p; auto.
  - destruct (match_at r p (c :: s)) eqn:E.
    + inversion H; subst; exists [], (c :: s), p; auto.
    + destruct (IH _ _ H) as [s1 [s2 [p' [E1 E2]]]].
      exists (c :: s1), s2, p'; subst s; auto.
Qed.

Lemma search_from_complete (r : regex) (s1 s2 : text) :
  (forall p, match_at r p s2 <> None) ->
  forall p, search_from r p (s1 ++ s2) <> None.
Proof.
  intros H; induction s1 as [|c s1 IH]; intros p.
  - simpl. destruct s2 as [|c s2]; simpl.
    + destruct (match_at r p []) eqn:E;
        [discriminate | exfalso; exact (H p E)].
    + destruct (match_at r p (c :: s2)) eqn:E;
        [discriminate | exfalso; exact (H p E)].
  - simpl. destruct (match_at r p (c :: s1 ++ s2)); [discriminate|].
    apply IH.
Qed.

(** What a search captured was read from the subject. *)
Lemma search_groups (r : regex) (s : text) (m : mstate) :
  re_search r s = Some m ->
  forall i x, In (i, x) (caps m) -> part_of x s.
Proof.
  intros H i x Hx.
  destruct (search_from_sound r s None m H) as [s1 [s2 [p' [E M]]]].
  subst s; apply part_of_suffix, (match_at_groups r p' s2 m M i x Hx).
Qed.

Lemma lookup_group_in (i : nat) (l : list (nat * text)) :
  lookup_group i l = [] \/ In (i, lookup_group i l) l.
Proof.
  induction l as [|[j x] l IH]; simpl; [auto|].
  destruct (Nat.eqb i j) eqn:E.
  - apply Nat.eqb_eq in E; subst; auto.
  - destruct IH; auto.
Qed.

Lemma group_part (r : regex) (s : text) (m : mstate) (i : nat) :
  re_search r s = Some m -> group i m = [] \/ part_of (group i m) s.
Proof.
  intros H; unfold group.
  destruct (lookup_group_in i (caps m)) as [E|E]; [auto|].
  right; apply (search_groups r s m H i _ E).
Qed.

(** *** A greedy run of one class *)

Lemma star_loop_class
      (body : (mstate -> option mstate) -> mstate -> option mstate)
      (f : ascii -> bool) (k : mstate -> option mstate)
      (cs : list (nat * text)) (s : text) :
  (forall k' p s, body k' (MState p s cs)
                  = match s with
                    | c :: s' => if f c then k' (MState (Some c) s' cs)
                                 else None
                    | [] => None
                    end) ->
  forall (n : nat) (p : option ascii),
    length s <= n ->
    star_loop body true k n (MState p s cs) = greedy_class f k p s cs.
Proof.
  intros B; induction s as [|c s IH]; intros n p L.
  - destruct n; cbn [star_loop greedy_class]; [reflexivity|].
    rewrite B; reflexivity.
  - destruct n as [|n]; [simpl in L; lia|].
    cbn [star_loop greedy_class]; rewrite B.
    destruct (f c); [|reflexivity].
    cbn [rest].
    replace (length s <? length (c :: s)) with true
      by (symmetry; apply Nat.ltb_lt; simpl; lia).
    rewrite (IH n (Some c)) by (simpl in L; lia).
    reflexivity.
Qed.

Lemma run_star_class (f : ascii -> bool) (k : mstate -> option mstate)
      (s : text) (p : option ascii) (cs : list (nat * text)) :
  run (Star true (Chr f)) k (MState p s cs) = greedy_class f k p s cs.
Proof.
  apply (star_loop_class (run (Chr f)) f k cs s); [reflexivity|].
  apply Nat.le_refl.
Qed.

Lemma greedy_class_sound (f : ascii -> bool) (k : mstate -> option mstate)
      (cs : list (nat * text)) (s : text) :
  forall (p : option ascii) (m : mstate),
    greedy_class f k p s cs = Some m ->
    exists g r p', s = g ++ r /\ forallb f g = true /\
                   k (MState p' r cs) = Some m.
Proof.
  induction s as [|c s IH]; intros p m H; simpl in H.
  - exists [], [], p; auto.
  - destruct (f c) eqn:F; [|exists [], (c :: s), p; auto].
    destruct (greedy_class f k (Some c) s cs) eqn:E.
    + inversion H; subst.
      destruct (IH _ _ E) as [g [r [p' [E1 [E2 E3]]]]].
      exists (c :: g), r, p'; simpl; rewrite F, E2; subst s; auto.
    + exists [], (c :: s), p; auto.
Qed.

Lemma greedy_class_total (f : ascii -> bool) (k : mstate -> option mstate)
      (cs : list (nat * text)) (s : text) :
  (forall st, k st <> None) ->
  forall p, greedy_class f k p s cs <> None.
Proof.
  intros K; induction s as [|c s IH]; intros p; simpl; [apply K|].
  destruct (f c); [|apply K].
  destruct (greedy_class f k (Some c) s cs) eqn:E; [discriminate|].
  exfalso; exact (IH _ E).
Qed.

(** A run of the class that ends before [r] reaches the continuation at
    [r], if nothing longer succeeds. *)
Lemma greedy_class_reaches (f : ascii -> bool) (k : mstate -> option mstate)
      (cs : list (nat * text)) (g r : text) :
  forallb f g = true ->
  (forall p, k (MState p r cs) <> None) ->
  forall p, greedy_class f k p (g ++ r) cs <> None.
Proof.
  intros F K; induction g as [|c g IH]; intros p.
  - simpl. destruct r as [|c r]; simpl; [apply K|].
    destruct (f c); [|apply K].
    destruct (greedy_class f k (Some c) r cs); [discriminate | apply K].
  - simpl in F; apply andb_true_iff in F; destruct F as [Fc Fg].
    simpl; rewrite Fc.
    destruct (greedy_class f k (Some c) (g ++ r) cs) eqn:E; [discriminate|].
    exfalso; exact (IH Fg _ E).
Qed.

(** *** The pattern [([a-zA-Z0-9_]+)\.([a-zA-Z0-9_]+)] *)

Lemma qualified_column_eq :
  qualified_column
  = Seq (Group 1 (Seq (Chr is_ident) (Star true (Chr is_ident))))
        (Seq (Chr (chr_eqb "."%char))
             (Group 2 (Seq (Chr is_ident) (Star true (Chr is_ident))))).
Proof. reflexivity. Qed.

Lemma run_seq (a b : regex) (k : mstate -> option mstate) (st : mstate) :
  run (Seq a b) k st = run a (run b k) st.
Proof. reflexivity. Qed.

Lemma run_chr (f : ascii -> bool) (k : mstate -> option mstate)
      (p : option ascii) (s : text) (cs : list (nat * text)) :
  run (Chr f) k (MState p s cs)
  = match s with
    | c :: s' => if f c then k (MState (Some c) s' cs) else None
    | [] => None
    end.
Proof. reflexivity. Qed.

Lemma run_group (i : nat) (a : regex) (k : mstate -> option mstate)
      (st : mstate) :
  run (Group i a) k st
  = run a (fun st' =>
             k (MState (prev st') (rest st')
                       ((i, firstn (length (rest st) - length (rest st'))
                                   (rest st)) :: caps st'))) st.
Proof. reflexivity. Qed.

(** One or more identifier characters, then the continuation. *)
Lemma run_ident1_sound (k : mstate -> option mstate) (p : option ascii)
      (s : text) (cs : list (nat * text)) (m : mstate) :
  run (Seq (Chr is_ident) (Star true (Chr is_ident))) k (MState p s cs)
    = Some m ->
  exists c g r p', s = c :: g ++ r /\ is_ident c = true /\
                   forallb is_ident g = true /\
                   k (MState p' r cs) = Some m.
Proof.
  rewrite run_seq, run_chr. destruct s as [|c s]; [discriminate|].
  destruct (is_ident c) eqn:C; [|discriminate].
  rewrite run_star_class; intros H.
  destruct (greedy_class_sound _ _ _ _ _ _ H) as [g [r [p' [E [F K]]]]].
  exists c, g, r, p'; subst s; auto.
Qed.

Lemma run_ident1_reaches (k : mstate -> option mstate) (p : option ascii)
      (c : ascii) (g r : text) (cs : list (nat * text)) :
  is_ident c = true -> forallb is_ident g = true ->
  (forall p', k (MState p' r cs) <> None) ->
  run (Seq (Chr is_ident) (Star true (Chr is_ident))) k
      (MState p (c :: g ++ r) cs) <> None.
Proof.
  intros C F K; rewrite run_seq, run_chr, C, run_star_class.
  apply greedy_class_reaches; assumption.
Qed.

Lemma match_qualified_sound (p : option ascii) (s : text) (m : mstate) :
  match_at qualified_column p s = Some m -> qualified_here s.
Proof.
  unfold match_at; rewrite qualified_column_eq, run_seq, run_group.
  intros H.
  destruct (run_ident1_sound _ _ _ _ _ H) as [c1 [g1 [r [p' [E [C1 [F1 K]]]]]]].
  cbn [prev rest caps] in K. rewrite run_seq, run_chr in K.
  destruct r as [|d r]; [discriminate|].
  destruct (chr_eqb "." d) eqn:D; [|discriminate].
  apply chr_eqb_eq in D; subst d.
  rewrite run_group in K.
  destruct (run_ident1_sound _ _ _ _ _ K) as [c2 [g2 [r2 [p2 [E2 [C2 _]]]]]].
  simpl in E2.
  exists c1, g1, c2, (g2 ++ r2); subst s r; auto.
Qed.

Lemma match_qualified_complete (p : option ascii) (s : text) :
  qualified_here s -> match_at qualified_column p s <> None.
Proof.
  intros [c1 [g1 [c2 [r [E [C1 [F1 C2]]]]]]]; subst s.
  unfold match_at; rewrite qualified_column_eq, run_seq, run_group.
  apply run_ident1_reaches; [assumption | assumption |].
  intros p'; cbn [prev rest caps].
  rewrite run_seq, run_chr, chr_eqb_refl, run_group.
  rewrite run_seq, run_chr, C2, run_star_class.
  apply greedy_class_total; intros st; discriminate.
Qed.

Lemma qualified_here_app (s b : text) :
  qualified_here s -> qualified_here (s ++ b).
Proof.
  intros [c1 [g1 [c2 [r [E H]]]]]; exists c1, g1, c2, (r ++ b).
  split; [|exact H]. subst s; simpl; rewrite <- app_assoc; reflexivity.
Qed.

(** A qualified reference inside a part of the text is found in the
    text. *)
Lemma qualified_in_part (x e : text) :
  part_of x e ->
  re_search qualified_column x <> None ->
  re_search qualified_column e <> None.
Proof.
  intros [a [b E]] H.
  destruct (re_search qualified_column x) as [m|] eqn:S; [|congruence].
  destruct (search_from_sound _ _ _ _ S) as [s1 [s2 [p' [E1 M]]]].
  pose proof (match_qualified_sound p' s2 m M) as Q.
  unfold re_search.
  replace e with ((a ++ s1) ++ (s2 ++ b))
    by (subst e x; rewrite <- !app_assoc; reflexivity).
  apply search_from_complete; intros p.
  apply match_qualified_complete, qualified_here_app, Q.
Qed.

(** The arguments of a call found in [e] hold a qualified reference only
    if [e] does. *)
Lemma call_argument_shadowed (e : text) (func_col_match arg_col_match : mstate) :
  re_search function_call e = Some func_col_match ->
  re_search qualified_column (group 2 func_col_match) = Some arg_col_match ->
  exists simple_col_match,
    re_search qualified_column e = Some simple_col_match.
Proof.
  intros F A.
  assert (N : re_search qualified_column e <> None).
  { destruct (group_part function_call e func_col_match 2 F) as [G|G].
    - rewrite G in A; vm_compute in A; discriminate.
    - apply (qualified_in_part _ e G); congruence. }
  destruct (re_search qualified_column e) as [m|]; [eauto | congruence].
Qed.

End EngineFacts.

(** ** The resolver and the derived names (analyzer.py) *)

Section ResolverFacts.

Variable ms : store.
Variable source_tables : list text.

(** C1.  The resolver looks for a qualified reference anywhere in the
    expression before it looks for a function call.  So whenever the
    function pattern matches an expression and the arguments it captures
    hold a qualified reference, the first test has already matched and
    the bare [table.column] it found is returned: the branch that builds
    [column (in func)] is never taken.  For [SUM(o.amount)] the result is
    [o.amount], not [o.amount (in SUM)], whatever the metadata store and
    the source tables. *)
Theorem extract_column_source_drops_function :
  (forall (column_expr : text) (func_col_match arg_col_match : mstate),
      re_search function_call column_expr = Some func_col_match ->
      re_search qualified_column (group 2 func_col_match)
        = Some arg_col_match ->
      exists simple_col_match,
        re_search qualified_column column_expr = Some simple_col_match /\
        _extract_column_source ms column_expr source_tables
          = group 1 simple_col_match ++ str "." ++ group 2 simple_col_match)
  /\ _extract_column_source ms (str "SUM(o.amount)") source_tables
     = str "o.amount"
  /\ _extract_column_source ms (str "SUM(o.amount)") source_tables
     <> str "o.amount (in SUM)".
Proof.
  split.
  { intros e fm am F A.
    destruct (call_argument_shadowed e fm am F A) as [m E].
    exists m; split; [exact E|].
    unfold _extract_column_source; rewrite E; reflexivity. }
  assert (E : _extract_column_source ms (str "SUM(o.amount)") source_tables
              = str "o.amount") by (vm_compute; reflexivity).
  split; [exact E | rewrite E; vm_compute; discriminate].
Qed.

(** A call without a qualified argument does reach the function
    branch. *)
Example extract_column_source_plain_call :
  _extract_column_source ms (str "COUNT(x)") source_tables
    = str "Function: COUNT(x)".
Proof. vm_compute; reflexivity. Qed.

(** C2.  [_derive_column_name] tests for a qualified reference anywhere
    in the expression first.  So whenever an expression holds a call
    whose arguments hold a qualified reference, the derived name is the
    column of the first qualified reference in the expression, not
    [func_result]: the unaliased [SUM(o.amount)] gets the name [amount],
    and a view selecting it maps [v.amount]. *)
Theorem derive_column_name_prefers_argument :
  (forall (expr : text) (func_col_match arg_col_match : mstate),
      re_search function_call expr = Some func_col_match ->
      re_search qualified_column (group 2 func_col_match)
        = Some arg_col_match ->
      exists simple_col_match,
        re_search qualified_column expr = Some simple_col_match /\
        Analyzer._derive_column_name expr = group 2 simple_col_match)
  /\ Analyzer._derive_column_name (str "SUM(o.amount)") = str "amount"
  /\ Analyzer._derive_column_name (str "SUM(o.amount)") <> str "SUM_result"
  /\ analyze_sql ms (str "CREATE VIEW v AS SELECT SUM(o.amount) FROM orders o")
     = [(str "v.amount", [str "o.amount"])].
Proof.
  split.
  { intros e fm am F A.
    destruct (call_argument_shadowed e fm am F A) as [m E].
    exists m; split; [exact E|].
    unfold Analyzer._derive_column_name; rewrite E; reflexivity. }
  assert (E : Analyzer._derive_column_name (str "SUM(o.amount)")
              = str "amount") by (vm_compute; reflexivity).
  split; [exact E | split].
  - rewrite E; vm_compute; discriminate.
  - vm_compute; reflexivity.
Qed.

(** Without a qualified argument the name is [func_result]. *)
Example derive_column_name_plain_call :
  Analyzer._derive_column_name (str "COUNT(x)") = str "COUNT_result"
  /\ Analyzer._derive_column_name (str "NOW()") = str "NOW_result".
Proof. split; vm_compute; reflexivity. Qed.

Example analyze_aliased_view :
  analyze_sql ms (str "CREATE VIEW v AS SELECT a.x AS foo FROM a")
    = [(str "v.foo", [str "a.x"])].
Proof. vm_compute; reflexivity. Qed.

End ResolverFacts.

Section ResolverWitnesses.

(** The general part of C1 at [MAX(t.price)]. *)
Lemma extract_column_source_drops_function_witness :
  exists simple_col_match,
    re_search qualified_column (str "MAX(t.price)") = Some simple_col_match /\
    _extract_column_source empty (str "MAX(t.price)") []
      = group 1 simple_col_match ++ str "." ++ group 2 simple_col_match.
Proof.
  destruct (extract_column_source_drops_function empty []) as [H _].
  destruct (re_search function_call (str "MAX(t.price)")) as [fm|] eqn:F;
    [|vm_compute in F; discriminate].
  destruct (re_search qualified_column (group 2 fm)) as [am|] eqn:A.
  - exact (H (str "MAX(t.price)") fm am F A).
  - vm_compute in F; inversion F; subst fm.
    vm_compute in A; discriminate.
Defined.

(** The general part of C2 at [MAX(t.price)]. *)
Lemma derive_column_name_prefers_argument_witness :
  exists simple_col_match,
    re_search qualified_column (str "MAX(t.price)") = Some simple_col_match /\
    Analyzer._derive_column_name (str "MAX(t.price)")
      = group 2 simple_col_match.
Proof.
  destruct (derive_column_name_prefers_argument empty) as [H _].
  destruct (re_search function_call (str "MAX(t.price)")) as [fm|] eqn:F;
    [|vm_compute in F; discriminate].
  destruct (re_search qualified_column (group 2 fm)) as [am|] eqn:A.
  - exact (H (str "MAX(t.price)") fm am F A).
  - vm_compute in F; inversion F; subst fm.
    vm_compute in A; discriminate.
Defined.

End ResolverWitnesses.


(** ** The statement splitter (extractor.py) *)

Section StripFacts.

Lemma lstrip_decomp (s : text) :
  exists ws, s = ws ++ lstrip s /\ forallb is_space ws = true.
Proof.
  induction s as [|c s [ws [E W]]]; simpl.
  - exists []; auto.
  - destruct (is_space c) eqn:C.
    + exists (c :: ws); split.
      * simpl; f_equal; exact E.
      * simpl; rewrite C; exact W.
    + exists []; auto.
Qed.

Lemma lstrip_head (s r : text) (c : ascii) :
  lstrip s = c :: r -> is_space c = false.
Proof.
  induction s as [|x s IH]; simpl; [discriminate|].
  destruct (is_space x) eqn:X; [exact IH|].
  intros H; inversion H; subst; exact X.
Qed.

Lemma lstrip_fixed (c : ascii) (r : text) :
  is_space c = false -> lstrip (c :: r) = c :: r.
Proof. intros H; simpl; rewrite H; reflexivity. Qed.

Lemma lstrip_spaces (s : text) :
  forallb is_space s = true -> lstrip s = [].
Proof.
  induction s as [|c s IH]; simpl; [reflexivity|].
  rewrite andb_true_iff; intros [-> H]; auto.
Qed.

Lemma lstrip_idem (s : text) : lstrip (lstrip s) = lstrip s.
Proof.
  destruct (lstrip s) as [|c r] eqn:E; [reflexivity|].
  apply lstrip_fixed, (lstrip_head s r c E).
Qed.

Lemma rstrip_decomp (s : text) :
  exists ws, s = rstrip s ++ ws /\ forallb is_space ws = true.
Proof.
  unfold rstrip. destruct (lstrip_decomp (rev s)) as [ws [E W]].
  exists (rev ws); split.
  - rewrite <- rev_app_distr, <- E, rev_involutive; reflexivity.
  - rewrite forallb_forall in *; intros x Hx; apply W, in_rev, Hx.
Qed.

Lemma rstrip_idem (s : text) : rstrip (rstrip s) = rstrip s.
Proof.
  unfold rstrip; rewrite rev_involutive, lstrip_idem; reflexivity.
Qed.

(** The head of a text survives [rstrip] when it is not a space. *)
Lemma rstrip_cons (c : ascii) (r : text) :
  is_space c = false -> exists r', rstrip (c :: r) = c :: r'.
Proof.
  intros C. destruct (rstrip_decomp (c :: r)) as [ws [E W]].
  destruct (rstrip (c :: r)) as [|x r'] eqn:R.
  - simpl in E; subst ws; simpl in W; rewrite C in W; discriminate.
  - inversion E; subst; eauto.
Qed.

Lemma strip_idem (s : text) : strip (strip s) = strip s.
Proof.
  unfold strip.
  destruct (lstrip s) as [|c r] eqn:L; [reflexivity|].
  pose proof (lstrip_head s r c L) as C.
  destruct (rstrip_cons c r C) as [r' R].
  rewrite R, (lstrip_fixed c r' C), <- R.
  apply rstrip_idem.
Qed.

Lemma strip_spaces (s : text) : forallb is_space s = true -> strip s = [].
Proof. intros H; unfold strip; rewrite (lstrip_spaces s H); reflexivity. Qed.

End StripFacts.

(** ** Query types and procedure parameters (extractor.py) *)

Section ScannerFacts.

Lemma rstrip_keeps_prefix (a : text) (c : ascii) (r : text) :
  is_space c = false -> exists r', rstrip (a ++ c :: r) = a ++ c :: r'.
Proof.
  intros C. destruct (rstrip_decomp (a ++ c :: r)) as [ws [E W]].
  apply app_eq_app in E. destruct E as [l [[E1 E2]|[E1 E2]]].
  - exfalso. rewrite forallb_forall in W.
    assert (In c ws) by (rewrite E2; apply in_or_app; right; left; auto).
    rewrite (W c H) in C; discriminate.
  - destruct l as [|x l].
    + exfalso; simpl in E2; subst ws; simpl in W; rewrite C in W.
      discriminate.
    + assert (x = c) by (inversion E2; reflexivity); subst x.
      exists l; exact E1.
Qed.

(** C8.  [extract_query_type] compares the upper-cased statement with
    fixed prefixes only and skips no modifier: every statement that
    starts with [CREATE OR REPLACE] matches none of the prefixes and is
    [UNKNOWN], among them the view, table and procedure forms below. *)
Theorem extract_query_type_or_replace_unknown :
  (forall tail : text,
      extract_query_type (str "CREATE OR REPLACE" ++ tail) = str "UNKNOWN")
  /\ extract_query_type (str "CREATE OR REPLACE VIEW v AS SELECT a FROM t")
    = str "UNKNOWN"
  /\ extract_query_type (str "CREATE OR REPLACE TEMP TABLE t AS SELECT a FROM s")
    = str "UNKNOWN"
  /\ extract_query_type (str "CREATE OR REPLACE PROCEDURE p(IN a INT)")
    = str "UNKNOWN".
Proof.
  split; [|repeat split; vm_compute; reflexivity].
  intros tail; unfold extract_query_type, strip.
  change (str "CREATE OR REPLACE" ++ tail)
    with ("C"%char :: (str "REATE OR REPLAC" ++ "E"%char :: tail)).
  rewrite (lstrip_fixed "C"%char _ eq_refl).
  destruct (rstrip_keeps_prefix (str "CREATE OR REPLAC") "E"%char tail eq_refl)
    as [r' R].
  change ("C"%char :: (str "REATE OR REPLAC" ++ "E"%char :: tail))
    with (str "CREATE OR REPLAC" ++ "E"%char :: tail).
  rewrite R. vm_compute. reflexivity.
Qed.

Example extract_query_type_plain :
  extract_query_type (str "  create view v AS SELECT a FROM t")
    = str "CREATE VIEW"
  /\ extract_query_type (str "Create Table t (a INT)") = str "CREATE TABLE"
  /\ extract_query_type (str "create function f()") = str "CREATE PROCEDURE"
  /\ extract_query_type (str "CREATE TEMP TABLE t (a INT)") = str "UNKNOWN".
Proof. repeat split; vm_compute; reflexivity. Qed.

(** [split(',')] cuts at the first comma whatever stands around it. *)
Lemma split_chr_at_separator (sep : ascii) (a b : text) :
  ~ In sep a -> split_chr sep (a ++ sep :: b) = a :: split_chr sep b.
Proof.
  induction a as [|c a IH]; intros N; simpl.
  - rewrite chr_eqb_refl; reflexivity.
  - replace (chr_eqb c sep) with false
      by (symmetry; apply chr_eqb_neq; intros ->; apply N; left; reflexivity).
    rewrite IH by (intros H; apply N; right; exact H); reflexivity.
Qed.

(** C9.  The parameter list is the text up to the first [)] and is cut
    at every comma, with no count of open parentheses: a piece [a]
    followed by a comma is always split off.  [IN price DECIMAL(10,2)]
    comes out as the two input parameters [IN price DECIMAL(10] and [2].
    On parameters without nested parentheses, [INOUT] goes to both lists
    and a parameter without keyword to the input list. *)
Theorem extract_stored_procedure_params_splits_type :
  (forall a b : text,
      ~ In ","%char a ->
      split_chr ","%char (a ++ ","%char :: b) = a :: split_chr ","%char b)
  /\ split_chr ","%char (str "IN price DECIMAL(10,2")
     = [str "IN price DECIMAL(10"; str "2"]
  /\ extract_stored_procedure_params
       (str "CREATE PROCEDURE p(IN price DECIMAL(10,2))")
     = ([str "IN price DECIMAL(10"; str "2"], [])
  /\ extract_stored_procedure_params
       (str "CREATE PROCEDURE p(INOUT a INT, c INT)")
     = ([str "INOUT a INT"; str "c INT"], [str "INOUT a INT"]).
Proof.
  split; [exact (split_chr_at_separator ","%char)|].
  split; [|split]; vm_compute; reflexivity.
Qed.

(** The direction keywords, on parameters without nested
    parentheses. *)
Example extract_stored_procedure_params_directions :
  extract_stored_procedure_params
    (str "CREATE PROCEDURE p(INOUT a INT, OUT b INT, c INT)")
    = ([str "INOUT a INT"; str "c INT"], [str "INOUT a INT"; str "OUT b INT"]).
Proof. vm_compute; reflexivity. Qed.

End ScannerFacts.

Section SplitterFacts.

Lemma append_stripped_trimmed (l : list text) (s : text) :
  Forall trimmed l -> Forall trimmed (append_stripped l s).
Proof.
  intros H; unfold append_stripped.
  destruct (strip s) as [|c r] eqn:E; simpl; [exact H|].
  apply Forall_app; split; [exact H|].
  constructor; [|constructor].
  split; [rewrite <- E; apply strip_idem | discriminate].
Qed.

Lemma step_trimmed (st : splitter) (char : ascii) :
  Forall trimmed (statements st) -> Forall trimmed (statements (step st char)).
Proof.
  intros H; unfold step.
  destruct (is_quote char && _); simpl; [exact H|].
  destruct (chr_eqb char semicolon && _); simpl; [|exact H].
  apply append_stripped_trimmed, H.
Qed.

Lemma scan_trimmed (content : text) (st : splitter) :
  Forall trimmed (statements st) ->
  Forall trimmed (statements (scan st content)).
Proof.
  revert st; induction content as [|c content IH]; intros st H; simpl.
  - exact H.
  - apply IH, step_trimmed, H.
Qed.

Lemma scan_app (a b : text) (st : splitter) :
  scan st (a ++ b) = scan (scan st a) b.
Proof. apply fold_left_app. Qed.

Lemma step_inside (l : list text) (cur : text) (q c : ascii) :
  chr_eqb q c = false ->
  step (Splitter l cur true (Some q)) c
    = Splitter l (cur ++ [c]) true (Some q).
Proof.
  intros Q; unfold step; simpl.
  rewrite Q, !andb_false_r; reflexivity.
Qed.

Lemma step_open (l : list text) (cur : text) (qc : option ascii)
      (q : ascii) :
  is_quote q = true ->
  step (Splitter l cur false qc) q = Splitter l (cur ++ [q]) true (Some q).
Proof. intros Q; unfold step; simpl; rewrite Q; reflexivity. Qed.

Lemma step_close (l : list text) (cur : text) (q : ascii) :
  is_quote q = true ->
  step (Splitter l cur true (Some q)) q = Splitter l (cur ++ [q]) false None.
Proof.
  intros Q; unfold step; simpl; rewrite Q, chr_eqb_refl; reflexivity.
Qed.

Lemma step_semicolon (l : list text) (cur : text) (qc : option ascii) :
  step (Splitter l cur false qc) semicolon
    = Splitter (append_stripped l cur) [] false qc.
Proof. reflexivity. Qed.

(** Inside a literal opened by [q], characters other than [q] are
    appended, semicolons included. *)
Lemma scan_inside (q : ascii) (body : text) :
  ~ In q body ->
  forall (l : list text) (cur : text),
    scan (Splitter l cur true (Some q)) body
      = Splitter l (cur ++ body) true (Some q).
Proof.
  induction body as [|c body IH]; intros N l cur; simpl.
  - rewrite app_nil_r; reflexivity.
  - assert (Q : chr_eqb q c = false)
      by (apply chr_eqb_neq; intros ->; apply N; left; reflexivity).
    rewrite (step_inside l cur q c Q).
    rewrite IH by (intros H; apply N; right; exact H).
    rewrite <- app_assoc; reflexivity.
Qed.

Lemma scan_literal (st : splitter) (q : ascii) (body : text) :
  in_quote st = false -> is_quote q = true -> ~ In q body ->
  scan st (q :: body ++ [q])
    = Splitter (statements st)
               (current_statement st ++ q :: body ++ [q]) false None.
Proof.
  intros O Q N. destruct st as [l cur iq qc]; simpl in *; subst iq.
  rewrite (step_open l cur qc q Q).
  rewrite scan_app, (scan_inside q body N); simpl.
  rewrite (step_close l _ q Q).
  rewrite <- !app_assoc; reflexivity.
Qed.

(** Without a semicolon nothing is emitted and every character is
    kept. *)
Lemma scan_no_semicolon (tail : text) :
  ~ In semicolon tail ->
  forall st,
    statements (scan st tail) = statements st /\
    current_statement (scan st tail) = current_statement st ++ tail.
Proof.
  induction tail as [|c tail IH]; intros N st; simpl.
  - rewrite app_nil_r; auto.
  - assert (Q : chr_eqb c semicolon = false)
      by (apply chr_eqb_neq; intros ->; apply N; left; reflexivity).
    destruct (IH (fun H => N (or_intror H)) (step st c)) as [E1 E2].
    rewrite E1, E2. unfold step; rewrite Q; simpl.
    destruct (is_quote c && _); simpl; rewrite <- app_assoc; auto.
Qed.

Lemma scan_trailing (s tail : text) :
  in_quote (scan start s) = false -> ~ In semicolon tail -> strip tail <> [] ->
  finish (scan start (s ++ semicolon :: tail))
    = finish (scan start s) ++ [strip tail].
Proof.
  intros O N T. rewrite scan_app; simpl.
  destruct (scan_no_semicolon tail N (step (scan start s) semicolon))
    as [E1 E2].
  unfold finish at 1; rewrite E1, E2.
  destruct (scan start s) as [l cur iq qc]; simpl in O; subst iq.
  rewrite step_semicolon; simpl.
  unfold finish; simpl. unfold append_stripped at 1.
  destruct (strip tail); [congruence | reflexivity].
Qed.

(** Comment removal leaves a text without [-] and [/] as it is. *)
Lemma sub_from_none (r : regex) (repl : text) (s : text) :
  (forall p c s', In c s -> match_at r p (c :: s') = None) ->
  forall p, sub_from r repl 0 p s = s.
Proof.
  induction s as [|c s IH]; intros H p; simpl; [reflexivity|].
  rewrite (H p c s (or_introl eq_refl)).
  f_equal; apply IH; intros; apply H; right; assumption.
Qed.

Lemma line_comment_needs_dash (p : option ascii) (c : ascii) (s : text) :
  c <> "-"%char -> match_at line_comment p (c :: s) = None.
Proof.
  intros N; unfold match_at, line_comment.
  cbn [seq lit str list_ascii_of_string fold_right run rest].
  replace (chr_eqb "-" c) with false; [reflexivity|].
  symmetry; apply chr_eqb_neq; congruence.
Qed.

Lemma block_comment_needs_slash (p : option ascii) (c : ascii) (s : text) :
  c <> "/"%char -> match_at block_comment p (c :: s) = None.
Proof.
  intros N; unfold match_at, block_comment.
  cbn [seq lit str list_ascii_of_string fold_right run rest].
  replace (chr_eqb "/" c) with false; [reflexivity|].
  symmetry; apply chr_eqb_neq; congruence.
Qed.

Lemma remove_comments_plain (s : text) :
  ~ In "-"%char s -> ~ In "/"%char s -> remove_comments s = s.
Proof.
  intros D S; unfold remove_comments, re_sub.
  rewrite (sub_from_none line_comment); [rewrite sub_from_none; auto|].
  - intros p c s' Hc; apply block_comment_needs_slash; congruence.
  - intros p c s' Hc; apply line_comment_needs_dash; congruence.
Qed.

Lemma space_not_in (c : ascii) (s : text) :
  is_space c = false -> forallb is_space s = true -> ~ In c s.
Proof.
  intros C W H; rewrite forallb_forall in W; rewrite (W _ H) in C.
  discriminate.
Qed.

Lemma blank_input_no_statements (s : text) :
  forallb is_space s = true -> extract_sql_statements s = [].
Proof.
  intros W; unfold extract_sql_statements.
  rewrite remove_comments_plain by (apply space_not_in; auto).
  assert (N : ~ In semicolon s) by (apply space_not_in; auto).
  destruct (scan_no_semicolon s N start) as [E1 E2].
  unfold finish, append_stripped; rewrite E1, E2; simpl.
  rewrite (strip_spaces s W); reflexivity.
Qed.

(** The loop of the splitter, which works on the text left by comment
    removal and tracks the open quote: a literal that opens outside a
    literal is
    appended whole to the current statement, its semicolons included,
    and no statement is emitted inside it; every statement returned is
    trimmed and non-empty; the text after the last separator is
    returned as the last statement when it is not blank; the statement
    [INSERT INTO t VALUES ('a;b');] comes back as one statement; blank
    input gives no statement. *)
Theorem extract_sql_statements_respects_literals :
  (forall (st : splitter) (q : ascii) (body : text),
      in_quote st = false -> is_quote q = true -> ~ In q body ->
      scan st (q :: body ++ [q])
        = Splitter (statements st)
                   (current_statement st ++ q :: body ++ [q]) false None)
  /\ (forall (s x : text),
         In x (extract_sql_statements s) -> strip x = x /\ x <> [])
  /\ (forall (s tail : text),
         in_quote (scan start s) = false ->
         ~ In semicolon tail -> strip tail <> [] ->
         finish (scan start (s ++ semicolon :: tail))
           = finish (scan start s) ++ [strip tail])
  /\ extract_sql_statements (str "INSERT INTO t VALUES ('a;b');")
       = [str "INSERT INTO t VALUES ('a;b')"]
  /\ (forall s : text,
         forallb is_space s = true -> extract_sql_statements s = []).
Proof.
  split; [exact scan_literal|].
  split.
  { intros s x Hx.
    assert (F : Forall trimmed (extract_sql_statements s)).
    { unfold extract_sql_statements, finish.
      apply append_stripped_trimmed, scan_trimmed; constructor. }
    rewrite Forall_forall in F; exact (F x Hx). }
  split; [exact scan_trailing|].
  split; [vm_compute; reflexivity | exact blank_input_no_statements].
Qed.

(** The five parts at concrete inputs: the literal ['x;y'] scanned after
    [a], the statements of a two-statement text, a tail without
    terminator, and a blank text. *)
Lemma extract_sql_statements_respects_literals_witness :
  scan (scan start (str "a")) (str "'x;y'")
    = Splitter [] (str "a'x;y'") false None
  /\ (strip (str "b") = str "b" /\ str "b" <> [])
  /\ finish (scan start (str "a" ++ semicolon :: str " b "))
     = finish (scan start (str "a")) ++ [strip (str " b ")]
  /\ extract_sql_statements (str "  ") = [].
Proof.
  destruct extract_sql_statements_respects_literals
    as [H1 [H2 [H3 [_ H5]]]].
  split; [|split; [|split]].
  - apply (H1 (scan start (str "a")) "'"%char (str "x;y")).
    + reflexivity.
    + reflexivity.
    + vm_compute; intuition discriminate.
  - apply (H2 (str "a; b")); vm_compute; auto.
  - apply (H3 (str "a") (str " b ")).
    + reflexivity.
    + vm_compute; intuition discriminate.
    + vm_compute; discriminate.
  - apply H5; reflexivity.
Defined.

(** C4.  Comments are removed before the literals are tracked, and
    the patterns that remove them do not know literals: a [--] inside
    a literal is taken for a comment and removed up to the end of the
    line, the closing quote with it.  In the two-line text
    [SELECT '--'] / [, 'a;b'] the quote left open is then closed by
    the one that opens ['a;b'], and the semicolon inside that literal
    separates: two statements are returned, the cut inside the
    literal.  With another literal in place of ['--'] the same text
    is one statement. *)
Theorem extract_sql_statements_splits_inside_literal :
  remove_comments (str "SELECT '--'" ++ [newline] ++ str ", 'a;b'")
    = str "SELECT ' " ++ [newline] ++ str ", 'a;b'"
  /\ extract_sql_statements
       (str "SELECT '--'" ++ [newline] ++ str ", 'a;b'")
     = [str "SELECT ' " ++ [newline] ++ str ", 'a"; str "b'"]
  /\ extract_sql_statements
       (str "SELECT 'xx'" ++ [newline] ++ str ", 'a;b'")
     = [str "SELECT 'xx'" ++ [newline] ++ str ", 'a;b'"].
Proof.
  repeat split; vm_compute; reflexivity.
Qed.

End SplitterFacts.

(** ** Dictionaries *)

Section DictFacts.

Context {V : Type}.

Lemma getitem_setitem_same (k : text) (v : V) (d : dict V) :
  getitem k (setitem k v d) = Some v.
Proof.
  induction d as [|[k' v'] d IH]; simpl.
  - rewrite text_eqb_refl; reflexivity.
  - destruct (text_eqb k k') eqn:E; simpl; rewrite E; auto.
Qed.

Lemma getitem_setitem_other (k k' : text) (v : V) (d : dict V) :
  k <> k' -> getitem k (setitem k' v d) = getitem k d.
Proof.
  intros N; induction d as [|[k0 v0] d IH]; simpl.
  - replace (text_eqb k k') with false; [reflexivity|].
    symmetry; apply text_eqb_neq; exact N.
  - destruct (text_eqb k' k0) eqn:E; simpl.
    + apply text_eqb_eq in E; subst k0.
      replace (text_eqb k k') with false; [reflexivity|].
      symmetry; apply text_eqb_neq; exact N.
    + rewrite IH; reflexivity.
Qed.

Lemma mem_true (k : text) (d : dict V) :
  mem k d = true <-> exists v, getitem k d = Some v.
Proof.
  unfold mem; destruct (getitem k d); split; eauto; try discriminate.
  intros [v H]; discriminate.
Qed.

Lemma getitem_in_keys (k : text) (d : dict V) (v : V) :
  getitem k d = Some v -> In k (keys d).
Proof.
  induction d as [|[k' v'] d IH]; simpl; [discriminate|].
  destruct (text_eqb k k') eqn:E.
  - apply text_eqb_eq in E; auto.
  - auto.
Qed.

Lemma getitem_fresh (k : text) (d : dict V) :
  ~ In k (keys d) -> getitem k d = None.
Proof.
  intros N; destruct (getitem k d) eqn:E; [|reflexivity].
  exfalso; exact (N (getitem_in_keys k d v E)).
Qed.

Lemma in_keys_getitem (k : text) (d : dict V) :
  In k (keys d) -> exists v, getitem k d = Some v.
Proof.
  induction d as [|[k' v'] d IH]; simpl; [tauto|].
  intros H; destruct (text_eqb k k') eqn:E; [eauto|].
  destruct H as [H|H]; [|auto].
  apply text_eqb_neq in E; congruence.
Qed.

End DictFacts.

(** ** INSERT ... SELECT: mapping by position (analyzer.py) *)

Section PositionFacts.

Variable ms : store.
Variable target_table : text.
Variable source_tables : list text.

Local Abbreviation write := (write ms target_table source_tables).

Lemma target_key_inj (a b : text) :
  target_key target_table a = target_key target_table b -> a = b.
Proof.
  unfold target_key; intros H.
  apply app_inv_head in H; apply app_inv_head in H; exact H.
Qed.

Lemma skipn_nth_some {A} (l : list A) (i : nat) (x : A) :
  nth_error l i = Some x -> skipn i l = x :: skipn (S i) l.
Proof.
  revert i; induction l as [|y l IH]; intros [|i]; simpl;
    try discriminate.
  - intros H; inversion H; reflexivity.
  - intros H; rewrite (IH i H); reflexivity.
Qed.

Lemma skipn_nth_none {A} (l : list A) (i : nat) :
  nth_error l i = None -> skipn i l = [].
Proof.
  intros H; apply skipn_all2, nth_error_None, H.
Qed.

(** The index loop writes exactly the pairs of the two lists, up to the
    end of the shorter one. *)
Lemma map_by_position_combine (tcols scols : list text) :
  forall (i : nat) (m : mapping),
    map_by_position ms target_table source_tables i tcols scols m
      = fold_left write (combine tcols (skipn i scols)) m.
Proof.
  induction tcols as [|t tcols IH]; intros i m; simpl; [reflexivity|].
  rewrite IH. destruct (nth_error scols i) as [s|] eqn:E.
  - rewrite (skipn_nth_some scols i s E); reflexivity.
  - rewrite (skipn_nth_none scols i E).
    rewrite (skipn_all2 scols) by (apply nth_error_None in E; lia).
    destruct tcols; reflexivity.
Qed.

Lemma fold_write_untouched (l : list (text * text)) (t : text) :
  (forall e, In e l -> fst e <> t) ->
  forall m, getitem (target_key target_table t) (fold_left write l m)
            = getitem (target_key target_table t) m.
Proof.
  induction l as [|e l IH]; intros N m; simpl; [reflexivity|].
  rewrite IH by (intros; apply N; right; assumption).
  unfold write; apply getitem_setitem_other.
  intros H; apply target_key_inj in H.
  apply (N e (or_introl eq_refl)); congruence.
Qed.

Lemma fold_write_last (l1 l2 : list (text * text)) (t s : text) :
  (forall e, In e l2 -> fst e <> t) ->
  forall m, getitem (target_key target_table t)
                    (fold_left write (l1 ++ (t, s) :: l2) m)
            = Some [_extract_column_source ms s source_tables].
Proof.
  intros N m; rewrite fold_left_app; simpl.
  rewrite (fold_write_untouched l2 t N).
  unfold write; simpl; apply getitem_setitem_same.
Qed.

Lemma nth_error_combine (tcols scols : list text) :
  forall i t s,
    nth_error (combine tcols scols) i = Some (t, s) <->
    nth_error tcols i = Some t /\ nth_error scols i = Some s.
Proof.
  revert scols; induction tcols as [|t0 tcols IH];
    intros [|s0 scols] [|i] t s; simpl;
    try (split; [discriminate | intros [? ?]; discriminate]).
  - split; [intros H; inversion H; auto | intros [H1 H2]; congruence].
  - apply IH.
Qed.

Lemma positional_lookup (tcols scols : list text) (i : nat) (t s : text) :
  nth_error tcols i = Some t -> nth_error scols i = Some s ->
  (forall j, i < j -> j < length scols -> nth_error tcols j <> Some t) ->
  getitem (target_key target_table t)
          (fold_left write (combine tcols scols) [])
    = Some [_extract_column_source ms s source_tables].
Proof.
  intros HT HS Later.
  assert (HC : nth_error (combine tcols scols) i = Some (t, s))
    by (apply nth_error_combine; auto).
  destruct (nth_error_split _ _ HC) as [l1 [l2 [E L]]].
  rewrite E; apply fold_write_last.
  intros [t' s'] Hin Heq; simpl in Heq; subst t'.
  destruct (In_nth_error _ _ Hin) as [k Hk].
  assert (HC' : nth_error (combine tcols scols) (i + S k) = Some (t, s')).
  { rewrite E, nth_error_app2 by lia.
    replace (i + S k - length l1) with (S k) by lia. exact Hk. }
  apply nth_error_combine in HC'; destruct HC' as [H1 H2].
  apply (Later (i + S k)); [lia | | exact H1].
  apply nth_error_Some; congruence.
Qed.

Lemma positional_unmapped (tcols scols : list text) (t : text) :
  (forall j, j < length scols -> nth_error tcols j <> Some t) ->
  getitem (target_key target_table t)
          (fold_left write (combine tcols scols) [])
    = None.
Proof.
  intros N. rewrite fold_write_untouched; [reflexivity|].
  intros [t' s'] Hin Heq; simpl in Heq; subst t'.
  destruct (In_nth_error _ _ Hin) as [j Hj].
  apply nth_error_combine in Hj; destruct Hj as [H1 H2].
  apply (N j); [|exact H1].
  apply nth_error_Some; congruence.
Qed.

End PositionFacts.

Section InsertSelect.

(** The positional loop, on the two lists as the patterns of the code
    cut them out of the statement: for a statement with an INSERT
    column list and a SELECT projection, the mapping returned is the
    result of assigning, for each index below the length of the
    shorter list and in order,
    [target_table.target[i]] to [[resolve(source[i])]]; so position [i]
    is found under its key with that value unless a later position
    below that length names the same target column (the dictionary
    keeps the last assignment), and a target column named at no
    position below the length of the source list has no entry.  The
    function is total: no input makes it fail.  With [s.x] and [s.y]
    known to the store, [INSERT INTO t (a,b) SELECT x, y FROM s] maps
    exactly [t.a] to [[s.x]] and [t.b] to [[s.y]]. *)
Theorem insert_select_maps_by_position :
  (forall (ms : store) (sql_text target_table : text)
          (source_tables : list text) (insert_cols_match select_match : mstate),
      contains (str "INSERT INTO") (upper sql_text) = true ->
      re_search insert_columns sql_text = Some insert_cols_match ->
      re_search (select_list dot) sql_text = Some select_match ->
      let target_columns :=
        map strip (split_chr ","%char (group 1 insert_cols_match)) in
      let source_columns := split_columns (group 1 select_match) in
      let column_mappings :=
        _extract_column_mappings ms sql_text target_table source_tables in
      column_mappings
        = fold_left (write ms target_table source_tables)
                    (combine target_columns source_columns) []
      /\ (forall i target_col source_col,
             nth_error target_columns i = Some target_col ->
             nth_error source_columns i = Some source_col ->
             (forall j, i < j -> j < length source_columns ->
                        nth_error target_columns j <> Some target_col) ->
             getitem (target_key target_table target_col) column_mappings
               = Some [_extract_column_source ms source_col source_tables])
      /\ (forall target_col,
             (forall j, j < length source_columns ->
                        nth_error target_columns j <> Some target_col) ->
             getitem (target_key target_table target_col) column_mappings
               = None))
  /\ analyze_sql store_s_xy (str "INSERT INTO t (a,b) SELECT x, y FROM s")
     = [(str "t.a", [str "s.x"]); (str "t.b", [str "s.y"])].
Proof.
  split; [|vm_compute; reflexivity].
  intros ms sql_text target_table source_tables cm sm HI HC HS tcols scols m.
  assert (E : m = fold_left (write ms target_table source_tables)
                            (combine tcols scols) []).
  { subst m; unfold _extract_column_mappings.
    rewrite HI, HC, HS. fold tcols; fold scols.
    rewrite map_by_position_combine; reflexivity. }
  split; [exact E|]. rewrite E. split.
  - intros i t s; apply positional_lookup.
  - intros t; apply positional_unmapped.
Qed.

(** The statement [INSERT INTO t (a,b,c) SELECT x, y FROM s], one
    target column longer than its projection: [t.a] and [t.b] are
    mapped, [t.c] is not. *)
Lemma insert_select_maps_by_position_witness :
  let m := _extract_column_mappings store_s_xy
             (str "INSERT INTO t (a,b,c) SELECT x, y FROM s")
             (str "t") [str "s"] in
  getitem (str "t.a") m = Some [str "s.x"]
  /\ getitem (str "t.b") m = Some [str "s.y"]
  /\ getitem (str "t.c") m = None.
Proof.
  destruct insert_select_maps_by_position as [H _].
  pose (sql := str "INSERT INTO t (a,b,c) SELECT x, y FROM s").
  destruct (re_search insert_columns sql) as [cm|] eqn:HC;
    [|vm_compute in HC; discriminate].
  destruct (re_search (select_list dot) sql) as [sm|] eqn:HS;
    [|vm_compute in HS; discriminate].
  assert (HI : contains (str "INSERT INTO") (upper sql) = true)
    by (vm_compute; reflexivity).
  destruct (H store_s_xy sql (str "t") [str "s"] cm sm HI HC HS)
    as [_ [P U]].
  vm_compute in HC; inversion HC; subst cm; clear HC.
  vm_compute in HS; inversion HS; subst sm; clear HS.
  split; [|split].
  - apply (P 0 (str "a") (str "x")); try reflexivity.
    intros [|[|[|j]]] L1 L2; vm_compute in L2 |- *; try lia;
      discriminate.
  - apply (P 1 (str "b") (str "y")); try reflexivity.
    intros [|[|[|j]]] L1 L2; vm_compute in L2 |- *; try lia;
      discriminate.
  - apply (U (str "c")).
    intros [|[|[|j]]] L2; vm_compute in L2 |- *; try lia; discriminate.
Defined.

(** C3.  The projection is not always the list [e1..em] of the
    statement: the pattern [SELECT\s+(.+?)\s+FROM] has no word boundary
    after [FROM] and is matched without regard to case, so the list ends
    at the first whitespace followed by the letters [from], also where
    they begin a longer word.  In
    [INSERT INTO t (a,b) SELECT x, from_date FROM s] the list is cut to
    [x,]: only [t.a] is mapped and [t.b], at index 1 below the length 2
    of both lists, has no entry, whatever the store holds.  The pattern
    for the source tables of the same statement, [FROM\s+(...)], does
    take the real [FROM] and finds [s]. *)
Theorem insert_select_cut_inside_identifier (ms : store) :
  let sql_text := str "INSERT INTO t (a,b) SELECT x, from_date FROM s" in
  option_map (group 1)
             (re_search (select_list dot) (_normalize_sql sql_text))
    = Some (str "x,")
  /\ keys (analyze_sql ms sql_text) = [str "t.a"]
  /\ getitem (str "t.b") (analyze_sql ms sql_text) = None
  /\ _extract_source_tables (_normalize_sql sql_text) = [str "s"]
  /\ analyze_sql store_s_xy sql_text = [(str "t.a", [str "s.x"])].
Proof.
  cbv zeta; repeat split; vm_compute; reflexivity.
Qed.

End InsertSelect.

(** ** More on dictionaries: assignment, update, keys *)

Section DictUpdateFacts.

Context {V : Type}.

Lemma setitem_id (k : text) (v : V) (d : dict V) :
  getitem k d = Some v -> setitem k v d = d.
Proof.
  induction d as [|[k' v'] d IH]; simpl; [discriminate|].
  destruct (text_eqb k k') eqn:E.
  - intros H; inversion H; reflexivity.
  - intros H; rewrite (IH H); reflexivity.
Qed.

Lemma setitem_twice (k : text) (v v' : V) (d : dict V) :
  setitem k v (setitem k v' d) = setitem k v d.
Proof.
  induction d as [|[k0 v0] d IH]; simpl.
  - rewrite text_eqb_refl; reflexivity.
  - destruct (text_eqb k k0) eqn:E; simpl; rewrite E; [reflexivity|].
    rewrite IH; reflexivity.
Qed.

Lemma setitem_fresh (k : text) (v : V) (d : dict V) :
  ~ In k (keys d) -> setitem k v d = d ++ [(k, v)].
Proof.
  induction d as [|[k0 v0] d IH]; simpl; intros N; [reflexivity|].
  destruct (text_eqb k k0) eqn:E.
  - apply text_eqb_eq in E; subst; tauto.
  - rewrite IH by tauto; reflexivity.
Qed.

Lemma keys_setitem_present (k : text) (v v' : V) (d : dict V) :
  getitem k d = Some v' -> keys (setitem k v d) = keys d.
Proof.
  induction d as [|[k0 v0] d IH]; simpl; [discriminate|].
  destruct (text_eqb k k0) eqn:E; simpl; [reflexivity|].
  intros H; rewrite (IH H); reflexivity.
Qed.

Lemma keys_setitem (k : text) (v : V) (d : dict V) :
  keys (setitem k v d) = if mem k d then keys d else keys d ++ [k].
Proof.
  unfold mem; destruct (getitem k d) as [v'|] eqn:E.
  - apply (keys_setitem_present k v v' d E).
  - rewrite setitem_fresh.
    + unfold keys; rewrite map_app; reflexivity.
    + intros H; apply in_keys_getitem in H; destruct H; congruence.
Qed.

Lemma NoDup_keys_setitem (k : text) (v : V) (d : dict V) :
  NoDup (keys d) -> NoDup (keys (setitem k v d)).
Proof.
  intros H; rewrite keys_setitem; unfold mem.
  destruct (getitem k d) eqn:E; [exact H|].
  apply NoDup_app; [exact H | constructor; [tauto | constructor] |].
  intros x Hx [<-|[]].
  apply in_keys_getitem in Hx; destruct Hx; congruence.
Qed.

Lemma in_setitem (k : text) (v : V) (d : dict V) (e : text * V) :
  In e (setitem k v d) -> e = (k, v) \/ In e d.
Proof.
  induction d as [|[k0 v0] d IH]; simpl.
  - intros [<-|[]]; auto.
  - destruct (text_eqb k k0) eqn:E; simpl.
    + apply text_eqb_eq in E; subst k0. intros [<-|H]; auto.
    + intros [<-|H]; auto. destruct (IH H); auto.
Qed.

Lemma Forall_setitem (P : text * V -> Prop) (k : text) (v : V)
      (d : dict V) :
  Forall P d -> P (k, v) -> Forall P (setitem k v d).
Proof.
  rewrite !Forall_forall; intros H Hk e He.
  destruct (in_setitem k v d e He) as [->|Hd]; auto.
Qed.

Lemma getitem_in (k : text) (v : V) (d : dict V) :
  getitem k d = Some v -> In (k, v) d.
Proof.
  induction d as [|[k0 v0] d IH]; simpl; [discriminate|].
  destruct (text_eqb k k0) eqn:E.
  - apply text_eqb_eq in E; subst; intros H; inversion H; auto.
  - auto.
Qed.

Lemma in_getitem (k : text) (v : V) (d : dict V) :
  NoDup (keys d) -> In (k, v) d -> getitem k d = Some v.
Proof.
  induction d as [|[k0 v0] d IH]; simpl; [tauto|].
  intros N [H|H].
  - inversion H; subst; rewrite text_eqb_refl; reflexivity.
  - inversion N; subst.
    destruct (text_eqb k k0) eqn:E.
    + apply text_eqb_eq in E; subst.
      exfalso; apply H2; apply (in_map fst) in H; exact H.
    + apply IH; assumption.
Qed.

Lemma update_present (k : text) (f : V -> V) (v : V) (d : dict V) :
  getitem k d = Some v -> update k f d = setitem k (f v) d.
Proof. intros H; unfold update; rewrite H; reflexivity. Qed.

Lemma update_absent (k : text) (f : V -> V) (d : dict V) :
  getitem k d = None -> update k f d = d.
Proof. intros H; unfold update; rewrite H; reflexivity. Qed.

Lemma keys_update (k : text) (f : V -> V) (d : dict V) :
  keys (update k f d) = keys d.
Proof.
  unfold update; destruct (getitem k d) eqn:E; [|reflexivity].
  apply (keys_setitem_present k (f v) v d E).
Qed.

Lemma getitem_update_same (k : text) (f : V -> V) (d : dict V) :
  getitem k (update k f d) = option_map f (getitem k d).
Proof.
  unfold update; destruct (getitem k d) eqn:E; simpl.
  - apply getitem_setitem_same.
  - exact E.
Qed.

Lemma getitem_update_other (k k' : text) (f : V -> V) (d : dict V) :
  k <> k' -> getitem k (update k' f d) = getitem k d.
Proof.
  intros N; unfold update; destruct (getitem k' d); [|reflexivity].
  apply getitem_setitem_other, N.
Qed.

Lemma Forall_update (P : text * V -> Prop) (k : text) (f : V -> V)
      (d : dict V) :
  Forall P d -> (forall v, P (k, v) -> P (k, f v)) ->
  Forall P (update k f d).
Proof.
  intros H Hf; unfold update; destruct (getitem k d) eqn:E; [|exact H].
  apply Forall_setitem; [exact H|].
  apply Hf. rewrite Forall_forall in H; apply H, getitem_in, E.
Qed.

Lemma update_update (k : text) (f g : V -> V) (d : dict V) :
  update k g (update k f d) = update k (fun v => g (f v)) d.
Proof.
  unfold update at 2 3; destruct (getitem k d) eqn:E.
  - unfold update; rewrite getitem_setitem_same, setitem_twice; reflexivity.
  - apply update_absent, E.
Qed.

Lemma update_ext (k : text) (f g : V -> V) (d : dict V) :
  (forall v, getitem k d = Some v -> f v = g v) ->
  update k f d = update k g d.
Proof.
  intros H; unfold update; destruct (getitem k d) eqn:E; [|reflexivity].
  rewrite (H v eq_refl); reflexivity.
Qed.

Lemma update_same (k : text) (f : V -> V) (d : dict V) :
  (forall v, getitem k d = Some v -> f v = v) -> update k f d = d.
Proof.
  intros H; unfold update; destruct (getitem k d) eqn:E; [|reflexivity].
  rewrite (H v eq_refl); apply setitem_id, E.
Qed.

End DictUpdateFacts.

(** ** Table names and database names (metadata.py) *)

Section NameFacts.

Lemma split_chr_pieces (sep : ascii) (s : text) :
  Forall (fun piece => ~ In sep piece) (split_chr sep s).
Proof.
  induction s as [|c s IH]; simpl.
  - constructor; [tauto | constructor].
  - destruct (chr_eqb c sep) eqn:E.
    + constructor; [tauto | exact IH].
    + destruct (split_chr sep s) as [|p ps]; inversion IH; subst.
      * constructor; [|constructor].
        intros [->|[]]; rewrite chr_eqb_refl in E; discriminate.
      * constructor; [|assumption].
        intros [->|H]; [rewrite chr_eqb_refl in E; discriminate | auto].
Qed.

Lemma contains_one (c : ascii) (s : text) :
  ~ In c s -> contains [c] s = false.
Proof.
  induction s as [|x s IH]; simpl; intros N; [reflexivity|].
  rewrite IH by tauto.
  replace (chr_eqb c x) with false; [reflexivity|].
  symmetry; apply chr_eqb_neq; intros ->; tauto.
Qed.

Lemma or_default_nonempty (o : option text) : or_default o <> [].
Proof. destruct o as [[|c s]|]; simpl; discriminate. Qed.

Lemma falsy_or_default (o : option text) :
  falsy (Some (or_default o)) = false.
Proof. destruct o as [[|c s]|]; reflexivity. Qed.

Lemma or_default_idem (o : option text) :
  or_default (Some (or_default o)) = or_default o.
Proof. destruct o as [[|c s]|]; reflexivity. Qed.

Lemma or_default_some (d : text) : d <> [] -> or_default (Some d) = d.
Proof. destruct d; [congruence | reflexivity]. Qed.

(** With a database name given, the table name is taken as it is. *)
Lemma qualify_given (t : text) (o : option text) :
  falsy o = false -> qualify t o = (o, t).
Proof.
  intros H; unfold qualify; rewrite H, andb_false_r; reflexivity.
Qed.

(** The names a method works with are not split again by the method it
    calls. *)
Lemma qualify_idem (t t1 : text) (o o1 : option text) :
  qualify t o = (o1, t1) -> qualify t1 o1 = (o1, t1).
Proof.
  unfold qualify at 1.
  destruct (contains (str ".") t && falsy o) eqn:C.
  - pose proof (split_chr_pieces "."%char t) as P.
    destruct (split_chr "."%char t) as [|a [|b [|c l]]] eqn:S;
      intros H; inversion H; subst o1 t1.
    + unfold qualify; rewrite C, S; reflexivity.
    + unfold qualify; rewrite C, S; reflexivity.
    + inversion P as [|? ? _ P']; inversion P' as [|? ? Nb _]; subst.
      unfold qualify.
      change (str ".") with ["."%char]; rewrite (contains_one _ _ Nb).
      reflexivity.
    + unfold qualify; rewrite C, S; reflexivity.
  - intros H; inversion H; subst; unfold qualify; rewrite C; reflexivity.
Qed.

End NameFacts.

(** ** The methods of the store always return (metadata.py) *)

Section RunFacts.

Lemma bind_run {A B} (m : M A) (f : A -> M B) (st st' : store) (a : A) :
  m st = (Some a, st') -> bind m f st = f a st'.
Proof. intros H; unfold bind; rewrite H; reflexivity. Qed.

Lemma the_db_run (d : text) (st : store) (tbls : tables) :
  getitem d st = Some tbls -> the_db d st = (Some tbls, st).
Proof.
  intros H; unfold the_db, bind, get_store, index; rewrite H; reflexivity.
Qed.

Lemma the_table_run (d t : text) (st : store) (tbls : tables)
      (cols : columns) :
  getitem d st = Some tbls -> getitem t tbls = Some cols ->
  the_table d t st = (Some cols, st).
Proof.
  intros H1 H2; unfold the_table.
  rewrite (bind_run _ _ _ _ _ (the_db_run d st tbls H1)).
  unfold index; rewrite H2; reflexivity.
Qed.

Lemma assign_table_run (d t : text) (cols : columns) (st : store)
      (tbls : tables) :
  getitem d st = Some tbls ->
  assign_table d t cols st = (Some tt, setitem d (setitem t cols tbls) st).
Proof.
  intros H; unfold assign_table.
  rewrite (bind_run _ _ _ _ _ (the_db_run d st tbls H)).
  reflexivity.
Qed.

Lemma update_table_eq (d t : text) (f : columns -> columns) (st : store)
      (tbls : tables) (cols : columns) :
  getitem d st = Some tbls -> getitem t tbls = Some cols ->
  update d (update t f) st = setitem d (setitem t (f cols) tbls) st.
Proof.
  intros H1 H2.
  rewrite (update_present d _ tbls st H1), (update_present t f cols tbls H2).
  reflexivity.
Qed.

Lemma assign_column_run (d t c : text) (p : props) (st : store)
      (tbls : tables) (cols : columns) :
  getitem d st = Some tbls -> getitem t tbls = Some cols ->
  assign_column d t c p st = (Some tt, put_column d t c p st).
Proof.
  intros H1 H2; unfold assign_column.
  rewrite (bind_run _ _ _ _ _ (the_table_run d t st tbls cols H1 H2)).
  rewrite (assign_table_run d t _ st tbls H1).
  unfold put_column; rewrite (update_table_eq d t _ st tbls cols H1 H2).
  reflexivity.
Qed.

Lemma add_database_run (d : text) (st : store) :
  add_database d st = (Some tt, ensure_db d st).
Proof.
  unfold add_database, ensure_db, bind, get_store, when.
  destruct (mem d st); reflexivity.
Qed.

Lemma ensure_db_has (d : text) (st : store) :
  exists tbls, getitem d (ensure_db d st) = Some tbls.
Proof.
  unfold ensure_db; destruct (mem d st) eqn:E.
  - apply mem_true, E.
  - exists []; apply getitem_setitem_same.
Qed.

Lemma ensure_table_has (d t : text) (st : store) :
  exists tbls cols,
    getitem d (ensure_table d t st) = Some tbls /\
    getitem t tbls = Some cols.
Proof.
  unfold ensure_table. destruct (ensure_db_has d st) as [tbls H].
  rewrite (update_present d _ tbls _ H), getitem_setitem_same.
  destruct (mem t tbls) eqn:E.
  - apply mem_true in E; destruct E as [cols E]; eauto.
  - exists (setitem t new_table tbls), new_table; split; auto.
    apply getitem_setitem_same.
Qed.

(** [add_table], up to the call that sets the description. *)
Lemma add_table_with_run (f : text -> text -> option text -> M unit)
      (t t1 : text) (o o1 desc : option text) (st : store) :
  qualify t o = (o1, t1) ->
  add_table_with f t o desc st
    = match desc with
      | Some (c :: d') =>
          f t1 (c :: d') (Some (or_default o1))
            (ensure_table (or_default o1) t1 st)
      | _ => (Some tt, ensure_table (or_default o1) t1 st)
      end.
Proof.
  intros Q; unfold add_table_with; rewrite Q.
  set (d := or_default o1).
  rewrite (bind_run _ _ _ _ _ (add_database_run d st)).
  destruct (ensure_db_has d st) as [tbls H].
  rewrite (bind_run _ _ _ _ _ (the_db_run d _ tbls H)).
  unfold ensure_table; rewrite (update_present d _ tbls _ H).
  destruct (mem t1 tbls) eqn:E; simpl.
  - rewrite (setitem_id d tbls _ H).
    unfold bind, ret; destruct desc as [[|c d']|]; reflexivity.
  - unfold bind at 1. unfold bind at 1.
    rewrite (assign_table_run d t1 [] _ tbls H).
    erewrite assign_column_run;
      [| apply getitem_setitem_same | apply getitem_setitem_same].
    unfold put_column.
    erewrite update_table_eq;
      [| apply getitem_setitem_same | apply getitem_setitem_same].
    rewrite !setitem_twice.
    destruct desc as [[|c d']|]; reflexivity.
Qed.

Lemma ensure_table_present (d t : text) (st : store) (tbls : tables)
      (cols : columns) :
  getitem d st = Some tbls -> getitem t tbls = Some cols ->
  ensure_table d t st = st.
Proof.
  intros H1 H2; unfold ensure_table, ensure_db, mem; rewrite H1.
  apply update_same; intros v Hv.
  rewrite H1 in Hv; inversion Hv; subst v.
  unfold mem; rewrite H2; reflexivity.
Qed.

Lemma ensure_table_idem (d t : text) (st : store) :
  ensure_table d t (ensure_table d t st) = ensure_table d t st.
Proof.
  destruct (ensure_table_has d t st) as [tbls [cols [H1 H2]]].
  apply (ensure_table_present d t _ tbls cols H1 H2).
Qed.

Lemma set_table_description_run (t t1 desc : text) (o o1 : option text)
      (st : store) :
  qualify t o = (o1, t1) ->
  set_table_description t desc o st
    = (Some tt,
       describe_table (or_default o1) t1 desc
                      (ensure_table (or_default o1) t1 st)).
Proof.
  intros Q; unfold set_table_description; rewrite Q.
  set (d := or_default o1).
  assert (Q' : qualify t1 (Some d) = (Some d, t1))
    by (apply qualify_given, falsy_or_default).
  rewrite (bind_run _ _ _ _ _
             (add_table_with_run _ t1 t1 (Some d) (Some d) None st Q')).
  rewrite (or_default_some d (or_default_nonempty o1)).
  set (st1 := ensure_table d t1 st).
  destruct (ensure_table_has d t1 st) as [tbls [cols [H1 H2]]]; fold st1 in H1.
  rewrite (bind_run _ _ _ _ _ (the_table_run d t1 st1 tbls cols H1 H2)).
  unfold describe_table.
  rewrite (update_table_eq d t1 _ st1 tbls cols H1 H2).
  destruct (mem table_properties cols) eqn:E; simpl.
  - apply mem_true in E; destruct E as [p E].
    unfold bind at 1; unfold ret at 1.
    rewrite (bind_run _ _ _ _ _ (the_table_run d t1 st1 tbls cols H1 H2)).
    unfold index; rewrite E; unfold bind at 1; unfold ret at 1.
    rewrite (assign_column_run d t1 _ _ st1 tbls cols H1 H2).
    unfold put_column.
    rewrite (update_table_eq d t1 _ st1 tbls cols H1 H2).
    rewrite (update_present _ _ p cols E); reflexivity.
  - unfold bind at 1.
    rewrite (assign_column_run d t1 _ _ st1 tbls cols H1 H2).
    unfold put_column at 1.
    rewrite (update_table_eq d t1 _ st1 tbls cols H1 H2).
    set (cols2 := setitem table_properties [] cols).
    set (tbls2 := setitem t1 cols2 tbls).
    set (st2 := setitem d tbls2 st1).
    assert (G1 : getitem d st2 = Some tbls2) by apply getitem_setitem_same.
    assert (G2 : getitem t1 tbls2 = Some cols2)
      by apply getitem_setitem_same.
    assert (G3 : getitem table_properties cols2 = Some [])
      by apply getitem_setitem_same.
    rewrite (bind_run _ _ _ _ _ (the_table_run d t1 st2 tbls2 cols2 G1 G2)).
    unfold index; rewrite G3; unfold bind at 1; unfold ret at 1.
    rewrite (assign_column_run d t1 _ _ st2 tbls2 cols2 G1 G2).
    unfold put_column.
    rewrite (update_table_eq d t1 _ st2 tbls2 cols2 G1 G2).
    rewrite (update_present _ _ [] cols2 G3).
    unfold st2, tbls2; rewrite !setitem_twice; reflexivity.
Qed.

Lemma add_table_run (t t1 : text) (o o1 desc : option text) (st : store) :
  qualify t o = (o1, t1) ->
  add_table t o desc st
    = (Some tt, add_table_result (or_default o1) t1 desc st).
Proof.
  intros Q; unfold add_table.
  rewrite (add_table_with_run _ t t1 o o1 desc st Q).
  destruct desc as [[|c d']|]; try reflexivity.
  set (d := or_default o1).
  assert (Q' : qualify t1 (Some d) = (Some d, t1))
    by (apply qualify_given, falsy_or_default).
  rewrite (set_table_description_run t1 t1 _ (Some d) (Some d) _ Q').
  rewrite (or_default_some d (or_default_nonempty o1)).
  unfold add_table_result; rewrite ensure_table_idem; reflexivity.
Qed.

Lemma add_column_run (c t t1 : text) (o o1 : option text)
      (properties : option props) (desc : option text) (st : store) :
  qualify t o = (o1, t1) ->
  add_column c t o properties desc st
    = (Some tt,
       put_column (or_default o1) t1 c (bag properties desc)
                  (ensure_table (or_default o1) t1 st)).
Proof.
  intros Q; unfold add_column; rewrite Q.
  rewrite (bind_run _ _ _ _ _
             (add_table_run t1 t1 o1 o1 None st (qualify_idem t t1 o o1 Q))).
  unfold add_table_result.
  destruct (ensure_table_has (or_default o1) t1 st)
    as [tbls [cols [H1 H2]]].
  apply (assign_column_run _ _ _ _ _ tbls cols H1 H2).
Qed.

Lemma column_exists_given (d t c : text) (st : store) :
  d <> [] ->
  column_exists t c (Some d) st
    = match table_entry d t st with
      | Some cols => mem c cols
      | None => false
      end.
Proof.
  intros N; unfold column_exists, table_entry.
  rewrite qualify_given by (destruct d; [congruence | reflexivity]).
  rewrite (or_default_some d N).
  destruct (getitem d st); reflexivity.
Qed.

(** The tail of [set_column_description] when the column had to be
    added first. *)
Lemma set_column_description_after (d t1 c desc : text) (st : store) :
  d <> [] ->
  (add_column c t1 (Some d) None None ;;;
   cols <- the_table d t1 ;;
   p <- index c cols ;;
   assign_column d t1 c (setitem description_key desc p)) st
  = (Some tt,
     update d (update t1 (update c (describe desc)))
            (put_column d t1 c [] (ensure_table d t1 st))).
Proof.
  intros N.
  assert (Q' : qualify t1 (Some d) = (Some d, t1))
    by (apply qualify_given; destruct d; [congruence | reflexivity]).
  rewrite (bind_run _ _ _ _ _
             (add_column_run c t1 t1 (Some d) (Some d) None None st Q')).
  rewrite (or_default_some d N). unfold bag.
  destruct (ensure_table_has d t1 st) as [tbls [cols [H1 H2]]].
  unfold put_column at 1 2.
  rewrite (update_table_eq d t1 _ _ tbls cols H1 H2).
  set (cols2 := setitem c [] cols).
  set (tbls2 := setitem t1 cols2 tbls).
  set (st2 := setitem d tbls2 (ensure_table d t1 st)).
  assert (G1 : getitem d st2 = Some tbls2) by apply getitem_setitem_same.
  assert (G2 : getitem t1 tbls2 = Some cols2) by apply getitem_setitem_same.
  assert (G3 : getitem c cols2 = Some [])
    by apply getitem_setitem_same.
  rewrite (bind_run _ _ _ _ _ (the_table_run d t1 st2 tbls2 cols2 G1 G2)).
  unfold index; rewrite G3; unfold bind at 1; unfold ret at 1.
  rewrite (assign_column_run d t1 _ _ st2 tbls2 cols2 G1 G2).
  unfold put_column.
  rewrite !(update_table_eq d t1 _ st2 tbls2 cols2 G1 G2).
  rewrite (update_present _ _ [] cols2 G3); reflexivity.
Qed.

Lemma set_column_description_run (c t t1 desc : text) (o o1 : option text)
      (st : store) :
  qualify t o = (o1, t1) ->
  set_column_description c t desc o st
    = (Some tt,
       describe_column (or_default o1) t1 c desc
         (if column_exists t1 c (Some (or_default o1)) st then st
          else put_column (or_default o1) t1 c []
                          (ensure_table (or_default o1) t1 st))).
Proof.
  intros Q; unfold set_column_description; rewrite Q.
  set (d := or_default o1).
  assert (N : d <> []) by apply or_default_nonempty.
  unfold bind at 1; unfold get_store at 1.
  rewrite (column_exists_given d t1 c st N).
  unfold table_entry, describe_column.
  destruct (getitem d st) as [tbls|] eqn:H1;
    [destruct (getitem t1 tbls) as [cols|] eqn:H2;
     [destruct (mem c cols) eqn:E|]|]; simpl.
  - apply mem_true in E; destruct E as [p E].
    unfold bind at 1; unfold ret at 1.
    rewrite (bind_run _ _ _ _ _ (the_table_run d t1 st tbls cols H1 H2)).
    unfold index; rewrite E; unfold bind at 1; unfold ret at 1.
    rewrite (assign_column_run d t1 _ _ st tbls cols H1 H2).
    unfold put_column.
    rewrite !(update_table_eq d t1 _ st tbls cols H1 H2).
    rewrite (update_present _ _ p cols E); reflexivity.
  - apply (set_column_description_after d t1 c desc st N).
  - apply (set_column_description_after d t1 c desc st N).
  - apply (set_column_description_after d t1 c desc st N).
Qed.

End RunFacts.

(** ** Columns of a table and repeated [add_column] (metadata.py) *)

Section ColumnFacts.

Lemma exec_bind_run {A} (m : M A) (f : A -> M unit) (st st' : store)
      (a : A) :
  m st = (Some a, st') -> exec (bind m f) st = exec (f a) st'.
Proof. intros H; unfold exec; rewrite (bind_run m f st st' a H); auto. Qed.

Lemma getitem_singleton {V} (k : text) (v : V) :
  getitem k [(k, v)] = Some v.
Proof. simpl; rewrite text_eqb_refl; reflexivity. Qed.

(** A new table in a new store. *)
Lemma ensure_table_empty (d t : text) :
  ensure_table d t empty = [(d, [(t, new_table)])].
Proof.
  unfold ensure_table, ensure_db, empty; simpl.
  unfold update; rewrite getitem_singleton; simpl.
  rewrite text_eqb_refl; reflexivity.
Qed.

(** C5.  [get_columns] returns every key of the table's dictionary, the
    reserved key [_table_properties] first: after [add_table(t)] and
    [add_column(c, t)] on a new store it returns
    [['_table_properties', c]] (and [['_table_properties']] alone if
    [c] is that key): the reserved key is enumerated. *)
Theorem get_columns_lists_reserved_slot (t c : text) :
  let st := exec (add_table t None None ;;;
                  add_column c t None None None) empty in
  get_columns t None st
    = (if text_eqb c table_properties then [table_properties]
       else [table_properties; c])
  /\ In table_properties (get_columns t None st).
Proof.
  destruct (qualify t None) as [o1 t1] eqn:Q.
  assert (E : get_columns t None
                (exec (add_table t None None ;;;
                       add_column c t None None None) empty)
              = (if text_eqb c table_properties then [table_properties]
                 else [table_properties; c])).
  { rewrite (exec_bind_run _ _ _ _ _ (add_table_run t t1 None o1 None empty Q)).
    unfold exec; rewrite (add_column_run c t t1 None o1 None None _ Q).
    simpl snd. unfold add_table_result.
    rewrite ensure_table_idem, ensure_table_empty.
    unfold get_columns; rewrite Q.
    unfold put_column, update; rewrite getitem_singleton.
    rewrite getitem_singleton. simpl setitem.
    rewrite !text_eqb_refl. rewrite !getitem_singleton.
    unfold bag. simpl.
    destruct (text_eqb c table_properties); reflexivity. }
  simpl; split; [exact E|].
  rewrite E. destruct (text_eqb c table_properties); left; reflexivity.
Qed.

Example get_columns_after_add :
  get_columns (str "t") None
    (exec (add_table (str "t") None None ;;;
           add_column (str "c") (str "t") None None None) empty)
    = [str "_table_properties"; str "c"].
Proof. vm_compute; reflexivity. Qed.

(** C6, as stated, fails: the column [c] exists with the bag
    [{'a': '1'}]; [add_column] with the bag [{'b': '2'}] leaves exactly
    [{'b': '2'}], and the key [a], which the new bag does not override,
    is gone. *)
Lemma add_column_discards_existing_properties :
  column_entry default_db (str "t") (str "c") store_with_a
    = Some [(str "a", str "1")]
  /\ mem (str "a") [(str "b", str "2")] = false
  /\ column_entry default_db (str "t") (str "c")
       (exec (add_column (str "c") (str "t") None
                         (Some [(str "b", str "2")]) None) store_with_a)
     = Some [(str "b", str "2")].
Proof. repeat split; vm_compute; reflexivity. Qed.

Lemma put_column_twice (d t c : text) (p q : props) (st : store) :
  put_column d t c q (put_column d t c p st) = put_column d t c q st.
Proof.
  unfold put_column; rewrite update_update.
  apply update_ext; intros tbls _.
  rewrite update_update.
  apply update_ext; intros cols _.
  apply setitem_twice.
Qed.

Lemma put_column_has (d t c : text) (p : props) (st : store)
      (tbls : tables) (cols : columns) :
  getitem d st = Some tbls -> getitem t tbls = Some cols ->
  getitem d (put_column d t c p st) = Some (setitem t (setitem c p cols) tbls)
  /\ getitem t (setitem t (setitem c p cols) tbls)
     = Some (setitem c p cols).
Proof.
  intros H1 H2; unfold put_column.
  rewrite (update_table_eq d t _ st tbls cols H1 H2).
  split; apply getitem_setitem_same.
Qed.

Lemma column_entry_put (d t c : text) (p : props) (st : store)
      (tbls : tables) (cols : columns) :
  getitem d st = Some tbls -> getitem t tbls = Some cols ->
  column_entry d t c (put_column d t c p st) = Some p.
Proof.
  intros H1 H2; unfold column_entry, put_column.
  rewrite (update_table_eq d t _ st tbls cols H1 H2).
  rewrite getitem_setitem_same, getitem_setitem_same.
  apply getitem_setitem_same.
Qed.

(** C6, amended.  [add_column] always returns; the bag it is given
    (with [description] set in it when a description is given) becomes
    the column's bag, whatever the column held before; and a second
    call with the same arguments leaves the store of the first. *)
Theorem add_column_replaces_properties
        (c t : text) (o : option text) (properties : option props)
        (desc : option text) (st : store) :
  let d := or_default (fst (qualify t o)) in
  let t1 := snd (qualify t o) in
  let st' := exec (add_column c t o properties desc) st in
  returns (add_column c t o properties desc) st = true
  /\ column_entry d t1 c st' = Some (bag properties desc)
  /\ exec (add_column c t o properties desc) st' = st'.
Proof.
  destruct (qualify t o) as [o1 t1] eqn:Q; simpl fst; simpl snd.
  unfold returns, exec.
  rewrite !(add_column_run c t t1 o o1 properties desc _ Q); simpl.
  set (d := or_default o1).
  destruct (ensure_table_has d t1 st) as [tbls [cols [H1 H2]]].
  destruct (put_column_has d t1 c (bag properties desc) _ tbls cols H1 H2)
    as [G1 G2].
  split; [reflexivity | split].
  - apply (column_entry_put d t1 c _ _ tbls cols H1 H2).
  - rewrite (ensure_table_present d t1 _ _ _ G1 G2).
    apply put_column_twice.
Qed.

End ColumnFacts.

(** ** The shape of reachable stores (metadata.py) *)

Section ShapeFacts.

Lemma wf_columns_new : wf_columns new_table.
Proof.
  split; [|exists [], []; reflexivity].
  simpl; constructor; [tauto | constructor].
Qed.

Lemma wf_columns_setitem (c : text) (p : props) (cols : columns) :
  wf_columns cols -> wf_columns (setitem c p cols).
Proof.
  intros [N [p0 [more E]]]; split; [apply NoDup_keys_setitem, N|].
  subst cols; simpl.
  destruct (text_eqb c table_properties); eauto.
Qed.

Lemma wf_columns_update (c : text) (f : props -> props) (cols : columns) :
  wf_columns cols -> wf_columns (update c f cols).
Proof.
  intros H; unfold update; destruct (getitem c cols); [|exact H].
  apply wf_columns_setitem, H.
Qed.


Lemma wf_tables_update (d t : text) (f : columns -> columns)
      (tbls : tables) :
  (forall cols, wf_columns cols -> wf_columns (f cols)) ->
  wf_tables d tbls -> wf_tables d (update t f tbls).
Proof.
  intros Hf [N [Z F]]; split; [|split].
  - rewrite keys_update; exact N.
  - intros D; rewrite (Z D); reflexivity.
  - apply Forall_update; [exact F|]. intros v; simpl; apply Hf.
Qed.

Lemma wf_update (d : text) (g : tables -> tables) (st : store) :
  (forall tbls, wf_tables d tbls -> wf_tables d (g tbls)) ->
  wf st -> wf (update d g st).
Proof.
  intros Hg [N F]; split.
  - rewrite keys_update; exact N.
  - apply Forall_update; [exact F|]. intros v; simpl; apply Hg.
Qed.

Lemma wf_update_table (d t : text) (f : columns -> columns) (st : store) :
  (forall cols, wf_columns cols -> wf_columns (f cols)) ->
  wf st -> wf (update d (update t f) st).
Proof.
  intros Hf; apply wf_update; intros tbls.
  apply wf_tables_update, Hf.
Qed.

Lemma wf_empty : wf empty.
Proof. split; constructor. Qed.

Lemma wf_ensure_db (d : text) (st : store) : wf st -> wf (ensure_db d st).
Proof.
  intros [N F]; unfold ensure_db; destruct (mem d st); [split; auto|].
  split; [apply NoDup_keys_setitem, N|].
  apply Forall_setitem; [exact F|].
  simpl; split; [constructor | split; [reflexivity | constructor]].
Qed.

Lemma wf_ensure_table (d t : text) (st : store) :
  d <> [] -> wf st -> wf (ensure_table d t st).
Proof.
  intros D H; unfold ensure_table.
  apply wf_update; [|apply wf_ensure_db, H].
  intros tbls [N [Z F]]; destruct (mem t tbls); [split; auto|].
  split; [apply NoDup_keys_setitem, N | split; [congruence|]].
  apply Forall_setitem; [exact F | apply wf_columns_new].
Qed.

Lemma wf_put_column (d t c : text) (p : props) (st : store) :
  wf st -> wf (put_column d t c p st).
Proof. apply wf_update_table; intros cols; apply wf_columns_setitem. Qed.

Lemma wf_describe_table (d t desc : text) (st : store) :
  wf st -> wf (describe_table d t desc st).
Proof.
  apply wf_update_table; intros cols H.
  apply wf_columns_update.
  destruct (mem table_properties cols);
    [exact H | apply wf_columns_setitem, H].
Qed.

Lemma wf_describe_column (d t c desc : text) (st : store) :
  wf st -> wf (describe_column d t c desc st).
Proof. apply wf_update_table; intros cols; apply wf_columns_update. Qed.

Lemma wf_add_table_result (d t : text) (desc : option text) (st : store) :
  d <> [] -> wf st -> wf (add_table_result d t desc st).
Proof.
  intros D H; unfold add_table_result.
  destruct desc as [[|c d']|]; try (apply wf_ensure_table; assumption).
  apply wf_describe_table, wf_ensure_table; assumption.
Qed.

(** *** Every operation keeps the shape, returning or raising *)

Lemma keeps_ret {A} (P : store -> Prop) (a : A) : keeps P (ret a).
Proof. intros st H; exact H. Qed.

Lemma keeps_raise {A} (P : store -> Prop) : keeps P (@raise A).
Proof. intros st H; exact H. Qed.

Lemma keeps_bind {A B} (P : store -> Prop) (m : M A) (f : A -> M B) :
  keeps P m -> (forall a, keeps P (f a)) -> keeps P (bind m f).
Proof.
  intros Hm Hf st H; unfold bind.
  pose proof (Hm st H) as H'.
  destruct (m st) as [[a|] st']; simpl in *; [apply Hf, H' | exact H'].
Qed.

Lemma keeps_for_each {A} (P : store -> Prop) (l : list A)
      (body : A -> M unit) :
  (forall x, keeps P (body x)) -> keeps P (for_each l body).
Proof.
  intros Hb; induction l as [|x l IH]; simpl.
  - apply keeps_ret.
  - apply keeps_bind; [apply Hb | intros _; exact IH].
Qed.

Lemma keeps_try_except (P : store -> Prop) (m : M unit) :
  keeps P m -> keeps P (try_except m).
Proof. intros Hm st H; exact (Hm st H). Qed.

Lemma keeps_index {V} (P : store -> Prop) (k : text) (d : dict V) :
  keeps P (index k d).
Proof.
  unfold index; destruct (getitem k d);
    [apply keeps_ret | apply keeps_raise].
Qed.

Lemma keeps_cell (P : store -> Prop) (i : nat) (row : list text) :
  keeps P (cell i row).
Proof.
  unfold cell; destruct (nth_error row i);
    [apply keeps_ret | apply keeps_raise].
Qed.

Lemma keeps_run (P : store -> Prop) (m : M unit) (f : store -> store) :
  (forall st, m st = (Some tt, f st)) ->
  (forall st, P st -> P (f st)) -> keeps P m.
Proof. intros E Hf st H; rewrite E; simpl; apply Hf, H. Qed.

Lemma keeps_add_database (d : text) : keeps wf (add_database d).
Proof.
  apply (keeps_run wf _ (ensure_db d)); [apply add_database_run|].
  apply wf_ensure_db.
Qed.

Lemma keeps_add_table (t : text) (o desc : option text) :
  keeps wf (add_table t o desc).
Proof.
  destruct (qualify t o) as [o1 t1] eqn:Q.
  apply (keeps_run wf _ (add_table_result (or_default o1) t1 desc)).
  - intros st; apply (add_table_run t t1 o o1 desc st Q).
  - intros st; apply wf_add_table_result, or_default_nonempty.
Qed.

Lemma keeps_add_column (c t : text) (o : option text)
      (properties : option props) (desc : option text) :
  keeps wf (add_column c t o properties desc).
Proof.
  destruct (qualify t o) as [o1 t1] eqn:Q.
  eapply keeps_run.
  - intros st; apply (add_column_run c t t1 o o1 properties desc st Q).
  - intros st H; apply wf_put_column, wf_ensure_table;
      [apply or_default_nonempty | exact H].
Qed.

Lemma keeps_set_table_description (t desc : text) (o : option text) :
  keeps wf (set_table_description t desc o).
Proof.
  destruct (qualify t o) as [o1 t1] eqn:Q.
  eapply keeps_run.
  - intros st; apply (set_table_description_run t t1 desc o o1 st Q).
  - intros st H; apply wf_describe_table, wf_ensure_table;
      [apply or_default_nonempty | exact H].
Qed.

Lemma keeps_set_column_description (c t desc : text) (o : option text) :
  keeps wf (set_column_description c t desc o).
Proof.
  destruct (qualify t o) as [o1 t1] eqn:Q.
  eapply keeps_run.
  - intros st; apply (set_column_description_run c t t1 desc o o1 st Q).
  - intros st H; apply wf_describe_column.
    destruct (column_exists _ _ _ st); [exact H|].
    apply wf_put_column, wf_ensure_table;
      [apply or_default_nonempty | exact H].
Qed.

Lemma keeps_import_json_data (data : json_doc) :
  keeps wf (import_json_data data).
Proof.
  unfold import_json_data.
  apply keeps_for_each; intros [db_name tbls].
  apply keeps_bind; [apply keeps_add_database | intros _].
  apply keeps_for_each; intros [table_name cols].
  apply keeps_bind; [apply keeps_add_table | intros _].
  apply keeps_for_each; intros [column_name properties].
  apply keeps_add_column.
Qed.

Lemma keeps_import_csv_data (f : csv_file) : keeps wf (import_csv_data f).
Proof.
  unfold import_csv_data.
  destruct (filter _ required_fields); [|apply keeps_raise].
  apply keeps_for_each; intros row.
  apply keeps_bind; [apply keeps_index | intros db].
  apply keeps_bind; [apply keeps_index | intros table_name].
  apply keeps_bind; [apply keeps_index | intros column_name].
  apply keeps_add_column.
Qed.

Lemma keeps_load_metadata_from_sql (sql_text : text) :
  keeps wf (load_metadata_from_sql sql_text).
Proof.
  unfold load_metadata_from_sql.
  apply keeps_bind; [|intros _].
  - apply keeps_for_each; intros m.
    destruct (qualify (strip (group 1 m)) None) as [o1 t1].
    apply keeps_bind; [apply keeps_add_table | intros _].
    apply keeps_for_each; intros col_match; apply keeps_add_column.
  - apply keeps_for_each; intros m.
    destruct (qualify (strip (group 1 m)) None) as [o1 t1].
    apply keeps_bind; [apply keeps_add_table | intros _].
    apply keeps_for_each; intros col_expr; apply keeps_add_column.
Qed.

Lemma keeps_import_reference_metadata_csv
      (content : option (list (list text))) :
  keeps wf (import_reference_metadata_csv content).
Proof.
  unfold import_reference_metadata_csv; apply keeps_try_except.
  destruct content as [[|header rows]|]; try apply keeps_raise.
  apply keeps_for_each; intros row.
  destruct (length row <? 2); [apply keeps_ret|].
  apply keeps_bind; [apply keeps_cell | intros table_name].
  apply keeps_bind; [apply keeps_cell | intros column_name].
  apply keeps_bind;
    [destruct (_ <? _); [apply keeps_cell | apply keeps_ret]
    | intros table_desc].
  apply keeps_bind;
    [destruct (_ <? _); [apply keeps_cell | apply keeps_ret]
    | intros column_desc].
  apply keeps_bind; [apply keeps_add_table | intros _].
  apply keeps_add_column.
Qed.

Lemma keeps_perform (o : operation) : keeps wf (perform o).
Proof.
  destruct o as [d|t d desc|c t d p desc|t desc d|c t desc d
                 |content|content|content|sql_text|p]; simpl.
  - apply keeps_add_database.
  - apply keeps_add_table.
  - apply keeps_add_column.
  - apply keeps_set_table_description.
  - apply keeps_set_column_description.
  - apply keeps_try_except; destruct content;
      [apply keeps_import_json_data | apply keeps_raise].
  - apply keeps_try_except; destruct content;
      [apply keeps_import_csv_data | apply keeps_raise].
  - apply keeps_import_reference_metadata_csv.
  - apply keeps_load_metadata_from_sql.
  - destruct p as [[data|]|[f|]|sql_text|]; simpl;
      try apply keeps_ret.
    + apply keeps_import_json_data.
    + apply keeps_try_except, keeps_import_csv_data.
    + apply keeps_load_metadata_from_sql.
Qed.

Lemma reachable_wf (st : store) : reachable st -> wf st.
Proof.
  induction 1 as [|o st R IH]; [apply wf_empty|].
  apply (keeps_perform o st IH).
Qed.




End ShapeFacts.

(** ** JSON export and import (metadata.py) *)

Section RoundTrip.

Local Abbreviation import_columns d t :=
  (fun '(column_name, properties) =>
     add_column column_name t (Some d) (Some properties) None).

Local Abbreviation import_tables d :=
  (fun '(table_name, columns) =>
     add_table table_name (Some d) None ;;;
     for_each (items columns) (import_columns d table_name)).

Lemma NoDup_keys_app_fresh {V} (acc : dict V) (k : text) (v : V)
      (more : dict V) :
  NoDup (keys (acc ++ (k, v) :: more)) -> ~ In k (keys acc).
Proof.
  unfold keys; rewrite map_app; simpl; intros N H.
  apply NoDup_remove_2 in N; apply N, in_or_app; left; exact H.
Qed.

Lemma app_cons_assoc {A} (l : list A) (x : A) (m : list A) :
  l ++ x :: m = (l ++ [x]) ++ m.
Proof. rewrite <- app_assoc; reflexivity. Qed.

(** Columns are appended to the table in the order of the document. *)
Lemma import_columns_run (d t : text) (more : columns) :
  d <> [] ->
  forall (st : store) (tbls : tables) (acc : columns),
    getitem d st = Some tbls -> getitem t tbls = Some acc ->
    NoDup (keys (acc ++ more)) ->
    for_each more (import_columns d t) st
      = (Some tt, setitem d (setitem t (acc ++ more) tbls) st).
Proof.
  intros D; induction more as [|[c p] more IH]; intros st tbls acc H1 H2 N.
  - cbn [for_each]; unfold ret; rewrite app_nil_r.
    rewrite (setitem_id t acc tbls H2), (setitem_id d tbls st H1).
    reflexivity.
  - cbn [for_each].
    assert (Q : qualify t (Some d) = (Some d, t))
      by (apply qualify_given; destruct d; [congruence | reflexivity]).
    rewrite (bind_run _ _ _ _ _
               (add_column_run c t t (Some d) (Some d) (Some p) None st Q)).
    rewrite (or_default_some d D).
    rewrite (ensure_table_present d t st tbls acc H1 H2).
    unfold bag, put_column.
    rewrite (update_table_eq d t _ st tbls acc H1 H2).
    rewrite (setitem_fresh c p acc (NoDup_keys_app_fresh acc c p more N)).
    rewrite (IH _ (setitem t (acc ++ [(c, p)]) tbls) (acc ++ [(c, p)])).
    + rewrite !setitem_twice, <- app_cons_assoc; reflexivity.
    + apply getitem_setitem_same.
    + apply getitem_setitem_same.
    + rewrite <- app_cons_assoc; exact N.
Qed.

(** A table of the document is rebuilt from the new table that
    [add_table] creates: its reserved entry is overwritten in place,
    the columns follow. *)
Lemma import_table_columns_run (d t : text) (cols : columns) :
  d <> [] -> wf_columns cols ->
  forall (st : store) (tbls : tables),
    getitem d st = Some tbls -> getitem t tbls = Some new_table ->
    for_each cols (import_columns d t) st
      = (Some tt, setitem d (setitem t cols tbls) st).
Proof.
  intros D [N [p0 [more ->]]] st tbls H1 H2.
  cbn [for_each].
  assert (Q : qualify t (Some d) = (Some d, t))
    by (apply qualify_given; destruct d; [congruence | reflexivity]).
  rewrite (bind_run _ _ _ _ _
             (add_column_run table_properties t t (Some d) (Some d)
                             (Some p0) None st Q)).
  rewrite (or_default_some d D).
  rewrite (ensure_table_present d t st tbls new_table H1 H2).
  unfold bag, put_column.
  rewrite (update_table_eq d t _ st tbls new_table H1 H2).
  assert (E : setitem table_properties p0 new_table
              = [(table_properties, p0)])
    by (unfold new_table; cbn [setitem]; rewrite text_eqb_refl; reflexivity).
  rewrite E.
  rewrite (import_columns_run d t more D _
             (setitem t [(table_properties, p0)] tbls)
             [(table_properties, p0)]).
  - rewrite !setitem_twice; reflexivity.
  - apply getitem_setitem_same.
  - apply getitem_setitem_same.
  - exact N.
Qed.

Lemma import_tables_run (d : text) (more : tables) :
  d <> [] ->
  forall (st : store) (acc : tables),
    getitem d st = Some acc ->
    NoDup (keys (acc ++ more)) ->
    Forall (fun e => wf_columns (snd e)) more ->
    for_each more (import_tables d) st
      = (Some tt, setitem d (acc ++ more) st).
Proof.
  intros D; induction more as [|[t cols] more IH]; intros st acc H1 N F.
  - cbn [for_each]; unfold ret; rewrite app_nil_r, (setitem_id d acc st H1).
    reflexivity.
  - cbn [for_each]. inversion F as [|? ? W F']; subst; simpl in W.
    assert (Q : qualify t (Some d) = (Some d, t))
      by (apply qualify_given; destruct d; [congruence | reflexivity]).
    pose proof (NoDup_keys_app_fresh acc t cols more N) as Fr.
    assert (E : ensure_table d t st
                = setitem d (setitem t new_table acc) st).
    { unfold ensure_table, ensure_db, mem; rewrite H1.
      rewrite (update_present d _ acc st H1).
      unfold mem; rewrite (getitem_fresh t acc Fr); reflexivity. }
    assert (R : (add_table t (Some d) None ;;;
                 for_each (items cols) (import_columns d t)) st
                = (Some tt, setitem d (acc ++ [(t, cols)]) st)).
    { rewrite (bind_run _ _ _ _ _
                 (add_table_run t t (Some d) (Some d) None st Q)).
      rewrite (or_default_some d D). unfold add_table_result.
      rewrite E. unfold items.
      rewrite (import_table_columns_run d t cols D W _
                 (setitem t new_table acc)
                 (getitem_setitem_same d _ st)
                 (getitem_setitem_same t new_table acc)).
      rewrite !setitem_twice, (setitem_fresh t cols acc Fr).
      reflexivity. }
    rewrite (bind_run _ _ _ _ _ R).
    rewrite (IH _ (acc ++ [(t, cols)])).
    + rewrite setitem_twice, <- app_cons_assoc; reflexivity.
    + apply getitem_setitem_same.
    + rewrite <- app_cons_assoc; exact N.
    + exact F'.
Qed.

Lemma import_databases_run (more : json_doc) :
  forall acc : store,
    NoDup (keys (acc ++ more)) ->
    Forall (fun e => wf_tables (fst e) (snd e)) more ->
    for_each more
      (fun '(db_name, tables) =>
         add_database db_name ;;;
         for_each (items tables) (import_tables db_name)) acc
      = (Some tt, acc ++ more).
Proof.
  induction more as [|[d tbls] more IH]; intros acc N F.
  - cbn [for_each]; unfold ret; rewrite app_nil_r; reflexivity.
  - cbn [for_each]. inversion F as [|? ? W F']; subst; simpl in W.
    destruct W as [Nt [Z Wc]].
    pose proof (NoDup_keys_app_fresh acc d tbls more N) as Fr.
    assert (E : ensure_db d acc = setitem d [] acc).
    { unfold ensure_db, mem; rewrite (getitem_fresh d acc Fr).
      reflexivity. }
    assert (R : (add_database d ;;;
                 for_each (items tbls) (import_tables d)) acc
                = (Some tt, acc ++ [(d, tbls)])).
    { rewrite (bind_run _ _ _ _ _ (add_database_run d acc)), E.
      unfold items. destruct d as [|x d].
      - rewrite (Z eq_refl); cbn [for_each]; unfold ret.
        rewrite (setitem_fresh [] [] acc Fr); reflexivity.
      - rewrite (import_tables_run (x :: d) tbls ltac:(discriminate) _ []).
        + rewrite setitem_twice; simpl.
          rewrite (setitem_fresh (x :: d) tbls acc Fr); reflexivity.
        + apply getitem_setitem_same.
        + exact Nt.
        + exact Wc. }
    rewrite (bind_run _ _ _ _ _ R).
    rewrite (IH (acc ++ [(d, tbls)])).
    + rewrite <- app_cons_assoc; reflexivity.
    + rewrite <- app_cons_assoc; exact N.
    + exact F'.
Qed.

Lemma import_json_data_run (data : json_doc) :
  wf data -> import_json_data data empty = (Some tt, data).
Proof.
  intros [N F]; unfold import_json_data, items.
  apply (import_databases_run data [] N F).
Qed.

(** On the registries of strings, which are those the operations
    reach when every line of an imported CSV file has as many cells as
    its header: the document [_export_metadata_to_json] writes,
    imported into a new store by [_import_metadata_from_json_file] or
    pasted as JSON into [process_pasted_metadata], gives back the same
    registry, entry for entry and in the same order; the import
    returns without an exception. *)
Theorem json_round_trip (st : store) :
  reachable st ->
  let document := _export_metadata_to_json st in
  exec (_import_metadata_from_json_file (Some document)) empty = st
  /\ exec (process_pasted_metadata (PastedJson (Some document))) empty = st
  /\ returns (process_pasted_metadata (PastedJson (Some document))) empty
     = true.
Proof.
  intros R; pose proof (import_json_data_run st (reachable_wf st R)) as E.
  unfold _export_metadata_to_json, exec, returns; simpl.
  unfold try_except; rewrite E; simpl; auto.
Qed.

Lemma json_round_trip_witness :
  exec (_import_metadata_from_json_file
          (Some (_export_metadata_to_json store_after_ddl))) empty
    = store_after_ddl
  /\ exec (process_pasted_metadata
             (PastedJson (Some (_export_metadata_to_json store_after_ddl))))
          empty
     = store_after_ddl
  /\ returns (process_pasted_metadata
                (PastedJson (Some (_export_metadata_to_json store_after_ddl))))
             empty
     = true.
Proof.
  exact (json_round_trip store_after_ddl
           (reach_step (OpLoadSql _) reach_new)).
Defined.

(** C7.  A line with fewer cells than the header breaks the round
    trip.  For the file
<<
    database_name,table_name,column_name
    db,t
>>
    the reader delivers [None] as the column name, and
    [import_metadata_from_csv] stores a column under the key [None]
    and returns; [import_reference_metadata_csv] skips such a line.
    [json.dump] writes that key as [null], and the import of the
    document into a new store gives a column named by the string
    [null]: a registry that differs from the one exported. *)
Theorem json_round_trip_fails_after_short_row :
  let row := Ragged.dict_reader_row required_fields [str "db"; str "t"] in
  let st :=
    Ragged.exec (Ragged.import_metadata_from_csv required_fields [row]) [] in
  let document := Ragged._export_metadata_to_json st in
  let st' :=
    Ragged.exec
      (Ragged._import_metadata_from_json_file (Ragged.json_load document))
      [] in
  Ragged.fields row
    = [(str "database_name", Some (str "db"));
       (str "table_name", Some (str "t")); (str "column_name", None)]
  /\ st = [(str "db",
            [(str "t", [(Some table_properties, []); (None, [])])])]
  /\ document
     = [(str "db",
         [(str "t", [(table_properties, []); (str "null", [])])])]
  /\ st' = [(str "db",
             [(str "t", [(Some table_properties, []);
                         (Some (str "null"), [])])])]
  /\ st' <> st.
Proof.
  cbv zeta; repeat split; try (vm_compute; reflexivity).
  vm_compute; discriminate.
Qed.

End RoundTrip.

(* ================================================================== *)
(** * Further properties of the store (metadata.py) *)
(* ================================================================== *)

Section StoreLookups.

Lemma ensure_table_entry_absent (d t : text) (st : store) :
  table_entry d t st = None ->
  table_entry d t (ensure_table d t st) = Some new_table.
Proof.
  intros A; unfold ensure_table.
  destruct (ensure_db_has d st) as [tbls H].
  assert (N : getitem t tbls = None).
  { unfold ensure_db, table_entry in *.
    destruct (mem d st) eqn:E.
    - rewrite H in A; exact A.
    - rewrite getitem_setitem_same in H; inversion H; reflexivity. }
  unfold table_entry.
  rewrite (update_present d _ tbls _ H), getitem_setitem_same.
  unfold mem; rewrite N; apply getitem_setitem_same.
Qed.

Lemma table_entry_put (d t c : text) (p : props) (st : store)
      (cols : columns) :
  table_entry d t st = Some cols ->
  table_entry d t (put_column d t c p st) = Some (setitem c p cols).
Proof.
  unfold table_entry; intros H.
  destruct (getitem d st) as [tbls|] eqn:H1; [|discriminate].
  unfold put_column; rewrite (update_table_eq d t _ st tbls cols H1 H).
  rewrite getitem_setitem_same; apply getitem_setitem_same.
Qed.

Lemma add_column_replaces_column
      (c t : text) (o : option text) (properties : option props)
      (desc : option text) (st : store) :
  column_entry (or_default (fst (qualify t o))) (snd (qualify t o)) c
    (exec (add_column c t o properties desc) st)
  = Some (bag properties desc).
Proof.
  destruct (qualify t o) as [o1 t1] eqn:Q; simpl fst; simpl snd.
  unfold exec; rewrite (add_column_run c t t1 o o1 properties desc st Q).
  simpl snd.
  destruct (ensure_table_has (or_default o1) t1 st) as [tbls [cols [H1 H2]]].
  apply (column_entry_put _ t1 c _ _ tbls cols H1 H2).
Qed.

(** X1.  [add_column] on a table that is not registered creates the table,
    with an empty reserved slot, and then stores the column. *)
Theorem add_column_creates_table
        (c t : text) (o : option text) (properties : option props)
        (desc : option text) (st : store) :
  let d := or_default (fst (qualify t o)) in
  let t1 := snd (qualify t o) in
  table_entry d t1 st = None ->
  c <> table_properties ->
  table_entry d t1 (exec (add_column c t o properties desc) st)
    = Some [(table_properties, []); (c, bag properties desc)].
Proof.
  destruct (qualify t o) as [o1 t1] eqn:Q; simpl fst; simpl snd; cbv zeta.
  intros A N; unfold exec.
  rewrite (add_column_run c t t1 o o1 properties desc st Q); simpl snd.
  rewrite (table_entry_put _ _ _ _ _ new_table
             (ensure_table_entry_absent _ _ _ A)).
  unfold new_table; cbn [setitem].
  replace (text_eqb c table_properties) with false
    by (symmetry; apply text_eqb_neq; exact N).
  reflexivity.
Qed.

Lemma add_column_creates_table_witness :
  table_entry (str "sales") (str "orders")
    (exec (add_column (str "amount") (str "sales.orders") None None
                      (Some (str "net amount"))) empty)
  = Some [(table_properties, []);
          (str "amount", [(description_key, str "net amount")])].
Proof.
  apply (add_column_creates_table (str "amount") (str "sales.orders") None
           None (Some (str "net amount")) empty).
  - reflexivity.
  - vm_compute; discriminate.
Defined.








Lemma get_column_description_entry (d t c : text) (st : store) (p : props) :
  d <> [] -> column_entry d t c st = Some p ->
  get_column_description c t (Some d) st = get_or description_key [] p.
Proof.
  intros D H; unfold get_column_description.
  rewrite qualify_given by (destruct d; [congruence | reflexivity]).
  rewrite (or_default_some d D), (column_exists_given d t c st D).
  unfold column_entry, table_entry in *.
  destruct (getitem d st) as [tbls|]; [|discriminate].
  destruct (getitem t tbls) as [cols|]; [|discriminate].
  unfold mem; rewrite H; reflexivity.
Qed.






(** X4.  After [add_column] the column exists, [get_columns] lists it, and a
    description given with it is read back. *)
Theorem add_column_then_lookup
        (c t : text) (o : option text) (properties : option props)
        (desc : option text) (st : store) :
  let st' := exec (add_column c t o properties desc) st in
  column_exists t c o st' = true
  /\ In c (get_columns t o st')
  /\ (forall x y, desc = Some (x :: y) ->
                  get_column_description c t o st' = x :: y).
Proof.
  destruct (qualify t o) as [o1 t1] eqn:Q.
  set (d := or_default o1).
  assert (D : d <> []) by apply or_default_nonempty.
  assert (Q' : qualify t1 (Some d) = (Some d, t1))
    by apply qualify_given, falsy_or_default.
  pose proof (add_column_replaces_column c t o properties desc st) as E.
  rewrite Q in E; simpl fst in E; simpl snd in E; fold d in E.
  cbv zeta. split; [|split].
  - unfold column_exists; rewrite Q; fold d.
    unfold column_entry in E.
    destruct (getitem d _) as [tbls|]; [|discriminate].
    destruct (getitem t1 tbls) as [cols|]; [|discriminate].
    unfold mem; rewrite E; reflexivity.
  - unfold get_columns; rewrite Q; fold d.
    unfold column_entry in E.
    destruct (getitem d _) as [tbls|]; [|discriminate].
    destruct (getitem t1 tbls) as [cols|]; [|discriminate].
    apply (getitem_in_keys c cols _ E).
  - intros x y ->.
    assert (G : forall st', get_column_description c t o st'
                            = get_column_description c t1 (Some d) st').
    { intros st'; unfold get_column_description; rewrite Q, Q'.
      fold d; rewrite (or_default_some d D); reflexivity. }
    rewrite G, (get_column_description_entry d t1 c _ _ D E).
    unfold bag, get_or; rewrite getitem_setitem_same; reflexivity.
Qed.

Lemma add_column_then_lookup_witness :
  get_column_description (str "c") (str "t") None
    (exec (add_column (str "c") (str "t") None None (Some (str "d"))) empty)
  = str "d".
Proof.
  apply (proj2 (proj2 (add_column_then_lookup
                         (str "c") (str "t") None None (Some (str "d"))
                         empty))
               "d"%char []).
  reflexivity.
Defined.

End StoreLookups.

Section NothingLost.





Lemma props_le_refl (p : props) : (fun _ _ : props => True) p p.
Proof. exact I. Qed.

































End NothingLost.

Section StoreComposition.

Lemma column_entry_put_other (d t c d' t' c' : text) (p : props)
      (st : store) :
  (d', t', c') <> (d, t, c) ->
  column_entry d' t' c' (put_column d t c p st) = column_entry d' t' c' st.
Proof.
  intros N; unfold column_entry, put_column.
  destruct (text_eqb d' d) eqn:Ed.
  - apply text_eqb_eq in Ed; subst d'.
    rewrite getitem_update_same.
    destruct (getitem d st) as [tbls|]; [|reflexivity]; simpl.
    destruct (text_eqb t' t) eqn:Et.
    + apply text_eqb_eq in Et; subst t'.
      rewrite getitem_update_same.
      destruct (getitem t tbls) as [cols|]; [|reflexivity]; simpl.
      apply getitem_setitem_other; congruence.
    + apply text_eqb_neq in Et.
      rewrite (getitem_update_other t' t _ tbls Et); reflexivity.
  - apply text_eqb_neq in Ed.
    rewrite (getitem_update_other d' d _ st Ed); reflexivity.
Qed.

Lemma ensure_db_keeps_entry (d d' t' c' : text) (p : props) (st : store) :
  column_entry d' t' c' st = Some p ->
  column_entry d' t' c' (ensure_db d st) = Some p.
Proof.
  intros H; unfold ensure_db; destruct (mem d st) eqn:E; [exact H|].
  unfold column_entry in *.
  destruct (getitem d' st) as [tbls|] eqn:H1; [|discriminate].
  assert (N : d' <> d).
  { intros ->; unfold mem in E; rewrite H1 in E; discriminate. }
  rewrite (getitem_setitem_other d' d _ st N), H1; exact H.
Qed.

Lemma ensure_table_keeps_entry (d t d' t' c' : text) (p : props)
      (st : store) :
  column_entry d' t' c' st = Some p ->
  column_entry d' t' c' (ensure_table d t st) = Some p.
Proof.
  intros H; unfold ensure_table.
  pose proof (ensure_db_keeps_entry d d' t' c' p st H) as H'.
  revert H'; generalize (ensure_db d st); intros st1 H1.
  unfold column_entry in *.
  destruct (text_eqb d' d) eqn:Ed.
  - apply text_eqb_eq in Ed; subst d'.
    rewrite getitem_update_same.
    destruct (getitem d st1) as [tbls|]; [|discriminate]; simpl.
    destruct (mem t tbls) eqn:E; [exact H1|].
    destruct (getitem t' tbls) as [cols|] eqn:H2; [|discriminate].
    assert (N : t' <> t).
    { intros ->; unfold mem in E; rewrite H2 in E; discriminate. }
    rewrite (getitem_setitem_other t' t _ tbls N), H2; exact H1.
  - apply text_eqb_neq in Ed.
    rewrite (getitem_update_other d' d _ st1 Ed); exact H1.
Qed.

(** X6.  A call of [add_column] that writes into no dictionary of its
    caller, that is, a call without [properties] or without a
    description, changes the bag of its own column only: every other
    column registered anywhere in the store keeps its bag. *)
Theorem add_column_leaves_other_columns
        (c t : text) (o : option text) (properties : option props)
        (desc : option text) (st : store)
        (d' t' c' : text) (p : props) :
  properties = None \/ falsy desc = true ->
  column_entry d' t' c' st = Some p ->
  (d', t', c') <> (or_default (fst (qualify t o)), snd (qualify t o), c) ->
  column_entry d' t' c' (exec (add_column c t o properties desc) st) = Some p.
Proof.
  destruct (qualify t o) as [o1 t1] eqn:Q; simpl fst; simpl snd.
  intros _ H N; unfold exec.
  rewrite (add_column_run c t t1 o o1 properties desc st Q); simpl snd.
  rewrite (column_entry_put_other _ _ _ _ _ _ _ _ N).
  apply ensure_table_keeps_entry, H.
Qed.

Lemma add_column_leaves_other_columns_witness :
  column_entry default_db (str "t") (str "c")
    (exec (add_column (str "e") (str "t") None None (Some (str "d")))
          store_with_a)
  = Some [(str "a", str "1")].
Proof.
  apply (add_column_leaves_other_columns
           (str "e") (str "t") None None (Some (str "d"))
           store_with_a default_db (str "t") (str "c")).
  - left; reflexivity.
  - reflexivity.
  - vm_compute; discriminate.
Defined.

Lemma ensure_db_idem (d : text) (st : store) :
  ensure_db d (ensure_db d st) = ensure_db d st.
Proof.
  destruct (ensure_db_has d st) as [tbls H].
  unfold ensure_db at 1; unfold mem; rewrite H; reflexivity.
Qed.

Lemma describe_twice (desc : text) (p : props) :
  describe desc (describe desc p) = describe desc p.
Proof. apply setitem_twice. Qed.

Lemma describe_slot_twice (desc : text) (cols : columns) :
  let f := fun cols : columns =>
             update table_properties (describe desc)
               (if mem table_properties cols then cols
                else setitem table_properties [] cols) in
  f (f cols) = f cols.
Proof.
  cbv zeta.
  set (cols1 := if mem table_properties cols then cols
                else setitem table_properties [] cols).
  assert (H : exists p, getitem table_properties cols1 = Some p).
  { unfold cols1; destruct (mem table_properties cols) eqn:E.
    - apply mem_true, E.
    - exists []; apply getitem_setitem_same. }
  destruct H as [p H].
  rewrite (update_present _ _ p cols1 H).
  unfold mem; rewrite getitem_setitem_same.
  rewrite (update_present _ _ (describe desc p) _
             (getitem_setitem_same _ _ _)).
  rewrite describe_twice, setitem_twice; reflexivity.
Qed.

Lemma describe_table_idem (d t desc : text) (st : store) :
  describe_table d t desc (describe_table d t desc st)
  = describe_table d t desc st.
Proof.
  unfold describe_table; rewrite update_update.
  apply update_ext; intros tbls _.
  rewrite update_update.
  apply update_ext; intros cols _.
  apply (describe_slot_twice desc cols).
Qed.

Lemma ensure_table_described (d t desc : text) (st : store) :
  ensure_table d t (describe_table d t desc (ensure_table d t st))
  = describe_table d t desc (ensure_table d t st).
Proof.
  destruct (ensure_table_has d t st) as [tbls [cols [H1 H2]]].
  unfold describe_table.
  rewrite (update_table_eq d t _ _ tbls cols H1 H2).
  eapply ensure_table_present; apply getitem_setitem_same.
Qed.

(** X7.  [add_database] and [add_table] are safe to repeat: a second call
    with the same arguments, description included, changes nothing. *)
Theorem add_table_twice_is_once (t : text) (o desc : option text)
        (d : text) (st : store) :
  exec (add_table t o desc) (exec (add_table t o desc) st)
    = exec (add_table t o desc) st
  /\ exec (add_database d) (exec (add_database d) st)
     = exec (add_database d) st.
Proof.
  split.
  - destruct (qualify t o) as [o1 t1] eqn:Q.
    unfold exec; rewrite !(add_table_run t t1 o o1 desc _ Q); simpl snd.
    unfold add_table_result.
    destruct desc as [[|x y]|]; try apply ensure_table_idem.
    rewrite ensure_table_described; apply describe_table_idem.
  - unfold exec; rewrite !add_database_run; apply ensure_db_idem.
Qed.

End StoreComposition.

Section CsvImport.

Lemma missing_field_raises (f : csv_file) (field : text) (st : store) :
  In field required_fields -> is_in field (fieldnames f) = false ->
  import_csv_data f st = (None, st).
Proof.
  intros R Mi; unfold import_csv_data.
  destruct (filter (fun field => negb (is_in field (fieldnames f)))
                   required_fields) as [|x l] eqn:E; [|reflexivity].
  exfalso.
  assert (In field (filter (fun field => negb (is_in field (fieldnames f)))
                           required_fields))
    by (apply filter_In; split; [exact R | rewrite Mi; reflexivity]).
  rewrite E in H; exact H.
Qed.

(** X8.  A CSV file whose header lacks one of [database_name], [table_name],
    [column_name] changes nothing, whatever its rows, and the error does
    not leave the import call, be the file read or pasted. *)
Theorem csv_without_required_header_is_ignored
        (f : csv_file) (field : text) (st : store) :
  In field required_fields -> is_in field (fieldnames f) = false ->
  exec (import_metadata_from_csv (Some f)) st = st
  /\ returns (import_metadata_from_csv (Some f)) st = true
  /\ exec (process_pasted_metadata (PastedCsv (Some f))) st = st
  /\ returns (process_pasted_metadata (PastedCsv (Some f))) st = true.
Proof.
  intros R Mi; pose proof (missing_field_raises f field st R Mi) as E.
  unfold exec, returns; simpl; unfold try_except; rewrite E; auto.
Qed.

Lemma csv_without_required_header_is_ignored_witness :
  exec (import_metadata_from_csv
          (Some (CsvFile [str "table_name"; str "column_name"]
                         [[(str "table_name", str "t");
                           (str "column_name", str "c")]])))
       store_with_a = store_with_a.
Proof.
  apply (csv_without_required_header_is_ignored
           (CsvFile [str "table_name"; str "column_name"]
                    [[(str "table_name", str "t");
                      (str "column_name", str "c")]])
           (str "database_name") store_with_a).
  - left; reflexivity.
  - reflexivity.
Defined.

Lemma existsb_text_eqb (k : text) (l : list text) :
  existsb (text_eqb k) l = true <-> In k l.
Proof.
  rewrite existsb_exists; split.
  - intros [x [H E]]; apply text_eqb_eq in E; subst; exact H.
  - intros H; exists k; split; [exact H | apply text_eqb_refl].
Qed.

Lemma row_properties_fold (row : dict text) (k : text) (ks : list text) :
  forall acc : props,
    getitem k
      (fold_left
         (fun (properties : props) key =>
            let value := get_or key [] row in
            if negb (is_in key required_fields) && nonempty value
            then setitem key value properties else properties)
         ks acc)
    = if existsb (text_eqb k) ks
         && (negb (is_in k required_fields) && nonempty (get_or k [] row))
      then Some (get_or k [] row)
      else getitem k acc.
Proof.
  induction ks as [|x ks IH]; intros acc; [reflexivity|].
  cbn [fold_left existsb]; rewrite IH; cbv zeta.
  destruct (text_eqb k x) eqn:Ex.
  - apply text_eqb_eq in Ex; subst x; rewrite orb_true_l.
    destruct (negb (is_in k required_fields)
              && nonempty (get_or k [] row)) eqn:C.
    + rewrite andb_true_r, getitem_setitem_same.
      destruct (existsb (text_eqb k) ks); reflexivity.
    + rewrite !andb_false_r; reflexivity.
  - rewrite orb_false_l.
    destruct (existsb (text_eqb k) ks
              && (negb (is_in k required_fields)
                  && nonempty (get_or k [] row))); [reflexivity|].
    destruct (negb (is_in x required_fields)
              && nonempty (get_or x [] row)); [|reflexivity].
    apply getitem_setitem_other, text_eqb_neq, Ex.
Qed.

(** X9.  A row of a CSV file is stored by [add_column] under its database
    (['default'] when the field is empty), table and column, with the bag
    of its other fields that are not empty: a key is in the bag exactly
    when it is not one of the three required fields and the row holds a
    non-empty value for it, which is then the value stored. *)
Theorem csv_row_is_stored_with_its_extra_fields
        (names : list text) (row : dict text) (db t c : text) (st : store) :
  (forall field, In field required_fields -> is_in field names = true) ->
  getitem (str "database_name") row = Some db ->
  getitem (str "table_name") row = Some t ->
  getitem (str "column_name") row = Some c ->
  exec (import_metadata_from_csv (Some (CsvFile names [row]))) st
    = exec (add_column c t (Some (if nonempty db then db else default_db))
                       (Some (row_properties row)) None) st
  /\ (forall k v,
         getitem k (row_properties row) = Some v <->
         is_in k required_fields = false /\ v <> [] /\
         getitem k row = Some v).
Proof.
  intros F Hd Ht Hc; split.
  - unfold exec, import_metadata_from_csv, try_except; cbn [snd].
    unfold import_csv_data; cbn [fieldnames csv_rows].
    replace (filter (fun field => negb (is_in field names)) required_fields)
      with (@nil text).
    + cbn [for_each]. unfold index; rewrite Hd, Ht, Hc.
      unfold bind at 1; unfold ret at 1.
      unfold bind at 1; unfold ret at 1.
      unfold bind at 1; unfold ret at 1.
      fold (row_properties row).
      unfold bind.
      destruct (add_column c t _ _ None st) as [[[]|] st']; reflexivity.
    + symmetry.
      assert (F' : Forall (fun x => negb (is_in x names) = false)
                          required_fields).
      { apply Forall_forall; intros x Hx; rewrite (F x Hx); reflexivity. }
      clear -F'; induction F' as [|x l Hx _ IH]; simpl; [reflexivity|].
      rewrite Hx; exact IH.
  - intros k v; unfold row_properties; rewrite row_properties_fold.
    cbn [getitem].
    destruct (existsb (text_eqb k) (keys row)) eqn:E; cbn [andb].
    + destruct (is_in k required_fields) eqn:R; cbn [negb andb].
      * split; [discriminate | intros [? _]; discriminate].
      * apply existsb_text_eqb, in_keys_getitem in E.
        destruct E as [v0 E]; unfold get_or; rewrite E.
        destruct v0 as [|x y]; cbn [nonempty].
        -- split; [discriminate|].
           intros [_ [N H]]; inversion H; subst; congruence.
        -- split.
           ++ intros H; inversion H; subst; repeat split; discriminate.
           ++ intros [_ [_ H]]; exact H.
    + split; [discriminate|].
      intros [_ [_ H]].
      apply getitem_in_keys, existsb_text_eqb in H; congruence.
Qed.

Lemma csv_row_is_stored_with_its_extra_fields_witness :
  exec (import_metadata_from_csv
          (Some (CsvFile
                   [str "database_name"; str "table_name"; str "column_name";
                    str "data_type"; str "note"]
                   [[(str "database_name", []); (str "table_name", str "t");
                     (str "column_name", str "c");
                     (str "data_type", str "INT"); (str "note", [])]])))
       empty
  = [(default_db,
      [(str "t", [(table_properties, []);
                  (str "c", [(str "data_type", str "INT")])])])].
Proof.
  assert (F : forall field, In field required_fields ->
                is_in field [str "database_name"; str "table_name";
                             str "column_name"; str "data_type"; str "note"]
                = true)
    by (intros field [<-|[<-|[<-|[]]]]; reflexivity).
  destruct (csv_row_is_stored_with_its_extra_fields
              [str "database_name"; str "table_name"; str "column_name";
               str "data_type"; str "note"]
              [(str "database_name", []); (str "table_name", str "t");
               (str "column_name", str "c");
               (str "data_type", str "INT"); (str "note", [])]
              [] (str "t") (str "c") empty F eq_refl eq_refl eq_refl)
    as [E _].
  rewrite E; vm_compute; reflexivity.
Defined.

End CsvImport.

(* ================================================================== *)
(** * Further properties of the resolver (analyzer.py) *)
(* ================================================================== *)

Section LongestMatch.

Lemma last_prev_cons (p : option ascii) (c : ascii) (g : text) :
  last_prev p (c :: g) = last_prev (Some c) g.
Proof. reflexivity. Qed.

(** A greedy run takes the whole of [g] when the continuation accepts
    what follows. *)
Lemma greedy_class_longest (f : ascii -> bool)
      (k : mstate -> option mstate) (cs : list (nat * text))
      (g r : text) (m : mstate) :
  forallb f g = true -> stops f r ->
  forall p,
    k (MState (last_prev p g) r cs) = Some m ->
    greedy_class f k p (g ++ r) cs = Some m.
Proof.
  intros F S; induction g as [|c g IH]; intros p K.
  - simpl in *. destruct r as [|c r]; simpl; [exact K|].
    simpl in S; rewrite S; exact K.
  - simpl in F; apply andb_true_iff in F; destruct F as [Fc Fg].
    simpl; rewrite Fc, (IH Fg (Some c) K); reflexivity.
Qed.

Lemma run_plus_longest (f : ascii -> bool) (k : mstate -> option mstate)
      (p : option ascii) (c : ascii) (g r : text) (cs : list (nat * text))
      (m : mstate) :
  f c = true -> forallb f g = true -> stops f r ->
  k (MState (last_prev (Some c) g) r cs) = Some m ->
  run (plus (Chr f)) k (MState p (c :: g ++ r) cs) = Some m.
Proof.
  intros C F S K; unfold plus.
  rewrite run_seq, run_chr, C, run_star_class.
  apply greedy_class_longest; assumption.
Qed.

Lemma firstn_taken {A} (a b : list A) :
  firstn (length (a ++ b) - length b) (a ++ b) = a.
Proof.
  rewrite length_app, Nat.add_sub.
  rewrite firstn_app, Nat.sub_diag, firstn_all; simpl.
  apply app_nil_r.
Qed.

(** A group over one or more characters of a class captures the whole
    run. *)
Lemma run_group_plus_longest (i : nat) (f : ascii -> bool)
      (k : mstate -> option mstate)
      (p : option ascii) (c : ascii) (g r : text) (cs : list (nat * text))
      (m : mstate) :
  f c = true -> forallb f g = true -> stops f r ->
  k (MState (last_prev (Some c) g) r ((i, c :: g) :: cs)) = Some m ->
  run (Group i (plus (Chr f))) k (MState p (c :: g ++ r) cs) = Some m.
Proof.
  intros C F S K; rewrite run_group.
  apply run_plus_longest; try assumption.
  cbn [prev rest caps].
  change (c :: g ++ r) with ((c :: g) ++ r).
  rewrite firstn_taken; exact K.
Qed.

Lemma search_from_found (r : regex) (p : option ascii) (s : text)
      (m : mstate) :
  match_at r p s = Some m -> search_from r p s = Some m.
Proof. intros H; destruct s; simpl; rewrite H; reflexivity. Qed.

(** A pattern that needs the character [ch] finds nothing in a text
    without it. *)
Lemma search_from_needs (r : regex) (ch : ascii) (s : text) :
  (forall p s' m, match_at r p s' = Some m -> In ch s') ->
  ~ In ch s ->
  forall p, search_from r p s = None.
Proof.
  intros Need; induction s as [|c s IH]; intros N p; simpl.
  - destruct (match_at r p []) eqn:E; [|reflexivity].
    exfalso; exact (Need _ _ _ E).
  - destruct (match_at r p (c :: s)) eqn:E.
    + exfalso; exact (N (Need _ _ _ E)).
    + apply IH; intros H; apply N; right; exact H.
Qed.

Lemma qualified_needs_dot (p : option ascii) (s : text) (m : mstate) :
  match_at qualified_column p s = Some m -> In "."%char s.
Proof.
  intros H; destruct (match_qualified_sound p s m H)
    as [c1 [g1 [c2 [r [E _]]]]].
  subst s; right; apply in_or_app; right; left; reflexivity.
Qed.

Lemma function_call_eq :
  function_call
  = Seq (Group 1 (plus (Chr is_ident)))
        (Seq (Chr (chr_eqb "("%char))
             (Seq (Group 2 (plus (Chr not_close)))
                  (Chr (chr_eqb ")"%char)))).
Proof. reflexivity. Qed.

Lemma function_open_eq :
  function_open
  = Seq (Group 1 (plus (Chr is_ident))) (Chr (chr_eqb "("%char)).
Proof. reflexivity. Qed.

Lemma ident_then_paren (k : mstate -> option mstate) (p : option ascii)
      (s : text) (cs : list (nat * text)) (m : mstate) (b : regex) :
  run (Seq (Group 1 (plus (Chr is_ident))) (Seq (Chr (chr_eqb "("%char)) b))
      k (MState p s cs) = Some m ->
  In "("%char s.
Proof.
  rewrite run_seq, run_group; unfold plus; intros H.
  destruct (run_ident1_sound _ _ _ _ _ H) as [c [g [r [p' [E [_ [_ K]]]]]]].
  cbn [prev rest caps] in K. rewrite run_seq, run_chr in K.
  destruct r as [|x r]; [discriminate|].
  destruct (chr_eqb "(" x) eqn:X; [|discriminate].
  apply chr_eqb_eq in X; subst x s.
  right; apply in_or_app; right; left; reflexivity.
Qed.

Lemma function_call_needs_paren (p : option ascii) (s : text) (m : mstate) :
  match_at function_call p s = Some m -> In "("%char s.
Proof.
  unfold match_at; rewrite function_call_eq; apply ident_then_paren.
Qed.

Lemma function_open_needs_paren (p : option ascii) (s : text) (m : mstate) :
  match_at function_open p s = Some m -> In "("%char s.
Proof.
  unfold match_at; rewrite function_open_eq, run_seq, run_group.
  unfold plus; intros H.
  destruct (run_ident1_sound _ _ _ _ _ H) as [c [g [r [p' [E [_ [_ K]]]]]]].
  cbn [prev rest caps] in K. rewrite run_chr in K.
  destruct r as [|x r]; [discriminate|].
  destruct (chr_eqb "(" x) eqn:X; [|discriminate].
  apply chr_eqb_eq in X; subst x s.
  right; apply in_or_app; right; left; reflexivity.
Qed.

Lemma ident_text_no (ch : ascii) (s : text) :
  is_ident ch = false -> forallb is_ident s = true -> ~ In ch s.
Proof.
  intros C F H; rewrite forallb_forall in F; rewrite (F _ H) in C.
  discriminate.
Qed.

End LongestMatch.

Section ResolverRules.

Lemma is_identifier_cons (s : text) :
  is_identifier s = true ->
  exists c g, s = c :: g /\ is_ident c = true /\ forallb is_ident g = true.
Proof.
  unfold is_identifier; destruct s as [|c g]; [discriminate|].
  cbn [nonempty andb forallb]; intros H.
  apply andb_true_iff in H; destruct H as [C F].
  exists c, g; auto.
Qed.

Lemma is_identifier_all (s : text) :
  is_identifier s = true -> forallb is_ident s = true.
Proof.
  intros H; destruct (is_identifier_cons s H) as [c [g [E [C F]]]].
  subst s; simpl; rewrite C, F; reflexivity.
Qed.

(** The first [d] of a text lies behind every prefix without [d]. *)
Lemma prefix_before {A} (d : A) (l2 : list A) :
  forall l1 r1 r2,
    l1 ++ d :: r1 = l2 ++ r2 -> ~ In d l2 -> exists k, l1 = l2 ++ k.
Proof.
  induction l2 as [|y l2 IH]; intros l1 r1 r2 E N.
  - exists l1; reflexivity.
  - destruct l1 as [|z l1]; simpl in E.
    + inversion E; subst; exfalso; apply N; left; reflexivity.
    + inversion E; subst z.
      destruct (IH l1 r1 r2 H1) as [k K].
      * intros I; apply N; right; exact I.
      * exists k; subst l1; reflexivity.
Qed.

(** Inside a prefix that ends at a boundary and has no [d], no run of
    identifier characters is followed by [d]. *)
Lemma ident_then_not_in_prefix (d : ascii) (b s : text) :
  b <> [] -> ~ In d b -> boundary b -> ~ ident_then d (b ++ s).
Proof.
  intros NE N B [g [r [E F]]].
  destruct (prefix_before d b g r s (eq_sym E) N) as [k K].
  destruct (exists_last NE) as [b' [x X]].
  pose proof (B b' x X) as Ix.
  rewrite forallb_forall in F.
  assert (I : In x g).
  { subst g b; apply in_or_app; left; apply in_or_app; right; left;
      reflexivity. }
  rewrite (F x I) in Ix; discriminate.
Qed.

Lemma boundary_suffix (a b : text) :
  boundary (a ++ b) -> b <> [] -> boundary b.
Proof.
  intros B NE b' x E; apply (B (a ++ b') x).
  subst b; rewrite app_assoc; reflexivity.
Qed.

(** A search passes over a prefix in which the pattern matches nowhere. *)
Lemma search_from_skip (r : regex) (s : text) (pre : text) :
  (forall a b p', pre = a ++ b -> b <> [] -> match_at r p' (b ++ s) = None) ->
  forall p, search_from r p (pre ++ s) = search_from r (last_prev p pre) s.
Proof.
  induction pre as [|c pre IH]; intros H p; [reflexivity|].
  assert (E0 : match_at r p ((c :: pre) ++ s) = None)
    by (apply (H [] (c :: pre) p eq_refl); discriminate).
  rewrite last_prev_cons, <- IH.
  - change ((c :: pre) ++ s) with (c :: pre ++ s) in *.
    simpl; rewrite E0; reflexivity.
  - intros a b p' E NE; apply (H (c :: a) b p'); [|exact NE].
    subst pre; reflexivity.
Qed.

Lemma qualified_ident_then (s : text) :
  qualified_here s -> ident_then "."%char s.
Proof.
  intros [c1 [g1 [c2 [r [E [C1 [F1 _]]]]]]].
  exists (c1 :: g1), (c2 :: r); split; [exact E|].
  simpl; rewrite C1, F1; reflexivity.
Qed.

Lemma function_call_ident_then (p : option ascii) (s : text) (m : mstate) :
  match_at function_call p s = Some m -> ident_then "("%char s.
Proof.
  unfold match_at; rewrite function_call_eq, run_seq, run_group.
  unfold plus at 1; intros H.
  destruct (run_ident1_sound _ _ _ _ _ H) as [c [g [r [p' [E [C [F K]]]]]]].
  cbn [prev rest caps] in K. rewrite run_seq, run_chr in K.
  destruct r as [|x r]; [discriminate|].
  destruct (chr_eqb "(" x) eqn:X; [|discriminate].
  apply chr_eqb_eq in X; subst x s.
  exists (c :: g), r; split; [reflexivity|].
  simpl; rewrite C, F; reflexivity.
Qed.

Lemma function_open_ident_then (p : option ascii) (s : text) (m : mstate) :
  match_at function_open p s = Some m -> ident_then "("%char s.
Proof.
  unfold match_at; rewrite function_open_eq, run_seq, run_group.
  unfold plus; intros H.
  destruct (run_ident1_sound _ _ _ _ _ H) as [c [g [r [p' [E [C [F K]]]]]]].
  cbn [prev rest caps] in K. rewrite run_chr in K.
  destruct r as [|x r]; [discriminate|].
  destruct (chr_eqb "(" x) eqn:X; [|discriminate].
  apply chr_eqb_eq in X; subst x s.
  exists (c :: g), r; split; [reflexivity|].
  simpl; rewrite C, F; reflexivity.
Qed.

(** Where a qualified reference starts, the pattern captures exactly its
    two names. *)
Lemma match_qualified_exact (p : option ascii) (t c tail : text) :
  is_identifier t = true -> is_identifier c = true ->
  stops is_ident tail ->
  exists m, match_at qualified_column p (t ++ "."%char :: c ++ tail) = Some m
            /\ group 1 m = t /\ group 2 m = c.
Proof.
  intros T C S.
  destruct (is_identifier_cons t T) as [t0 [t' [Et [Ct Ft]]]].
  destruct (is_identifier_cons c C) as [c0 [c' [Ec [Cc Fc]]]].
  subst t c.
  exists (MState (last_prev (Some c0) c') tail
                 [(2, c0 :: c'); (1, t0 :: t')]).
  split; [|split; reflexivity].
  unfold match_at; rewrite qualified_column_eq, run_seq.
  change ((t0 :: t') ++ "."%char :: (c0 :: c') ++ tail)
    with (t0 :: t' ++ "."%char :: (c0 :: c') ++ tail).
  apply (run_group_plus_longest 1 is_ident); try assumption.
  - reflexivity.
  - rewrite run_seq, run_chr, chr_eqb_refl.
    change ((c0 :: c') ++ tail) with (c0 :: c' ++ tail).
    apply (run_group_plus_longest 2 is_ident); try assumption.
    reflexivity.
Qed.

(** The search finds the first qualified reference of a text whose part
    in front of it has no dot and ends at a boundary. *)
Lemma search_qualified_exact (pre t c tail : text) :
  ~ In "."%char pre -> boundary pre ->
  is_identifier t = true -> is_identifier c = true ->
  stops is_ident tail ->
  exists m,
    re_search qualified_column (pre ++ t ++ "."%char :: c ++ tail) = Some m
    /\ group 1 m = t /\ group 2 m = c.
Proof.
  intros N B T C S.
  destruct (match_qualified_exact (last_prev None pre) t c tail T C S)
    as [m [M G]].
  exists m; split; [|exact G].
  unfold re_search; rewrite search_from_skip.
  - apply search_from_found; exact M.
  - intros a b p' E NE.
    destruct (match_at qualified_column p' (b ++ t ++ "."%char :: c ++ tail))
      as [m'|] eqn:M'; [|reflexivity].
    exfalso.
    apply (ident_then_not_in_prefix "."%char b
             (t ++ "."%char :: c ++ tail) NE).
    + intros I; apply N; subst pre; apply in_or_app; right; exact I.
    + subst pre; exact (boundary_suffix a b B NE).
    + apply qualified_ident_then, (match_qualified_sound p' _ m' M').
Qed.

(** X11.  The first qualified reference of an expression is its source, and
    the column of that reference is the derived name: in an expression
    [pre t.c tail], where [pre] has no dot and does not end in an
    identifier character and [tail] does not go on with one,
    [_extract_column_source] returns [t.c] and [_derive_column_name]
    returns [c], whatever the source tables and the store. *)
Theorem first_qualified_reference_is_the_source
        (ms : store) (tables : list text) (pre t c tail : text) :
  ~ In "."%char pre -> boundary pre ->
  is_identifier t = true -> is_identifier c = true ->
  stops is_ident tail ->
  _extract_column_source ms (pre ++ t ++ "."%char :: c ++ tail) tables
    = t ++ str "." ++ c
  /\ _derive_column_name (pre ++ t ++ "."%char :: c ++ tail) = c.
Proof.
  intros N B T C S.
  destruct (search_qualified_exact pre t c tail N B T C S)
    as [m [M [G1 G2]]].
  unfold _extract_column_source, _derive_column_name.
  rewrite M, G1, G2; split; reflexivity.
Qed.

Lemma first_qualified_reference_is_the_source_witness :
  _extract_column_source empty (str "1 + ord.amount * 2") [str "x"]
    = str "ord.amount"
  /\ _derive_column_name (str "1 + ord.amount * 2") = str "amount".
Proof.
  apply (first_qualified_reference_is_the_source
           empty [str "x"] (str "1 + ") (str "ord") (str "amount")
           (str " * 2")).
  - vm_compute; intros H; repeat (destruct H as [H|H]; [discriminate|]);
      exact H.
  - intros b x E.
    assert (L : last (str "1 + ") x = last (b ++ [x]) x) by (rewrite E; reflexivity).
    rewrite last_last in L; rewrite <- L; reflexivity.
  - reflexivity.
  - reflexivity.
  - reflexivity.
Defined.

Lemma search_non_identifier_none (s : text) :
  forallb is_ident s = true ->
  forall p, search_from non_identifier p s = None.
Proof.
  induction s as [|c s IH]; intros F p; [reflexivity|].
  simpl in F; apply andb_true_iff in F; destruct F as [C F].
  cbn [search_from]; unfold match_at at 1, non_identifier at 1.
  rewrite run_chr, C; cbn [negb]. apply IH, F.
Qed.

Lemma match_bare_identifier (c : text) :
  is_identifier c = true -> re_match bare_identifier c <> None.
Proof.
  intros C; destruct (is_identifier_cons c C) as [c0 [c' [E [C0 F]]]].
  subst c; unfold re_match, match_at.
  change bare_identifier
    with (Seq Bol (Seq (plus (Chr is_ident)) (Eol false))).
  rewrite run_seq; cbn [run prev]; fold (plus (Chr is_ident)).
  rewrite <- (app_nil_r c').
  rewrite (run_plus_longest is_ident _ None c0 c' [] []
             (MState (last_prev (Some c0) c') [] []) C0 F I);
    [discriminate | reflexivity].
Qed.

(** How an identifier on its own is resolved. *)
Lemma extract_column_source_bare (ms : store) (c : text)
      (tables : list text) :
  is_identifier c = true ->
  _extract_column_source ms c tables
  = match find (fun table => column_exists table c None ms) tables with
    | Some table => table ++ str "." ++ c
    | None => c
    end.
Proof.
  intros C; pose proof (is_identifier_all c C) as F.
  unfold _extract_column_source, re_search.
  rewrite (search_from_needs qualified_column "."%char c
             qualified_needs_dot
             (ident_text_no "."%char c eq_refl F)).
  rewrite (search_from_needs function_call "("%char c
             function_call_needs_paren
             (ident_text_no "("%char c eq_refl F)).
  destruct (re_match bare_identifier c) eqn:M;
    [|exfalso; exact (match_bare_identifier c C M)].
  destruct tables; reflexivity.
Qed.

(** X12.  An unqualified column is bound to the first source table, in the
    order given, in which the store knows the column. *)
Theorem bare_column_takes_first_table_that_has_it
        (ms : store) (c t : text) (before after : list text) :
  is_identifier c = true ->
  (forall t', In t' before -> column_exists t' c None ms = false) ->
  column_exists t c None ms = true ->
  _extract_column_source ms c (before ++ t :: after) = t ++ str "." ++ c.
Proof.
  intros C Hb Ht; rewrite (extract_column_source_bare ms c _ C).
  induction before as [|b before IH]; simpl.
  - rewrite Ht; reflexivity.
  - rewrite (Hb b (or_introl eq_refl)); apply IH.
    intros t' I; apply Hb; right; exact I.
Qed.

Lemma bare_column_takes_first_table_that_has_it_witness :
  _extract_column_source store_s_xy (str "y") [str "r"; str "s"; str "q"]
  = str "s.y".
Proof.
  apply (bare_column_takes_first_table_that_has_it
           store_s_xy (str "y") (str "s") [str "r"] [str "q"]).
  - reflexivity.
  - intros t' [<-|[]]; reflexivity.
  - reflexivity.
Defined.

(** X13.  An unqualified column that no source table is known to have is
    returned unchanged; in particular with an empty store or no source
    tables. *)
Theorem unknown_bare_column_stays_bare
        (ms : store) (c : text) (tables : list text) :
  is_identifier c = true ->
  (forall t, In t tables -> column_exists t c None ms = false) ->
  _extract_column_source ms c tables = c.
Proof.
  intros C H; rewrite (extract_column_source_bare ms c _ C).
  induction tables as [|t tables IH]; simpl; [reflexivity|].
  rewrite (H t (or_introl eq_refl)); apply IH.
  intros t' I; apply H; right; exact I.
Qed.

Lemma unknown_bare_column_stays_bare_witness :
  _extract_column_source store_s_xy (str "z") [str "r"; str "s"] = str "z".
Proof.
  apply (unknown_bare_column_stays_bare store_s_xy (str "z")
           [str "r"; str "s"]).
  - reflexivity.
  - intros t [<-|[<-|[]]]; reflexivity.
Defined.

(** X14.  An expression that is one identifier names itself when it has at
    most 30 characters and is named [derived_column] when it is
    longer. *)
Theorem derive_column_name_of_identifier (expr : text) :
  is_identifier expr = true ->
  _derive_column_name expr
  = if length expr <=? 30 then expr else str "derived_column".
Proof.
  intros C; pose proof (is_identifier_all expr C) as F.
  unfold _derive_column_name, re_search.
  rewrite (search_from_needs qualified_column "."%char expr
             qualified_needs_dot
             (ident_text_no "."%char expr eq_refl F)).
  rewrite (search_from_needs function_open "("%char expr
             function_open_needs_paren
             (ident_text_no "("%char expr eq_refl F)).
  rewrite (search_non_identifier_none expr F None).
  rewrite andb_true_r; reflexivity.
Qed.

Lemma derive_column_name_of_identifier_witness :
  _derive_column_name (str "a_column_name_of_more_than_30_characters")
  = str "derived_column".
Proof.
  apply (derive_column_name_of_identifier
           (str "a_column_name_of_more_than_30_characters")).
  reflexivity.
Defined.

Lemma not_close_all (args : text) :
  ~ In ")"%char args -> forallb not_close args = true.
Proof.
  intros N; apply forallb_forall; intros x I.
  unfold not_close, no_class; cbn [orb existsb str list_ascii_of_string].
  rewrite orb_false_r.
  destruct (chr_eqb x ")") eqn:E; [|reflexivity].
  apply chr_eqb_eq in E; subst x; exfalso; exact (N I).
Qed.

(** Where a call starts, the pattern captures the name and the text
    between the parentheses. *)
Lemma match_function_call_exact (p : option ascii) (name args tail : text) :
  is_identifier name = true -> args <> [] -> ~ In ")"%char args ->
  exists m,
    match_at function_call p (name ++ "("%char :: args ++ ")"%char :: tail)
      = Some m
    /\ group 1 m = name /\ group 2 m = args.
Proof.
  intros Nm NE NC.
  destruct (is_identifier_cons name Nm) as [n0 [n' [En [Cn Fn]]]].
  destruct args as [|a0 a']; [congruence|].
  pose proof (not_close_all (a0 :: a') NC) as Fa.
  simpl in Fa; apply andb_true_iff in Fa; destruct Fa as [Ca Fa].
  subst name.
  exists (MState (Some ")"%char) tail [(2, a0 :: a'); (1, n0 :: n')]).
  split; [|split; reflexivity].
  unfold match_at; rewrite function_call_eq, run_seq.
  change ((n0 :: n') ++ "("%char :: (a0 :: a') ++ ")"%char :: tail)
    with (n0 :: n' ++ "("%char :: (a0 :: a') ++ ")"%char :: tail).
  apply (run_group_plus_longest 1 is_ident); try assumption.
  - reflexivity.
  - rewrite run_seq, run_chr, chr_eqb_refl, run_seq.
    change ((a0 :: a') ++ ")"%char :: tail)
      with (a0 :: a' ++ ")"%char :: tail).
    apply (run_group_plus_longest 2 not_close); try assumption.
    + reflexivity.
    + rewrite run_chr, chr_eqb_refl; reflexivity.
Qed.

Lemma match_function_open_exact (p : option ascii) (name tail : text) :
  is_identifier name = true ->
  exists m,
    match_at function_open p (name ++ "("%char :: tail) = Some m
    /\ group 1 m = name.
Proof.
  intros Nm.
  destruct (is_identifier_cons name Nm) as [n0 [n' [En [Cn Fn]]]].
  subst name.
  exists (MState (Some "("%char) tail [(1, n0 :: n')]).
  split; [|reflexivity].
  unfold match_at; rewrite function_open_eq, run_seq.
  change ((n0 :: n') ++ "("%char :: tail)
    with (n0 :: n' ++ "("%char :: tail).
  apply (run_group_plus_longest 1 is_ident); try assumption.
  - reflexivity.
  - rewrite run_chr, chr_eqb_refl; reflexivity.
Qed.

(** A search for a pattern that starts with an identifier and an opening
    parenthesis passes over a prefix without one. *)
Lemma search_skips_to_call (r : regex) (pre s : text) :
  (forall p s' m, match_at r p s' = Some m -> ident_then "("%char s') ->
  ~ In "("%char pre -> boundary pre ->
  forall p, search_from r p (pre ++ s) = search_from r (last_prev p pre) s.
Proof.
  intros Sound N B; apply search_from_skip.
  intros a b p' E NE.
  destruct (match_at r p' (b ++ s)) as [m'|] eqn:M'; [|reflexivity].
  exfalso; apply (ident_then_not_in_prefix "("%char b s NE).
  - intros I; apply N; subst pre; apply in_or_app; right; exact I.
  - subst pre; exact (boundary_suffix a b B NE).
  - exact (Sound p' _ m' M').
Qed.

(** X15.  A call without any dot is reported as a function, with its name
    and the text between its parentheses, and the derived name is the
    name of the function followed by [_result]. *)
Theorem plain_call_is_reported_as_function
        (ms : store) (tables : list text) (pre name args tail : text) :
  ~ In "."%char (pre ++ args ++ tail) ->
  ~ In "("%char pre -> boundary pre ->
  is_identifier name = true ->
  args <> [] -> ~ In ")"%char args ->
  _extract_column_source ms
      (pre ++ name ++ "("%char :: args ++ ")"%char :: tail) tables
    = str "Function: " ++ name ++ str "(" ++ args ++ str ")"
  /\ _derive_column_name
       (pre ++ name ++ "("%char :: args ++ ")"%char :: tail)
     = name ++ str "_result".
Proof.
  intros ND NP B Nm NE NC.
  pose proof (is_identifier_all name Nm) as Fn.
  assert (D : ~ In "."%char
                (pre ++ name ++ "("%char :: args ++ ")"%char :: tail)).
  { intros I. apply in_app_or in I; destruct I as [I|I].
    - apply ND, in_or_app; left; exact I.
    - apply in_app_or in I; destruct I as [I|I].
      + exact (ident_text_no "."%char name eq_refl Fn I).
      + destruct I as [I|I]; [discriminate|].
        apply in_app_or in I; destruct I as [I|I].
        * apply ND, in_or_app; right; apply in_or_app; left; exact I.
        * destruct I as [I|I]; [discriminate|].
          apply ND, in_or_app; right; apply in_or_app; right; exact I. }
  assert (Da : ~ In "."%char args).
  { intros I; apply ND, in_or_app; right; apply in_or_app; left; exact I. }
  destruct (match_function_call_exact (last_prev None pre) name args tail
              Nm NE NC) as [m [M [G1 G2]]].
  destruct (match_function_open_exact (last_prev None pre) name
              (args ++ ")"%char :: tail) Nm) as [m' [M' G1']].
  unfold _extract_column_source, _derive_column_name, re_search.
  rewrite (search_from_needs qualified_column "."%char _
             qualified_needs_dot D).
  rewrite (search_skips_to_call function_call pre _
             function_call_ident_then NP B).
  rewrite (search_skips_to_call function_open pre _
             function_open_ident_then NP B).
  rewrite (search_from_found _ _ _ _ M), (search_from_found _ _ _ _ M').
  cbv zeta; rewrite G1, G2, G1'.
  rewrite (search_from_needs qualified_column "."%char args
             qualified_needs_dot Da).
  split; reflexivity.
Qed.

Lemma plain_call_is_reported_as_function_witness :
  _extract_column_source empty (str "-round(price, 2) + 1") []
    = str "Function: round(price, 2)"
  /\ _derive_column_name (str "-round(price, 2) + 1") = str "round_result".
Proof.
  apply (plain_call_is_reported_as_function
           empty [] (str "-") (str "round") (str "price, 2") (str " + 1")).
  - vm_compute; intros H; repeat (destruct H as [H|H]; [discriminate|]);
      exact H.
  - intros [H|[]]; discriminate.
  - intros b x E.
    assert (L : last (str "-") x = last (b ++ [x]) x)
      by (rewrite E; reflexivity).
    rewrite last_last in L; rewrite <- L; reflexivity.
  - reflexivity.
  - discriminate.
  - vm_compute; intros H; repeat (destruct H as [H|H]; [discriminate|]);
      exact H.
Defined.

End ResolverRules.

(* ================================================================== *)
(** * Further properties of the column splitter (analyzer.py) *)
(* ================================================================== *)

Section SplitColumns.

Local Open Scope Z_scope.

Lemma split_step_plain (st : split_state) (c : ascii) :
  chr_eqb c "("%char = false -> chr_eqb c ")"%char = false ->
  chr_eqb c ","%char = false ->
  split_step st c
  = SplitState (columns_done st) (current_column st ++ [c])
               (parenthesis_level st).
Proof. intros A B C; unfold split_step; rewrite A, B, C; reflexivity. Qed.

Lemma split_chr_nonempty (sep : ascii) (s : text) : split_chr sep s <> [].
Proof.
  destruct s as [|c s]; simpl; [discriminate|].
  destruct (chr_eqb c sep); [discriminate|].
  destruct (split_chr sep s); discriminate.
Qed.

(** Without parentheses the loop cuts at every comma. *)
Lemma fold_split_step_flat (s : text) :
  ~ In "("%char s -> ~ In ")"%char s ->
  forall done cur,
    fold_left split_step s (SplitState done cur 0)
    = SplitState
        (done ++ map strip (removelast (prepend cur (split_chr ","%char s))))
        (last (prepend cur (split_chr ","%char s)) [])
        0.
Proof.
  induction s as [|c s IH]; intros NO NC done cur.
  - simpl; rewrite !app_nil_r; reflexivity.
  - assert (O : chr_eqb c "("%char = false).
    { apply chr_eqb_neq; intros E; apply NO; left; auto. }
    assert (C : chr_eqb c ")"%char = false).
    { apply chr_eqb_neq; intros E; apply NC; left; auto. }
    assert (NO' : ~ In "("%char s) by (intros I; apply NO; right; exact I).
    assert (NC' : ~ In ")"%char s) by (intros I; apply NC; right; exact I).
    cbn [fold_left split_chr].
    destruct (chr_eqb c ","%char) eqn:K.
    + unfold split_step; rewrite O, C, K; cbn [parenthesis_level
        columns_done current_column andb Z.eqb].
      rewrite (IH NO' NC'); cbn [prepend app].
      pose proof (split_chr_nonempty ","%char s) as NE.
      destruct (split_chr ","%char s) as [|p ps] eqn:E; [congruence|].
      cbn [prepend removelast last app map].
      rewrite app_nil_r, <- app_assoc; reflexivity.
    + rewrite (split_step_plain _ c O C K);
        cbn [columns_done current_column parenthesis_level].
      rewrite (IH NO' NC').
      pose proof (split_chr_nonempty ","%char s) as NE.
      destruct (split_chr ","%char s) as [|p ps] eqn:E; [congruence|].
      cbn [prepend]; rewrite <- app_assoc; reflexivity.
Qed.

(** X16.  On a text without parentheses [split_columns] agrees with
    [split(',')] followed by [strip] on every piece, except that a last
    piece that is empty (the text is empty or ends in a comma) is
    dropped. *)
Theorem split_columns_without_parentheses (s : text) :
  ~ In "("%char s -> ~ In ")"%char s ->
  split_columns s
    ++ (if nonempty (last (split_chr ","%char s) []) then [] else [[]])
  = map strip (split_chr ","%char s).
Proof.
  intros NO NC; unfold split_columns.
  rewrite (fold_split_step_flat s NO NC [] []).
  cbn [current_column columns_done app].
  pose proof (split_chr_nonempty ","%char s) as NE.
  destruct (split_chr ","%char s) as [|p ps] eqn:E; [congruence|].
  cbn [prepend app]; rewrite <- E in *; clear E p ps.
  set (L := split_chr ","%char s) in *.
  assert (EL : map strip L = map strip (removelast L) ++ [strip (last L [])]).
  { rewrite (app_removelast_last [] NE) at 1.
    rewrite map_app; reflexivity. }
  rewrite EL; destruct (last L []) as [|x l]; cbn [nonempty].
  - reflexivity.
  - rewrite app_nil_r; reflexivity.
Qed.

Lemma split_columns_without_parentheses_witness :
  split_columns (str "a , b,")
    ++ (if nonempty (last (split_chr ","%char (str "a , b,")) [])
        then [] else [[]])
  = map strip (split_chr ","%char (str "a , b,")).
Proof.
  apply (split_columns_without_parentheses (str "a , b,")).
  - vm_compute; intros H; repeat (destruct H as [H|H]; [discriminate|]);
      exact H.
  - vm_compute; intros H; repeat (destruct H as [H|H]; [discriminate|]);
      exact H.
Defined.

Lemma net_app (a b : text) : net (a ++ b) = net a + net b.
Proof.
  induction a as [|c a IH]; simpl; [reflexivity|]. rewrite IH; lia.
Qed.

(** The level after a text is the level before plus its [net]. *)
Lemma fold_split_step_level (s : text) :
  forall st,
    parenthesis_level (fold_left split_step s st)
    = parenthesis_level st + net s.
Proof.
  induction s as [|c s IH]; intros st; cbn [fold_left net]; [lia|].
  rewrite IH; unfold split_step.
  destruct (chr_eqb c "("%char); [cbn [parenthesis_level]; lia|].
  destruct (chr_eqb c ")"%char); [cbn [parenthesis_level]; lia|].
  destruct (chr_eqb c ","%char && _); cbn [parenthesis_level]; lia.
Qed.

(** A text in which no comma stands at level zero is kept whole. *)
Lemma fold_split_step_whole (s : text) :
  forall done cur lvl,
    (forall a b, s = a ++ ","%char :: b -> lvl + net a <> 0) ->
    fold_left split_step s (SplitState done cur lvl)
    = SplitState done (cur ++ s) (lvl + net s).
Proof.
  induction s as [|c s IH]; intros done cur lvl H.
  - simpl; rewrite app_nil_r; f_equal; lia.
  - assert (T : forall lvl' cur',
               lvl' = lvl + (if chr_eqb c "("%char then 1
                             else if chr_eqb c ")"%char then -1 else 0) ->
               cur' = cur ++ [c] ->
               fold_left split_step s (SplitState done cur' lvl')
               = SplitState done (cur ++ c :: s) (lvl + net (c :: s))).
    { intros lvl' cur' El Ec; subst cur'; rewrite IH.
      - rewrite <- app_assoc; cbn [net app]; f_equal; lia.
      - intros a b E; specialize (H (c :: a) b); cbn [net app] in H.
        subst s; specialize (H eq_refl); lia. }
    cbn [fold_left]; unfold split_step;
      cbn [columns_done current_column parenthesis_level].
    destruct (chr_eqb c "("%char) eqn:O; [apply T; [lia|reflexivity]|].
    destruct (chr_eqb c ")"%char) eqn:C; [apply T; [lia|reflexivity]|].
    destruct (chr_eqb c ","%char) eqn:K.
    + apply chr_eqb_eq in K; subst c.
      pose proof (H [] s eq_refl) as H0; cbn [net] in H0.
      replace (lvl =? 0) with false by (symmetry; apply Z.eqb_neq; lia).
      cbn [andb]; apply T; [lia|reflexivity].
    + cbn [andb]; apply T; [lia|reflexivity].
Qed.

(** X17.  Commas inside parentheses do not split.  A non-empty text in
    which every comma is preceded by unequal numbers of opening and
    closing parentheses is one column expression, stripped; an
    unmatched closing parenthesis counts, as it takes the level below
    zero. *)
Theorem commas_inside_parentheses_do_not_split (s : text) :
  s <> [] ->
  (forall a b, s = a ++ ","%char :: b -> net a <> 0) ->
  split_columns s = [strip s].
Proof.
  intros NE H; unfold split_columns.
  rewrite (fold_split_step_whole s [] [] 0 H).
  cbn [current_column columns_done app].
  destruct s; [congruence | reflexivity].
Qed.

Lemma commas_inside_parentheses_do_not_split_witness :
  split_columns (str "f(a, g(b, c)) ") = [str "f(a, g(b, c))"].
Proof.
  apply (commas_inside_parentheses_do_not_split (str "f(a, g(b, c)) ")).
  - discriminate.
  - intros a b E.
    repeat (destruct a as [|? a];
            [first [discriminate E | vm_compute; discriminate]
            |simpl in E; injection E as <- E]).
    destruct a; discriminate E.
Defined.

(** The pieces already cut do not influence the rest of the loop. *)
Lemma fold_split_step_done (s : text) :
  forall d0 done cur lvl,
    fold_left split_step s (SplitState (d0 ++ done) cur lvl)
    = let st := fold_left split_step s (SplitState done cur lvl) in
      SplitState (d0 ++ columns_done st) (current_column st)
                 (parenthesis_level st).
Proof.
  induction s as [|c s IH]; intros d0 done cur lvl; [reflexivity|].
  cbn [fold_left]; unfold split_step;
    cbn [columns_done current_column parenthesis_level].
  destruct (chr_eqb c "("%char); [apply IH|].
  destruct (chr_eqb c ")"%char); [apply IH|].
  destruct (chr_eqb c ","%char && (lvl =? 0)); [|apply IH].
  rewrite <- app_assoc; apply IH.
Qed.

(** After a character other than a comma the current piece is not
    empty. *)
Lemma split_step_current (st : split_state) (x : ascii) :
  x <> ","%char -> current_column (split_step st x) <> [].
Proof.
  intros N; unfold split_step.
  replace (chr_eqb x ","%char) with false
    by (symmetry; apply chr_eqb_neq; exact N).
  destruct (chr_eqb x "("%char); [|destruct (chr_eqb x ")"%char)];
    cbn [andb current_column]; intros E;
    exact (app_cons_not_nil _ _ _ (eq_sym E)).
Qed.

(** X18.  A comma at which the parentheses read so far are balanced
    separates: when [a] has as many opening as closing parentheses and
    ends in a character other than a comma, the columns of [a,rest] are
    the columns of [a] followed by the columns of [rest]. *)
Theorem split_columns_at_balanced_comma (a b rest : text) (x : ascii) :
  net a = 0 -> a = b ++ [x] -> x <> ","%char ->
  split_columns (a ++ ","%char :: rest)
  = split_columns a ++ split_columns rest.
Proof.
  intros N E X; unfold split_columns.
  rewrite fold_left_app; cbn [fold_left].
  pose proof (fold_split_step_level a (SplitState [] [] 0)) as L.
  cbn [parenthesis_level] in L; rewrite N in L; change (0 + 0) with 0 in L.
  assert (C : current_column (fold_left split_step a (SplitState [] [] 0))
              <> []).
  { subst a; rewrite fold_left_app; cbn [fold_left].
    apply split_step_current, X. }
  destruct (fold_left split_step a (SplitState [] [] 0))
    as [done cur lvl]; cbn [parenthesis_level current_column] in *.
  subst lvl.
  assert (St : split_step (SplitState done cur 0) ","%char
               = SplitState ((done ++ [strip cur]) ++ []) [] 0)
    by (rewrite app_nil_r; reflexivity).
  rewrite St, fold_split_step_done; cbv zeta;
    cbn [columns_done current_column].
  destruct cur as [|c0 cur]; [congruence|]; cbn [nonempty].
  destruct (nonempty (current_column
             (fold_left split_step rest (SplitState [] [] 0)))).
  - rewrite <- !app_assoc; reflexivity.
  - reflexivity.
Qed.

Lemma split_columns_at_balanced_comma_witness :
  split_columns (str "f(a, b) x" ++ ","%char :: str " c, d")
  = split_columns (str "f(a, b) x") ++ split_columns (str " c, d").
Proof.
  apply (split_columns_at_balanced_comma
           (str "f(a, b) x") (str "f(a, b) ") (str " c, d") "x"%char).
  - reflexivity.
  - reflexivity.
  - discriminate.
Defined.

End SplitColumns.

(* ================================================================== *)
(** * Further properties of the extractor (extractor.py) *)
(* ================================================================== *)

Section StatementSplitting.

Lemma not_quote (c : ascii) (s : text) :
  ~ In single_quote (c :: s) -> ~ In double_quote (c :: s) ->
  is_quote c = false.
Proof.
  intros S D; unfold is_quote.
  replace (chr_eqb c single_quote) with false
    by (symmetry; apply chr_eqb_neq; intros E; apply S; left; auto).
  replace (chr_eqb c double_quote) with false
    by (symmetry; apply chr_eqb_neq; intros E; apply D; left; auto).
  reflexivity.
Qed.

(** Outside literals the loop cuts at every semicolon. *)
Lemma scan_flat (s : text) :
  ~ In single_quote s -> ~ In double_quote s ->
  forall l cur,
    scan (Splitter l cur false None) s
    = Splitter
        (fold_left append_stripped
                   (removelast (prepend cur (split_chr semicolon s))) l)
        (last (prepend cur (split_chr semicolon s)) [])
        false None.
Proof.
  induction s as [|c s IH]; intros S D l cur.
  - simpl; rewrite app_nil_r; reflexivity.
  - pose proof (not_quote c s S D) as Q.
    assert (S' : ~ In single_quote s) by (intros I; apply S; right; exact I).
    assert (D' : ~ In double_quote s) by (intros I; apply D; right; exact I).
    pose proof (split_chr_nonempty semicolon s) as NE.
    unfold scan in *; cbn [fold_left split_chr]; unfold step at 2;
      cbn [in_quote quote_char statements current_statement negb].
    rewrite Q; cbn [andb orb].
    destruct (chr_eqb c semicolon) eqn:K; cbn [andb].
    + rewrite (IH S' D').
      destruct (split_chr semicolon s) as [|p ps] eqn:E; [congruence|].
      cbn [prepend removelast last app fold_left].
      rewrite app_nil_r; reflexivity.
    + rewrite (IH S' D').
      destruct (split_chr semicolon s) as [|p ps] eqn:E; [congruence|].
      cbn [prepend]; rewrite <- app_assoc; reflexivity.
Qed.

Lemma fold_append_stripped (pieces : list text) :
  forall l,
    fold_left append_stripped pieces l
    = l ++ filter nonempty (map strip pieces).
Proof.
  induction pieces as [|x pieces IH]; intros l; cbn [fold_left map filter].
  - rewrite app_nil_r; reflexivity.
  - rewrite IH; unfold append_stripped.
    destruct (nonempty (strip x)); [|reflexivity].
    rewrite <- app_assoc; reflexivity.
Qed.

(** X22.  On a text without quotes and without the characters that start
    a comment, the statements are the pieces of [split(';')], stripped,
    the empty ones left out. *)
Theorem extract_sql_statements_of_plain_text (s : text) :
  ~ In "-"%char s -> ~ In "/"%char s ->
  ~ In single_quote s -> ~ In double_quote s ->
  extract_sql_statements s
  = filter nonempty (map strip (split_chr semicolon s)).
Proof.
  intros Nd Ns Nq Nqq; unfold extract_sql_statements.
  rewrite (remove_comments_plain s Nd Ns); unfold start.
  rewrite (scan_flat s Nq Nqq [] []); unfold finish;
    cbn [statements current_statement].
  pose proof (split_chr_nonempty semicolon s) as NE.
  destruct (split_chr semicolon s) as [|p ps] eqn:E; [congruence|].
  cbn [prepend app]; rewrite <- E in *; clear E p ps.
  set (L := split_chr semicolon s) in *.
  change (append_stripped (fold_left append_stripped (removelast L) [])
                          (last L []))
    with (fold_left append_stripped [last L []]
                    (fold_left append_stripped (removelast L) [])).
  rewrite <- fold_left_app, <- (app_removelast_last [] NE).
  apply (fold_append_stripped L []).
Qed.

Lemma extract_sql_statements_of_plain_text_witness :
  extract_sql_statements (str "SELECT 1 ; ;UPDATE t SET a = 2;")
  = filter nonempty
      (map strip (split_chr semicolon
                            (str "SELECT 1 ; ;UPDATE t SET a = 2;"))).
Proof.
  apply (extract_sql_statements_of_plain_text
           (str "SELECT 1 ; ;UPDATE t SET a = 2;"));
    vm_compute; intros H; repeat (destruct H as [H|H]; [discriminate|]);
      exact H.
Defined.

Lemma scan_plain (a : text) :
  ~ In single_quote a -> ~ In double_quote a -> ~ In semicolon a ->
  forall l cur,
    scan (Splitter l cur false None) a = Splitter l (cur ++ a) false None.
Proof.
  induction a as [|c a IH]; intros S D N l cur.
  - simpl; rewrite app_nil_r; reflexivity.
  - pose proof (not_quote c a S D) as Q.
    unfold scan in *; cbn [fold_left]; unfold step at 2;
      cbn [in_quote quote_char statements current_statement negb].
    rewrite Q; cbn [andb orb].
    replace (chr_eqb c semicolon) with false
      by (symmetry; apply chr_eqb_neq; intros E; apply N; left; auto).
    cbn [andb]; rewrite IH.
    + rewrite <- app_assoc; reflexivity.
    + intros I; apply S; right; exact I.
    + intros I; apply D; right; exact I.
    + intros I; apply N; right; exact I.
Qed.

Lemma lstrip_keeps (s : text) (c : ascii) :
  In c s -> is_space c = false -> In c (lstrip s).
Proof.
  induction s as [|x s IH]; intros I C; [destruct I|].
  simpl; destruct (is_space x) eqn:X; [|exact I].
  destruct I as [E|I]; [subst x; congruence | apply IH; assumption].
Qed.

Lemma strip_keeps (s : text) (c : ascii) :
  In c s -> is_space c = false -> In c (strip s).
Proof.
  intros I C; unfold strip, rstrip.
  apply (proj1 (in_rev (lstrip (rev (lstrip s))) c)).
  apply lstrip_keeps; [|exact C].
  apply (proj1 (in_rev (lstrip s) c)).
  apply lstrip_keeps; assumption.
Qed.

(** X23.  A quote that is never closed swallows the rest of the text:
    nothing behind it is split off, semicolons included. *)
Theorem unterminated_literal_takes_the_rest (a body : text) (q : ascii) :
  ~ In "-"%char (a ++ q :: body) -> ~ In "/"%char (a ++ q :: body) ->
  ~ In single_quote a -> ~ In double_quote a -> ~ In semicolon a ->
  is_quote q = true -> ~ In q body ->
  extract_sql_statements (a ++ q :: body) = [strip (a ++ q :: body)].
Proof.
  intros Nd Ns S D N Q B; unfold extract_sql_statements.
  rewrite (remove_comments_plain _ Nd Ns); unfold start.
  rewrite scan_app, (scan_plain a S D N [] []); cbn [app].
  change (scan (Splitter [] a false None) (q :: body))
    with (scan (step (Splitter [] a false None) q) body).
  rewrite (step_open [] a None q Q), (scan_inside q body B).
  unfold finish, append_stripped; cbn [statements current_statement].
  rewrite <- app_assoc; cbn [app].
  assert (I : In q (strip (a ++ q :: body))).
  { apply strip_keeps.
    - apply in_or_app; right; left; reflexivity.
    - unfold is_quote in Q; apply orb_true_iff in Q.
      destruct Q as [E|E]; apply chr_eqb_eq in E; subst q; reflexivity. }
  destruct (strip (a ++ q :: body)); [destruct I | reflexivity].
Qed.

Lemma unterminated_literal_takes_the_rest_witness :
  extract_sql_statements (str "SELECT 'a; DROP t; SELECT 2;")
  = [str "SELECT 'a; DROP t; SELECT 2;"].
Proof.
  apply (unterminated_literal_takes_the_rest
           (str "SELECT ") (str "a; DROP t; SELECT 2;") single_quote);
    try reflexivity;
    vm_compute; intros H; repeat (destruct H as [H|H]; [discriminate|]);
      exact H.
Defined.

End StatementSplitting.

Section QueryType.

Lemma is_space_upper (c : ascii) : is_space (upper_chr c) = is_space c.
Proof. destruct c as [[] [] [] [] [] [] [] []]; reflexivity. Qed.

Lemma upper_chr_idem (c : ascii) : upper_chr (upper_chr c) = upper_chr c.
Proof. destruct c as [[] [] [] [] [] [] [] []]; reflexivity. Qed.

Lemma upper_idem (s : text) : upper (upper s) = upper s.
Proof.
  unfold upper; rewrite map_map; apply map_ext, upper_chr_idem.
Qed.

Lemma lstrip_upper (s : text) : lstrip (upper s) = upper (lstrip s).
Proof.
  induction s as [|c s IH]; [reflexivity|].
  unfold upper in *; cbn [map lstrip]; rewrite is_space_upper.
  destruct (is_space c); [exact IH | reflexivity].
Qed.

Lemma strip_upper (s : text) : strip (upper s) = upper (strip s).
Proof.
  unfold strip, rstrip; rewrite lstrip_upper.
  unfold upper at 1; rewrite <- map_rev; fold (upper (rev (lstrip s))).
  rewrite lstrip_upper; unfold upper; rewrite map_rev; reflexivity.
Qed.

Lemma lstrip_app_spaces (ws s : text) :
  forallb is_space ws = true -> lstrip (ws ++ s) = lstrip s.
Proof.
  induction ws as [|c ws IH]; intros W; [reflexivity|].
  simpl in W; apply andb_true_iff in W; destruct W as [C W].
  cbn [app lstrip]; rewrite C; apply IH, W.
Qed.

Lemma rstrip_app_spaces (s ws : text) :
  forallb is_space ws = true -> rstrip (s ++ ws) = rstrip s.
Proof.
  intros W; unfold rstrip; rewrite rev_app_distr, lstrip_app_spaces;
    [reflexivity|].
  apply forallb_forall; intros x I; rewrite forallb_forall in W.
  apply W, in_rev, I.
Qed.

(** Whitespace around a text does not change what [strip] returns. *)
Lemma strip_pad (ws1 s ws2 : text) :
  forallb is_space ws1 = true -> forallb is_space ws2 = true ->
  strip (ws1 ++ s ++ ws2) = strip s.
Proof.
  intros W1 W2; unfold strip; rewrite (lstrip_app_spaces ws1 _ W1).
  destruct (lstrip_decomp s) as [w [E W]].
  rewrite E at 1; rewrite <- app_assoc, (lstrip_app_spaces w _ W).
  destruct (lstrip s) as [|c r] eqn:L.
  - cbn [app]; rewrite (lstrip_spaces ws2 W2); reflexivity.
  - pose proof (lstrip_head s r c L) as C.
    change ((c :: r) ++ ws2) with (c :: r ++ ws2).
    rewrite (lstrip_fixed c (r ++ ws2) C).
    change (c :: r ++ ws2) with ((c :: r) ++ ws2).
    apply rstrip_app_spaces, W2.
Qed.

(** X24.  The query type depends neither on the case of the letters nor on
    whitespace around the statement. *)
Theorem extract_query_type_ignores_case_and_padding (ws1 s ws2 : text) :
  forallb is_space ws1 = true -> forallb is_space ws2 = true ->
  extract_query_type (ws1 ++ upper s ++ ws2) = extract_query_type s.
Proof.
  intros W1 W2; unfold extract_query_type.
  rewrite (strip_pad ws1 (upper s) ws2 W1 W2), strip_upper, upper_idem.
  reflexivity.
Qed.

Lemma extract_query_type_ignores_case_and_padding_witness :
  extract_query_type
    (str "  " ++ upper (str "create view v as select 1") ++ [newline])
  = extract_query_type (str "create view v as select 1").
Proof.
  apply (extract_query_type_ignores_case_and_padding
           (str "  ") (str "create view v as select 1") [newline]);
    reflexivity.
Defined.

End QueryType.

(* ================================================================== *)
(** * The normal form of a statement (analyzer.py) *)
(* ================================================================== *)

Section NormalForm.

Lemma match_ws1_none (p : option ascii) (c : ascii) (s : text) :
  is_space c = false -> match_at whitespace_run p (c :: s) = None.
Proof.
  intros C; unfold match_at, whitespace_run, ws1, plus.
  rewrite run_seq, run_chr, C; reflexivity.
Qed.

Lemma match_ws1_run (p : option ascii) (c : ascii) (g r : text) :
  is_space c = true -> forallb is_space g = true -> stops is_space r ->
  match_at whitespace_run p (c :: g ++ r)
  = Some (MState (last_prev (Some c) g) r []).
Proof.
  intros C G S; unfold match_at, whitespace_run, ws1.
  apply run_plus_longest; auto.
Qed.

(** The characters of a match in progress are passed over. *)
Lemma sub_from_skip (r : regex) (repl g s : text) :
  forall p,
    sub_from r repl (length g) p (g ++ s)
    = sub_from r repl 0 (last_prev p g) s.
Proof.
  induction g as [|c g IH]; intros p; [reflexivity|].
  cbn [length app sub_from]; rewrite IH; reflexivity.
Qed.

Lemma lstrip_stops (s : text) : stops is_space (lstrip s).
Proof.
  destruct (lstrip s) as [|c r] eqn:E; simpl; [exact I|].
  exact (lstrip_head s r c E).
Qed.

(** One step of the substitution of [\s+]: a character that is not
    whitespace is copied, a run of whitespace becomes one space. *)
Lemma sub_ws_copy (p : option ascii) (c : ascii) (s : text) :
  is_space c = false ->
  sub_from whitespace_run (str " ") 0 p (c :: s)
  = c :: sub_from whitespace_run (str " ") 0 (Some c) s.
Proof.
  intros C; cbn [sub_from]; rewrite (match_ws1_none p c s C); reflexivity.
Qed.

Lemma sub_ws_run (p : option ascii) (c : ascii) (s : text) :
  is_space c = true ->
  exists p',
    sub_from whitespace_run (str " ") 0 p (c :: s)
    = " "%char :: sub_from whitespace_run (str " ") 0 p' (lstrip s).
Proof.
  intros C; destruct (lstrip_decomp s) as [g [E G]].
  exists (last_prev (Some c) g).
  rewrite E at 1; cbn [sub_from].
  rewrite (match_ws1_run p c g (lstrip s) C G (lstrip_stops s)).
  cbn [rest length]; rewrite length_app.
  replace (S (length g + length (lstrip s)) - length (lstrip s))
    with (S (length g)) by lia.
  rewrite sub_from_skip; reflexivity.
Qed.

Lemma lstrip_length (s : text) : length (lstrip s) <= length s.
Proof.
  destruct (lstrip_decomp s) as [g [E _]].
  rewrite E at 2; rewrite length_app; lia.
Qed.

Lemma squeezed_space (d : ascii) (t : text) :
  is_space d = false -> squeezed (d :: t) = true ->
  squeezed (" "%char :: d :: t) = true.
Proof.
  intros St Q.
  change (squeezed (" "%char :: d :: t))
    with ((negb (is_space " "%char)
           || (chr_eqb " " " " && negb (is_space d)))
          && squeezed (d :: t)).
  rewrite Q, St; reflexivity.
Qed.

Lemma sub_ws_squeezed (n : nat) :
  forall s p, length s <= n ->
    squeezed (sub_from whitespace_run (str " ") 0 p s) = true.
Proof.
  induction n as [|n IH]; intros s p L.
  - destruct s; [reflexivity | simpl in L; lia].
  - destruct s as [|c s]; [reflexivity|].
    simpl in L; destruct (is_space c) eqn:C.
    + destruct (sub_ws_run p c s C) as [p' E]; rewrite E; clear E.
      assert (L' : length (lstrip s) <= n)
        by (pose proof (lstrip_length s); lia).
      pose proof (IH (lstrip s) p' L') as Q.
      pose proof (lstrip_stops s) as St.
      destruct (lstrip s) as [|d r] eqn:Ls; [reflexivity|].
      simpl in St; rewrite (sub_ws_copy p' d r St) in *.
      apply squeezed_space; assumption.
    + rewrite (sub_ws_copy p c s C); cbn [squeezed]; rewrite C.
      cbn [negb orb andb]; apply IH; lia.
Qed.

Lemma squeezed_suffix (a b : text) :
  squeezed (a ++ b) = true -> squeezed b = true.
Proof.
  induction a as [|c a IH]; intros H; [exact H|].
  cbn [app squeezed] in H; apply andb_true_iff in H; apply IH, H.
Qed.

Lemma squeezed_prefix (a b : text) :
  squeezed (a ++ b) = true -> squeezed a = true.
Proof.
  induction a as [|c a IH]; intros H; [reflexivity|].
  cbn [app squeezed] in *; apply andb_true_iff in H; destruct H as [H Q].
  rewrite (IH Q), andb_true_r.
  destruct (negb (is_space c)); [reflexivity|]; cbn [orb] in *.
  apply andb_true_iff in H; destruct H as [E H]; rewrite E; cbn [andb].
  destruct a as [|d a]; [reflexivity | exact H].
Qed.

Lemma squeezed_strip (s : text) : squeezed s = true -> squeezed (strip s) = true.
Proof.
  intros H; unfold strip.
  destruct (lstrip_decomp s) as [g [E _]].
  destruct (rstrip_decomp (lstrip s)) as [w [E' _]].
  rewrite E in H; apply squeezed_suffix in H.
  rewrite E' in H; apply squeezed_prefix in H; exact H.
Qed.

(** X19.  A normalized statement has no whitespace at its ends, and its
    only whitespace characters are single spaces, each followed by a
    character that is not whitespace.  [normalize_sql] of [utils.py]
    is the same function. *)
Theorem normalize_sql_normal_form (sql_text : text) :
  strip (_normalize_sql sql_text) = _normalize_sql sql_text
  /\ squeezed (_normalize_sql sql_text) = true
  /\ normalize_sql sql_text = _normalize_sql sql_text.
Proof.
  unfold _normalize_sql; cbv zeta; split; [|split].
  - apply strip_idem.
  - apply squeezed_strip, (sub_ws_squeezed _ _ None (Nat.le_refl _)).
  - reflexivity.
Qed.

End NormalForm.

(* ================================================================== *)
(** * Properties of the exporters (visualization.py) *)
(* ================================================================== *)

Section ExporterFacts.

Lemma split_first_contains (sep s : text) :
  contains sep s = true -> exists a b, split_first sep s = Some (a, b).
Proof.
  induction s as [|c s IH]; cbn [contains split_first]; intros H.
  - rewrite orb_false_r in H; rewrite H; eauto.
  - destruct (startswith sep (c :: s)); [eauto|].
    cbn [orb] in H; destruct (IH H) as [a [b E]]; rewrite E; eauto.
Qed.

Lemma unpack_split1 (sep s : text) :
  contains sep s = true ->
  exists a b, unpack2 (split1 sep s) = Some (a, b).
Proof.
  intros H; destruct (split_first_contains sep s H) as [a [b E]].
  exists a, b; unfold split1; rewrite E; reflexivity.
Qed.

(** A turn never raises, and writes one row of four fields unless the
    source is empty. *)
Lemma source_rows_some (target_table target_column source_col : text) :
  exists rows,
    source_rows target_table target_column source_col = Some rows
    /\ length rows = (if nonempty source_col then 1 else 0)
    /\ Forall (fun r => length r = 4) rows.
Proof.
  unfold source_rows.
  destruct (nonempty source_col); cbn [negb]; [|eexists; auto].
  destruct (contains (str "Function:") source_col);
    [eexists; repeat split; auto|].
  destruct (contains (str ".") source_col) eqn:D;
    [|eexists; repeat split; auto].
  destruct (unpack_split1 _ _ D) as [a [b E]]; rewrite E.
  destruct (contains (str " (in ") b) eqn:F;
    [|eexists; repeat split; auto].
  destruct (unpack_split1 _ _ F) as [a' [b' E']]; rewrite E'.
  eexists; repeat split; auto.
Qed.

Lemma parse_target_some (target_col : text) :
  exists a b, parse_target target_col = Some (a, b).
Proof.
  unfold parse_target; destruct (contains (str ".") target_col) eqn:D;
    [apply unpack_split1, D | eauto].
Qed.

Lemma written_source_rows (a b : text) (sources : list text)
      (more : list (option (list row))) :
  exists rows,
    written (map (source_rows a b) sources ++ more) = rows ++ written more
    /\ length rows = length (filter nonempty sources)
    /\ Forall (fun r => length r = 4) rows
    /\ (forall s rs r, In s sources -> source_rows a b s = Some rs ->
                       In r rs -> In r rows).
Proof.
  induction sources as [|s sources [rows [E [L [F I]]]]].
  - exists []; repeat split; auto; intros s rs r [].
  - destruct (source_rows_some a b s) as [rs [Es [Ls Fs]]].
    exists (rs ++ rows); cbn [map app written filter]; rewrite Es, E.
    split; [apply app_assoc|]. split; [|split].
    + rewrite length_app, Ls, L; destruct (nonempty s); reflexivity.
    + apply Forall_app; auto.
    + intros s' rs' r [<-|Hs] Er Hr; apply in_or_app.
      * left; rewrite Es in Er; inversion Er; subst; exact Hr.
      * right; exact (I s' rs' r Hs Er Hr).
Qed.

Lemma written_mappings (m : mapping) :
  exists rows,
    written
      (flat_map
         (fun '(target_col, source_cols) =>
            match parse_target target_col with
            | Some (target_table, target_column) =>
                map (source_rows target_table target_column) source_cols
            | None => [None]
            end) m) = rows
    /\ length rows = length (filter nonempty (concat (map snd m)))
    /\ Forall (fun r => length r = 4) rows
    /\ (forall k sources a b s rs r,
           In (k, sources) m -> parse_target k = Some (a, b) ->
           In s sources -> source_rows a b s = Some rs -> In r rs ->
           In r rows).
Proof.
  induction m as [|[k sources] m [rows [E [L [F I]]]]].
  - exists []; repeat split; auto; intros k sources a b s rs r [].
  - destruct (parse_target_some k) as [a [b P]].
    destruct (written_source_rows a b sources
                (flat_map
                   (fun '(target_col, source_cols) =>
                      match parse_target target_col with
                      | Some (target_table, target_column) =>
                          map (source_rows target_table target_column)
                              source_cols
                      | None => [None]
                      end) m))
      as [rs [Es [Ls [Fs Is]]]].
    exists (rs ++ rows); cbn [flat_map map concat snd]; rewrite P, Es, E.
    split; [reflexivity|]. split; [|split].
    + rewrite filter_app, !length_app, Ls, L; reflexivity.
    + apply Forall_app; auto.
    + intros k' sources' a' b' s' rs' r [H|H] P' Hs Er Hr; apply in_or_app.
      * inversion H; subst k' sources'; rewrite P in P'.
        inversion P'; subst a' b'; left; exact (Is s' rs' r Hs Er Hr).
      * right; exact (I k' sources' a' b' s' rs' r H P' Hs Er Hr).
Qed.





Lemma split_first_dot (a b : text) :
  ~ In "."%char a -> split_first (str ".") (a ++ "."%char :: b) = Some (a, b).
Proof.
  induction a as [|c a IH]; intros N.
  - cbn [app split_first str list_ascii_of_string startswith].
    rewrite chr_eqb_refl; destruct b; reflexivity.
  - cbn [app split_first str list_ascii_of_string startswith].
    replace (chr_eqb "." c) with false
      by (symmetry; apply chr_eqb_neq; intros E; apply N; left; auto).
    cbn [andb].
    change [("."%char)] with (str ".").
    rewrite IH; [reflexivity|].
    intros I; apply N; right; exact I.
Qed.

Lemma contains_dot (a b : text) :
  contains (str ".") (a ++ "."%char :: b) = true.
Proof.
  induction a as [|c a IH]; cbn [app contains].
  - cbn [str list_ascii_of_string startswith]; rewrite chr_eqb_refl.
    destruct b; reflexivity.
  - rewrite IH; apply orb_true_r.
Qed.

(** X26.  With a path that can be opened for writing, a mapping whose
    target the analyzer built as [table.column], with a table name
    that has no dot, and whose source is a qualified reference [s.x]
    is exported as the row [s, x, table, column].  The target is cut
    at its first dot: for a target table written [db.t] the row names
    the table [db] and the column [t.column]. *)
Theorem export_source_target_row
        (m : mapping) (t c st sc : text) (sources : list text)
        (output_path : text) (fs : file_system) :
  open_for_writing fs output_path = true ->
  In (target_key t c, sources) m ->
  In (st ++ str "." ++ sc) sources ->
  ~ In "."%char t -> ~ In "."%char st ->
  contains (str "Function:") (st ++ str "." ++ sc) = false ->
  contains (str " (in ") sc = false ->
  exists rows,
    export_source_target_csv m output_path fs = Some rows
    /\ In [st; sc; t; c] rows.
Proof.
  intros O Hm Hs Nt Ns F P; unfold export_source_target_csv; rewrite O.
  eexists; split; [reflexivity|]; unfold source_target_rows, items.
  destruct (written_mappings m) as [rows [E [_ [_ I]]]]; rewrite E.
  right.
  apply (I (target_key t c) sources t c (st ++ str "." ++ sc)
           [[st; sc; t; c]] [st; sc; t; c] Hm); auto.
  - unfold parse_target, target_key; cbn [str list_ascii_of_string app].
    rewrite contains_dot; unfold split1.
    change [("."%char)] with (str ".").
    rewrite (split_first_dot t c Nt); reflexivity.
  - unfold source_rows; rewrite F.
    cbn [str list_ascii_of_string app] in *.
    replace (nonempty (st ++ "."%char :: sc)) with true
      by (destruct st; reflexivity).
    cbn [negb]; rewrite contains_dot; unfold split1.
    change [("."%char)] with (str ".").
    rewrite (split_first_dot st sc Ns); cbn [unpack2]; rewrite P.
    reflexivity.
  - left; reflexivity.
Qed.

Lemma export_source_target_row_witness :
  exists rows,
    export_source_target_csv
      [(str "db.t.a", [str "s.x"]); (str "db.t.b", [str "s.y"])]
      (str "out/lineage.csv") fs_open = Some rows
    /\ In [str "s"; str "x"; str "db"; str "t.a"] rows.
Proof.
  apply (export_source_target_row
           [(str "db.t.a", [str "s.x"]); (str "db.t.b", [str "s.y"])]
           (str "db") (str "t.a") (str "s") (str "x") [str "s.x"]
           (str "out/lineage.csv") fs_open).
  - reflexivity.
  - left; reflexivity.
  - left; reflexivity.
  - intros [H|[H|[]]]; discriminate.
  - intros [H|[]]; discriminate.
  - reflexivity.
  - reflexivity.
Defined.

End ExporterFacts.

Section MetadataExport.

(** X27.  The metadata export never writes a row for the reserved
    per-table slot, whatever the store holds and wherever it writes,
    and every row has four fields. *)
Theorem export_metadata_csv_skips_reserved_slot
        (st : store) (output_path : text) (fs : file_system)
        (rows : list row) (r : row) :
  export_metadata_csv st output_path fs = Some rows ->
  In r rows ->
  length r = 4 /\ nth 1 r [] <> table_properties.
Proof.
  unfold export_metadata_csv.
  destruct (open_for_writing fs output_path); [|discriminate].
  intros E; inversion E; subst rows; clear E.
  unfold metadata_rows, items; intros [<-|H].
  - split; [reflexivity | discriminate].
  - apply in_flat_map in H; destruct H as [[d tbls] [_ H]].
    apply in_flat_map in H; destruct H as [[t cols] [_ H]].
    apply in_flat_map in H; destruct H as [[c p] [_ H]].
    destruct (text_eqb c table_properties) eqn:E; [destruct H|].
    destruct H as [<-|[]]; split; [reflexivity|].
    apply text_eqb_neq, E.
Qed.

Lemma export_metadata_csv_skips_reserved_slot_witness :
  length [str "s"; str "x"; []; []] = 4
  /\ nth 1 [str "s"; str "x"; []; []] [] <> table_properties.
Proof.
  apply (export_metadata_csv_skips_reserved_slot
           store_s_xy (str "out/metadata.csv") fs_open
           (metadata_rows store_s_xy) [str "s"; str "x"; []; []]).
  - reflexivity.
  - vm_compute; right; left; reflexivity.
Defined.



End MetadataExport.

(* ================================================================== *)
(** * Reading back the exported descriptions (metadata.py) *)
(* ================================================================== *)

Section ReferenceImport.






Lemma for_each_returns {A} (body : A -> M unit) :
  (forall x st, exists st', body x st = (Some tt, st')) ->
  forall l st, exists st', for_each l body st = (Some tt, st').
Proof.
  intros B; induction l as [|x l IH]; intros st; [exists st; reflexivity|].
  destruct (B x st) as [st1 E1]; destruct (IH st1) as [st2 E2].
  exists st2; cbn [for_each]; rewrite (bind_run _ _ _ _ _ E1); exact E2.
Qed.






End ReferenceImport.

(* ================================================================== *)
(** * Qualified names (utils.py) *)
(* ================================================================== *)

Section QualifiedNames.

Lemma split_chr_whole (sep : ascii) (a : text) :
  ~ In sep a -> split_chr sep a = [a].
Proof.
  induction a as [|c a IH]; intros N; [reflexivity|].
  cbn [split_chr].
  replace (chr_eqb c sep) with false
    by (symmetry; apply chr_eqb_neq; intros ->; apply N; left; reflexivity).
  rewrite IH by (intros H; apply N; right; exact H); reflexivity.
Qed.

(** X29.  [extract_schema_name] and [extract_table_name] read a dotted
    name from the left: a name without dot is a table of the schema
    [default]; [a.b] is schema [a], table [b]; [a.b.c] is schema [b],
    table [c]; and from a fourth part on the rest of the name is
    ignored, so that the table of [a.b.c.rest] is [c], not its last
    part. *)
Theorem schema_and_table_of_dotted_name (a b c rest : text) :
  ~ In "."%char a -> ~ In "."%char b -> ~ In "."%char c ->
  (extract_schema_name a, extract_table_name a) = (str "default", a)
  /\ (extract_schema_name (a ++ str "." ++ b),
      extract_table_name (a ++ str "." ++ b)) = (a, b)
  /\ (extract_schema_name (a ++ str "." ++ b ++ str "." ++ c),
      extract_table_name (a ++ str "." ++ b ++ str "." ++ c)) = (b, c)
  /\ (extract_schema_name
        (a ++ str "." ++ b ++ str "." ++ c ++ str "." ++ rest),
      extract_table_name
        (a ++ str "." ++ b ++ str "." ++ c ++ str "." ++ rest)) = (b, c).
Proof.
  intros Na Nb Nc; unfold extract_schema_name, extract_table_name.
  cbn [str list_ascii_of_string app].
  rewrite (split_chr_whole "."%char a Na).
  rewrite !(split_chr_at_separator "."%char a _ Na).
  rewrite (split_chr_whole "."%char b Nb).
  rewrite !(split_chr_at_separator "."%char b _ Nb).
  rewrite (split_chr_whole "."%char c Nc).
  rewrite !(split_chr_at_separator "."%char c _ Nc).
  pose proof (split_chr_nonempty "."%char rest) as NE.
  destruct (split_chr "."%char rest) as [|p ps]; [congruence|].
  repeat split; reflexivity.
Qed.

Lemma schema_and_table_of_dotted_name_witness :
  (extract_schema_name (str "orders"), extract_table_name (str "orders"))
    = (str "default", str "orders")
  /\ (extract_schema_name (str "orders" ++ str "." ++ str "id"),
      extract_table_name (str "orders" ++ str "." ++ str "id"))
     = (str "orders", str "id")
  /\ (extract_schema_name
        (str "orders" ++ str "." ++ str "id" ++ str "." ++ str "x"),
      extract_table_name
        (str "orders" ++ str "." ++ str "id" ++ str "." ++ str "x"))
     = (str "id", str "x")
  /\ (extract_schema_name
        (str "orders" ++ str "." ++ str "id" ++ str "." ++ str "x"
           ++ str "." ++ str "y.z"),
      extract_table_name
        (str "orders" ++ str "." ++ str "id" ++ str "." ++ str "x"
           ++ str "." ++ str "y.z"))
     = (str "id", str "x").
Proof.
  apply (schema_and_table_of_dotted_name
           (str "orders") (str "id") (str "x") (str "y.z"));
    vm_compute; intros H; repeat (destruct H as [H|H]; [discriminate|]);
      exact H.
Defined.

End QualifiedNames.

(* ================================================================== *)
(** * The table names the analyzer reports (analyzer.py) *)
(* ================================================================== *)

Section TableNames.

(** One or more characters of a class, then the continuation. *)
Lemma run_plus_sound (f : ascii -> bool) (k : mstate -> option mstate)
      (p : option ascii) (s : text) (cs : list (nat * text)) (m : mstate) :
  run (plus (Chr f)) k (MState p s cs) = Some m ->
  exists c g r p', s = c :: g ++ r /\ f c = true /\
                   forallb f g = true /\
                   k (MState p' r cs) = Some m.
Proof.
  unfold plus; rewrite run_seq, run_chr.
  destruct s as [|c s]; [discriminate|].
  destruct (f c) eqn:C; [|discriminate].
  rewrite run_star_class; intros H.
  destruct (greedy_class_sound _ _ _ _ _ _ H) as [g [r [p' [E [F K]]]]].
  exists c, g, r, p'; subst s; auto.
Qed.

(** A pattern that ends in a group over a class captures a non-empty
    text of that class. *)
Lemma run_final_group (f : ascii -> bool) (st m : mstate) :
  run (Group 1 (plus (Chr f))) (fun st => Some st) st = Some m ->
  group 1 m <> [] /\ forallb f (group 1 m) = true.
Proof.
  rewrite run_group; destruct st as [p s cs]; intros H.
  destruct (run_plus_sound f _ p s cs m H) as [c [g [r [p' [E [C [F K]]]]]]].
  cbn [prev rest caps] in K; inversion K; subst m s.
  unfold group; cbn [caps lookup_group Nat.eqb].
  change (c :: g ++ r) with ((c :: g) ++ r); rewrite firstn_taken.
  split; [discriminate|]. cbn [forallb]; rewrite C, F; reflexivity.
Qed.

Lemma seq_cons (a b : regex) (l : list regex) :
  seq (a :: b :: l) = Seq a (seq (b :: l)).
Proof. reflexivity. Qed.

Lemma run_seq_last (l : list regex) (G : regex) :
  forall (k : mstate -> option mstate) (st m : mstate),
    run (seq (l ++ [G])) k st = Some m ->
    exists st', run G k st' = Some m.
Proof.
  induction l as [|a l IH]; intros k st m H; [exists st; exact H|].
  destruct l as [|b l].
  - cbn [app] in H; rewrite seq_cons, run_seq in H.
    destruct (run_within a _ _ _ H) as [st' [_ K]]; exists st'; exact K.
  - change ((a :: b :: l) ++ [G]) with (a :: b :: (l ++ [G])) in H.
    rewrite seq_cons, run_seq in H.
    destruct (run_within a _ _ _ H) as [st' [_ K]].
    exact (IH k st' m K).
Qed.

Lemma match_ends_in_group (l : list regex) (f : ascii -> bool)
      (p : option ascii) (s : text) (m : mstate) :
  match_at (seq (l ++ [Group 1 (plus (Chr f))])) p s = Some m ->
  group 1 m <> [] /\ forallb f (group 1 m) = true.
Proof.
  unfold match_at; intros H.
  destruct (run_seq_last l _ _ _ _ H) as [st' K].
  exact (run_final_group f st' m K).
Qed.

Lemma finditer_from_sound (r : regex) (s : text) :
  forall (skip : nat) (p : option ascii) (m : mstate),
    In m (finditer_from r skip p s) ->
    exists p' s', match_at r p' s' = Some m.
Proof.
  induction s as [|c s IH]; intros skip p m H; [destruct H|].
  cbn [finditer_from] in H.
  destruct skip as [|n]; [|exact (IH _ _ _ H)].
  destruct (match_at r p (c :: s)) as [m'|] eqn:E; [|exact (IH _ _ _ H)].
  destruct (length (c :: s) - length (rest m')); [exact (IH _ _ _ H)|].
  destruct H as [<-|H]; [eauto | exact (IH _ _ _ H)].
Qed.

Lemma strip_clean (f : ascii -> bool) (s : text) :
  (forall c, f c = true -> is_space c = false) ->
  forallb f s = true -> strip s = s.
Proof.
  intros Fs F; rewrite forallb_forall in F.
  assert (L : forall x, (forall c, In c x -> is_space c = false) ->
                        lstrip x = x).
  { intros [|c x] H; [reflexivity|].
    apply lstrip_fixed, H; left; reflexivity. }
  unfold strip, rstrip.
  rewrite (L s) by (intros c I; apply Fs, F, I).
  rewrite (L (rev s)), rev_involutive; [reflexivity|].
  intros c I; apply Fs, F, in_rev, I.
Qed.

Lemma table_chr_not_space (c : ascii) :
  table_chr c = true -> is_space c = false.
Proof.
  unfold table_chr; destruct (is_space c); [discriminate | reflexivity].
Qed.

Lemma name_chr_not_space (c : ascii) :
  name_chr c = true -> is_space c = false.
Proof.
  unfold name_chr; destruct (is_space c); [discriminate | reflexivity].
Qed.

Lemma search_ends_in_group (l : list regex) (f : ascii -> bool)
      (s : text) (m : mstate) :
  (forall c, f c = true -> is_space c = false) ->
  re_search (seq (l ++ [Group 1 (plus (Chr f))])) s = Some m ->
  strip (group 1 m) <> [] /\ forallb f (strip (group 1 m)) = true.
Proof.
  intros Fs H.
  destruct (search_from_sound _ _ _ _ H) as [s1 [s2 [p' [_ M]]]].
  destruct (match_ends_in_group l f p' s2 m M) as [N F].
  rewrite (strip_clean f _ Fs F); auto.
Qed.

(** X20.  The table names the analyzer extracts are never empty and hold
    no whitespace: a source table has none of [,;()] either, and the
    target table is the word [Unknown] or has no opening parenthesis. *)
Theorem extracted_table_names_are_clean (sql_text : text) :
  (forall x, In x (_extract_source_tables sql_text) ->
             x <> [] /\ forallb table_chr x = true)
  /\ (_extract_target_table sql_text = str "Unknown"
      \/ (_extract_target_table sql_text <> []
          /\ forallb name_chr (_extract_target_table sql_text) = true)).
Proof.
  split.
  - intros x H; unfold _extract_source_tables in H.
    apply in_app_or in H.
    assert (T : forall l m,
               In m (re_finditer
                       (seq (l ++ [Group 1 (plus (Chr table_chr))]))
                       sql_text) ->
               strip (group 1 m) <> []
               /\ forallb table_chr (strip (group 1 m)) = true).
    { intros l m I; unfold re_finditer in I.
      destruct (finditer_from_sound _ _ _ _ _ I) as [p' [s' M]].
      destruct (match_ends_in_group l table_chr p' s' m M) as [N F].
      rewrite (strip_clean table_chr _ table_chr_not_space F); auto. }
    destruct H as [H|H]; apply in_map_iff in H;
      destruct H as [m [<- I]].
    + exact (T [lit_i "FROM"; ws1] m I).
    + exact (T [lit_i "JOIN"; ws1] m I).
  - unfold _extract_target_table.
    destruct (re_search insert_into sql_text) as [m|] eqn:E1.
    { right; exact (search_ends_in_group
                      [lit_i "INSERT"; ws1; lit_i "INTO"; ws1]
                      name_chr sql_text m name_chr_not_space E1). }
    destruct (re_search create_table sql_text) as [m|] eqn:E2.
    { right; exact (search_ends_in_group
                      [lit_i "CREATE"; ws1; or_replace; temp;
                       lit_i "TABLE"; ws1]
                      name_chr sql_text m name_chr_not_space E2). }
    destruct (re_search create_view sql_text) as [m|] eqn:E3.
    { right; exact (search_ends_in_group
                      [lit_i "CREATE"; ws1; or_replace;
                       lit_i "VIEW"; ws1]
                      name_chr sql_text m name_chr_not_space E3). }
    left; reflexivity.
Qed.

Lemma extracted_table_names_are_clean_witness :
  str "s" <> [] /\ forallb table_chr (str "s") = true.
Proof.
  apply (proj1 (extracted_table_names_are_clean
                  (str "INSERT INTO t (a) SELECT x FROM s"))
               (str "s")).
  vm_compute; left; reflexivity.
Defined.

(** What every entry of a mapping looks like: the key is built from
    the target table, the value is one source. *)
Lemma map_by_position_entries (P : text * list text -> Prop)
      (ms : store) (target_table : text) (source_tables : list text)
      (target_columns source_columns : list text) :
  (forall col src, P (target_key target_table col, [src])) ->
  forall i acc,
    Forall P acc ->
    Forall P (map_by_position ms target_table source_tables i
                              target_columns source_columns acc).
Proof.
  intros HP; induction target_columns as [|c cs IH]; intros i acc F;
    [exact F|].
  cbn [map_by_position]; apply IH.
  destruct (nth_error source_columns i); [|exact F].
  apply Forall_setitem; [exact F | apply HP].
Qed.

Lemma map_expression_entries (P : text * list text -> Prop)
      (ms : store) (target_table : text) (source_tables : list text) :
  (forall col src, P (target_key target_table col, [src])) ->
  forall exprs acc,
    Forall P acc ->
    Forall P (fold_left (map_expression ms target_table source_tables)
                        exprs acc).
Proof.
  intros HP; induction exprs as [|e exprs IH]; intros acc F; [exact F|].
  cbn [fold_left]; apply IH; unfold map_expression.
  destruct (re_search alias e); apply Forall_setitem; auto.
Qed.

(** X21.  Every entry of the result of [analyze_sql] has a key of the
    form [target.column], where [target] is the target table extracted
    from the normalized statement, and a value that is a list of
    exactly one source. *)
Theorem analyze_sql_maps_each_target_to_one_source
        (ms : store) (sql_text : text) (k : text) (v : list text) :
  In (k, v) (analyze_sql ms sql_text) ->
  exists col src,
    k = target_key (_extract_target_table (_normalize_sql sql_text)) col
    /\ v = [src].
Proof.
  unfold analyze_sql; cbv zeta.
  set (sql := _normalize_sql sql_text).
  set (T := _extract_target_table sql).
  set (Srcs := _extract_source_tables sql).
  set (P := fun e : text * list text =>
              exists col src, fst e = target_key T col /\ snd e = [src]).
  assert (HP : forall col src, P (target_key T col, [src]))
    by (intros col src; exists col, src; auto).
  assert (F : Forall P (_extract_column_mappings ms sql T Srcs)).
  { unfold _extract_column_mappings.
    destruct (contains (str "INSERT INTO") (upper sql)).
    - destruct (re_search insert_columns sql); [|constructor].
      destruct (re_search (select_list dot) sql); [|constructor].
      apply (map_by_position_entries P); [exact HP | constructor].
    - destruct (contains (str "CREATE") (upper sql)
                && contains (str "SELECT") (upper sql)); [|constructor].
      destruct (re_search (select_list dot) sql); [|constructor].
      apply (map_expression_entries P); [exact HP | constructor]. }
  intros I; rewrite Forall_forall in F; exact (F (k, v) I).
Qed.

Lemma analyze_sql_maps_each_target_to_one_source_witness :
  exists col src,
    str "t.a"
    = target_key (_extract_target_table
                    (_normalize_sql
                       (str "INSERT INTO t (a) SELECT s.x FROM s"))) col
    /\ [str "s.x"] = [src].
Proof.
  apply (analyze_sql_maps_each_target_to_one_source
           empty (str "INSERT INTO t (a) SELECT s.x FROM s")
           (str "t.a") [str "s.x"]).
  vm_compute; left; reflexivity.
Defined.

End TableNames.

(* ================================================================== *)
(** * Looking up what is not registered (metadata.py) *)
(* ================================================================== *)

Section MissingEntries.

(** X30.  The getters answer for a table that is not registered, under
    any way of naming it: no columns, empty descriptions, and no column
    exists. *)
Theorem lookups_of_unregistered_table
        (t : text) (o : option text) (st : store) :
  table_entry (or_default (fst (qualify t o))) (snd (qualify t o)) st
    = None ->
  get_columns t o st = []
  /\ get_table_description t o st = []
  /\ forall c, get_column_description c t o st = []
               /\ column_exists t c o st = false.
Proof.
  destruct (qualify t o) as [o1 t1] eqn:Q; cbn [fst snd].
  set (d := or_default o1).
  assert (D : d <> []) by apply or_default_nonempty.
  intros H.
  assert (E : forall c, column_exists t1 c (Some d) st = false)
    by (intros c; rewrite (column_exists_given d t1 c st D), H; reflexivity).
  assert (X : forall c, column_exists t c o st = false).
  { intros c; rewrite <- (E c); unfold column_exists.
    rewrite Q, (qualify_given t1 (Some d) (falsy_or_default o1)).
    fold d; rewrite (or_default_some d D); reflexivity. }
  unfold table_entry in H.
  split; [|split; [|intros c; split; [|apply X]]].
  - unfold get_columns; rewrite Q; fold d.
    destruct (getitem d st); [rewrite H|]; reflexivity.
  - unfold get_table_description; rewrite Q; fold d.
    destruct (getitem d st); [rewrite H|]; reflexivity.
  - unfold get_column_description; rewrite Q; fold d.
    rewrite (E c); reflexivity.
Qed.

Lemma lookups_of_unregistered_table_witness :
  get_columns (str "sales.orders") None store_s_xy = []
  /\ get_table_description (str "sales.orders") None store_s_xy = []
  /\ forall c, get_column_description c (str "sales.orders") None store_s_xy
               = []
               /\ column_exists (str "sales.orders") c None store_s_xy
                  = false.
Proof.
  apply (lookups_of_unregistered_table (str "sales.orders") None store_s_xy).
  reflexivity.
Defined.

End MissingEntries.
